(** * The tokenizer of python-dsl (dsl/scanner.py), embedded in Rocq

    The development follows the layering of the source:

    - [Plex]: the pattern language and the scanning loop of the [plex]
      package that [RawScanner] is built on (an external library: only the
      behaviour the scanner relies on is modelled, see the module's header);
    - [Raw]: the class [RawScanner] (lexicon, handlers, [eof], [outdent_to]);
    - [Tok]: the classes [SourceLocation], [SourceRange] and [Token];
    - [Look]: the class [Scanner] ([peek], [read], [next_is_*],
      [require_*]);
    - [Src]: equality of locations and ranges, the position properties of
      [Scanner] and the class [SourceRangeBuilder];
    - [Inv], [Lex]: predicates on scanner states and the character classes
      and machine states the proofs about the lexicon use.

    Definitions come first, the theorems about them follow. *)

From Stdlib Require Import List String Ascii Bool Arith Lia Sorted.
Import ListNotations.

Local Open Scope string_scope.
Local Open Scope list_scope.

(* ===================================================================== *)
(** * Plex: patterns, machines and the input protocol                    *)
(* ===================================================================== *)

(** [plex] is not part of the repository.  What is modelled here is the
    behaviour of Plex 1.x (Python 2) that [dsl/scanner.py] depends on:

    - the scanner does not feed the machine plain characters only: a line
      starts with the pseudo character BOL, a newline character is preceded
      by EOL, and the end of the stream is delivered as EOL followed by EOF
      ([Scanner.next_char]);
    - every pattern is compiled with an optional leading BOL, a newline
      inside a pattern is compiled as an optional EOL followed by the
      newline character ([RE.build_machine]);
    - the machine of a scanner state runs all its patterns in parallel, the
      longest match wins, and among patterns matching the same longest text
      the one listed first wins ([Scanner.run_machine_inlined]);
    - when nothing matches, the characters read so far stay read, and
      [scan_a_token] either reports the end of the file or raises
      [UnrecognizedInput]. *)
Module Plex.

(** The newline character (code 10). *)
Definition nl : ascii := "010"%char.

(** What the machine reads: a character of the stream or one of Plex's
    pseudo characters. *)
Inductive sym : Type :=
| Ch (c : ascii)
| BOL
| EOL
| EOF.

(** The sequence that repeated [next_char] calls deliver for the rest of a
    stream: an EOL before every newline, a BOL after it, EOL and EOF at the
    end.  After EOF, [cur_char] is the empty string for good: the list is
    over. *)
Fixpoint expand (cs : list ascii) : list sym :=
  match cs with
  | [] => [EOL; EOF]
  | c :: r => if Ascii.eqb c nl then EOL :: Ch nl :: BOL :: expand r
              else Ch c :: expand r
  end.

(** A fresh scanner has [cur_char = BOL]. *)
Definition stream (s : string) : list sym := BOL :: expand (list_ascii_of_string s).

(** ** Patterns, as the lexicon writes them *)

Inductive RE : Type :=
| Str (s : string)          (* the literal string *)
| Any (s : string)          (* one character of the string *)
| AnyBut (s : string)       (* one character not in the string (newline included) *)
| Range (s : string)        (* one character in one of the ranges s[0]..s[1], s[2]..s[3], ... *)
| Rep (r : RE)              (* zero or more *)
| Rep1 (r : RE)             (* one or more *)
| Opt (r : RE)              (* zero or one *)
| Seq (a b : RE)            (* a + b *)
| Alt (a b : RE)            (* a | b *)
| Eof.                      (* the end of the file *)

Declare Scope re_scope.
Delimit Scope re_scope with re.
Bind Scope re_scope with RE.
Notation "a :+: b" := (Seq a b) (at level 50, left associativity) : re_scope.
Notation "a :|: b" := (Alt a b) (at level 55, left associativity) : re_scope.

Fixpoint mem_chars (s : string) (c : ascii) : bool :=
  match s with
  | EmptyString => false
  | String x r => Ascii.eqb c x || mem_chars r c
  end.

Fixpoint in_ranges (s : string) (c : ascii) : bool :=
  match s with
  | String lo (String hi r) => (Ascii.leb lo c && Ascii.leb c hi) || in_ranges r c
  | _ => false
  end.

Fixpoint last_char (s : string) : option ascii :=
  match s with
  | EmptyString => None
  | String c EmptyString => Some c
  | String _ r => last_char r
  end.

(** [RE.nullable]: the pattern can match no input at all. *)
Fixpoint nullable (r : RE) : bool :=
  match r with
  | Str s => match s with EmptyString => true | _ => false end
  | Any _ | AnyBut _ | Range _ | Eof => false
  | Rep _ | Opt _ => true
  | Rep1 a => nullable a
  | Seq a b => nullable a && nullable b
  | Alt a b => nullable a || nullable b
  end.

(** [RE.match_nl]: the pattern can match a text ending in a newline. *)
Fixpoint match_nl (r : RE) : bool :=
  match r with
  | Str s => match last_char s with Some c => Ascii.eqb c nl | None => false end
  | Any s => mem_chars s nl
  | AnyBut s => negb (mem_chars s nl)
  | Range s => in_ranges s nl
  | Eof => false
  | Rep a | Rep1 a | Opt a => match_nl a
  | Seq a b => match_nl b || (nullable b && match_nl a)
  | Alt a b => match_nl a || match_nl b
  end.

(** ** Machines *)

(** The machine a pattern compiles to, kept at the level of the language it
    accepts over [sym]. *)
Inductive machine : Type :=
| MFail
| MEps
| MSym (p : sym -> bool)
| MSeq (a b : machine)
| MAlt (a b : machine)
| MStar (a : machine).

Definition is_bol (x : sym) : bool := match x with BOL => true | _ => false end.
Definition is_eol (x : sym) : bool := match x with EOL => true | _ => false end.
Definition is_eof (x : sym) : bool := match x with EOF => true | _ => false end.
Definition is_nl (x : sym) : bool := match x with Ch c => Ascii.eqb c nl | _ => false end.

(** An ordinary character of the class [p]; the newline is never matched
    this way (see [newline_m]). *)
Definition plain (p : ascii -> bool) (x : sym) : bool :=
  match x with Ch c => p c && negb (Ascii.eqb c nl) | _ => false end.

Definition MOpt (m : machine) : machine := MAlt MEps m.

(** [RE.build_opt] with BOL: the state is reachable on BOL or on nothing. *)
Definition opt_bol (match_bol : bool) (m : machine) : machine :=
  if match_bol then MSeq (MOpt (MSym is_bol)) m else m.

(** [RawNewline]: an optional EOL, then the newline character. *)
Definition newline_m : machine := MSeq (MOpt (MSym is_eol)) (MSym is_nl).

(** A character class ([CodeRanges]): the ranges without the newline, and
    [RawNewline] when the class contains it. *)
Definition class_m (p : ascii -> bool) : machine :=
  MAlt (MSym (plain p)) (if p nl then newline_m else MFail).

(** [Char(c)]. *)
Definition char_m (c : ascii) : machine :=
  if Ascii.eqb c nl then newline_m else MSym (plain (Ascii.eqb c)).

(** [Str(s)] is the sequence of its characters; BOL is optional before the
    first one and after each newline. *)
Fixpoint str_m (s : string) (match_bol : bool) : machine :=
  match s with
  | EmptyString => MEps
  | String c r => MSeq (opt_bol match_bol (char_m c)) (str_m r (Ascii.eqb c nl))
  end.

(** [RE.build_machine]. *)
Fixpoint build (r : RE) (match_bol : bool) : machine :=
  match r with
  | Str s => str_m s match_bol
  | Any s => opt_bol match_bol (class_m (mem_chars s))
  | AnyBut s => opt_bol match_bol (class_m (fun c => negb (mem_chars s c)))
  | Range s => opt_bol match_bol (class_m (in_ranges s))
  | Eof => MSym is_eof
  | Rep1 a =>
      let m := build a (match_bol || match_nl a) in MSeq m (MStar m)
  | Rep a =>
      (* Rep(a) is Opt(Rep1(a)) *)
      if nullable a
      then let m := build a (match_bol || match_nl a) in MAlt (MSeq m (MStar m)) MEps
      else let m := build a (match_nl a) in MAlt (opt_bol match_bol (MSeq m (MStar m))) MEps
  | Opt a =>
      if nullable a then MAlt (build a match_bol) MEps
      else MAlt (opt_bol match_bol (build a false)) MEps
  | Seq a b =>
      MSeq (build a match_bol) (build b (match_nl a || (match_bol && nullable a)))
  | Alt a b =>
      match nullable a, nullable b with
      | true, true => MAlt (build a match_bol) (build b match_bol)
      | true, false => MAlt (build a match_bol) (opt_bol match_bol (build b false))
      | false, true => MAlt (opt_bol match_bol (build a false)) (build b match_bol)
      | false, false => opt_bol match_bol (MAlt (build a false) (build b false))
      end
  end.

(** ** Running a machine: derivatives *)

Fixpoint accepts_empty (m : machine) : bool :=
  match m with
  | MFail | MSym _ => false
  | MEps | MStar _ => true
  | MSeq a b => accepts_empty a && accepts_empty b
  | MAlt a b => accepts_empty a || accepts_empty b
  end.

Definition mseq (a b : machine) : machine :=
  match a, b with
  | MFail, _ => MFail
  | _, MFail => MFail
  | MEps, _ => b
  | _, _ => MSeq a b
  end.

Definition malt (a b : machine) : machine :=
  match a, b with
  | MFail, _ => b
  | _, MFail => a
  | _, _ => MAlt a b
  end.

(** The machine after reading [x]. *)
Fixpoint der (x : sym) (m : machine) : machine :=
  match m with
  | MFail | MEps => MFail
  | MSym p => if p x then MEps else MFail
  | MSeq a b =>
      malt (mseq (der x a) b) (if accepts_empty a then der x b else MFail)
  | MAlt a b => malt (der x a) (der x b)
  | MStar a => mseq (der x a) (MStar a)
  end.

(** No transition is left. *)
Fixpoint dead (m : machine) : bool :=
  match m with
  | MFail => true
  | MEps | MSym _ | MStar _ => false
  | MSeq a b => dead a || dead b
  | MAlt a b => dead a && dead b
  end.

(** ** The scanner's position in the stream *)

(** [pending] is [cur_char] followed by what [next_char] will deliver;
    [cur_pos], [cur_line] and [cur_line_start] are the fields of the same
    names. *)
Record input : Type := {
  pending : list sym;
  cur_pos : nat;
  cur_line : nat;
  cur_line_start : nat
}.

(** [Scanner.__init__]: at BOL of line 1, nothing read. *)
Definition open_input (content : string) : input :=
  {| pending := stream content; cur_pos := 0; cur_line := 1; cur_line_start := 0 |}.

Definition cur_char (i : input) : option sym := hd_error (pending i).

(** [Scanner.next_char]: a character of the stream moves [cur_pos] on, a
    newline also starts a new line. *)
Definition next_char (i : input) : input :=
  match pending i with
  | [] => i
  | Ch c :: rest =>
      if Ascii.eqb c nl
      then {| pending := rest; cur_pos := S (cur_pos i);
              cur_line := S (cur_line i); cur_line_start := S (cur_pos i) |}
      else {| pending := rest; cur_pos := S (cur_pos i);
              cur_line := cur_line i; cur_line_start := cur_line_start i |}
  | _ :: rest =>
      {| pending := rest; cur_pos := cur_pos i;
         cur_line := cur_line i; cur_line_start := cur_line_start i |}
  end.

Fixpoint advance_by (k : nat) (i : input) : input :=
  match k with
  | 0 => i
  | S k' => advance_by k' (next_char i)
  end.

(** The characters of the stream among the pseudo characters read. *)
Fixpoint chars_of (l : list sym) : string :=
  match l with
  | [] => EmptyString
  | Ch c :: r => String c (chars_of r)
  | _ :: r => chars_of r
  end.

(** ** The machine of a scanner state *)

Section Machine.

Variable action : Type.

(** One machine per pattern, in the order of the lexicon. *)
Definition rules : Type := list (machine * action).

(** [Lexicon]: every pattern is built with [match_bol = 1]. *)
Definition compile (tokens : list (RE * action)) : rules :=
  map (fun ra => (build (fst ra) true, snd ra)) tokens.

(** The action of the state: the first pattern that accepts here. *)
Definition accepting (rs : rules) : option action :=
  match find (fun ra => accepts_empty (fst ra)) rs with
  | Some ra => Some (snd ra)
  | None => None
  end.

Definition advance (x : sym) (rs : rules) : rules :=
  map (fun ra => (der x (fst ra), snd ra)) rs.

Definition blocked (rs : rules) : bool := forallb (fun ra => dead (fst ra)) rs.

(** [Scanner.run_machine_inlined].  [n] counts the pseudo characters read
    since the start of the token, [backup] is [backup_state]: the last
    accepting point passed, as the action found there and the count at that
    point.  The result is the backup at the point where the machine blocks,
    and the count at that point. *)
Fixpoint run_machine (rs : rules) (pend : list sym) (n : nat)
         (backup : option (action * nat)) : option (action * nat) * nat :=
  let backup' :=
    match accepting rs with
    | Some a => Some (a, n)
    | None => backup
    end in
  match pend with
  | [] => (backup', n)
  | x :: rest =>
      let rs' := advance x rs in
      if blocked rs' then (backup', n)
      else run_machine rs' rest (S n) backup'
  end.

End Machine.

Arguments compile {action} tokens.
Arguments accepting {action} rs.
Arguments advance {action} x rs.
Arguments blocked {action} rs.
Arguments run_machine {action} rs pend n backup.

(** ** The language of a machine (used to reason about matches) *)

(** The machine after reading a whole word. *)
Definition ders (w : list sym) (m : machine) : machine :=
  fold_left (fun m x => der x m) w m.

Inductive lang : machine -> list sym -> Prop :=
| lang_eps : lang MEps []
| lang_sym : forall (p : sym -> bool) x, p x = true -> lang (MSym p) [x]
| lang_seq : forall a b u v, lang a u -> lang b v -> lang (MSeq a b) (u ++ v)
| lang_alt_l : forall a b u, lang a u -> lang (MAlt a b) u
| lang_alt_r : forall a b u, lang b u -> lang (MAlt a b) u
| lang_star_nil : forall a, lang (MStar a) []
| lang_star_cons : forall a u v, lang a u -> lang (MStar a) v -> lang (MStar a) (u ++ v).

(** The rules after reading a whole word. *)
Definition advances {action : Type} (w : list sym) (rs : rules action) : rules action :=
  fold_left (fun rs x => advance x rs) w rs.

(** An upper bound on the length of the words a machine accepts, when
    there is one. *)
Fixpoint bound (m : machine) : option nat :=
  match m with
  | MFail | MEps => Some 0
  | MSym _ => Some 1
  | MSeq a b =>
      match bound a, bound b with
      | Some x, Some y => Some (x + y)
      | _, _ => None
      end
  | MAlt a b =>
      match bound a, bound b with
      | Some x, Some y => Some (Nat.max x y)
      | _, _ => None
      end
  | MStar _ => None
  end.

End Plex.

(* ===================================================================== *)
(** * Tok: source locations, tokens, diagnostics, exceptions             *)
(* ===================================================================== *)

Module Tok.

(** [class SourceLocation]; [filename] is [None] when the scanner has no
    name. *)
Record SourceLocation : Type := {
  filename : option string;
  line : nat;
  column : nat
}.

(** [class SourceRange]. *)
Record SourceRange : Type := {
  start : SourceLocation;
  end_ : SourceLocation
}.

(** Modelled from the spec: the diagnostics of [dsl/diagnostics.py], which
    is not among the sources.  Section 6 of the specification lists the
    kinds the scanner builds, [InvalidCharacter(location)],
    [InvalidIndentation(location)] and
    [UnexpectedToken(wanted_token, got_token)], as payloads without
    behaviour of their own.  They are declared together with [class Token]
    and with the values a token's [value] field holds ([None], a text, the
    width of an INDENT, or a diagnostic), because an [UnexpectedToken]
    holds tokens and an ERROR token holds a diagnostic. *)
Inductive pyvalue : Type :=
| VNone
| VStr (s : string)
| VInt (n : nat)
| VDiag (d : diagnostic)
with Token : Type :=
| mkToken (type : option string) (value : pyvalue) (source_range : option SourceRange)
with diagnostic : Type :=
| InvalidCharacter (location : SourceLocation)
| InvalidIndentation (location : SourceLocation)
| UnexpectedToken (wanted_token got_token : Token).

Definition type (t : Token) : option string := let (ty, _, _) := t in ty.
Definition value (t : Token) : pyvalue := let (_, v, _) := t in v.
Definition source_range (t : Token) : option SourceRange := let (_, _, r) := t in r.

(** [plex.Scanner.position()]: name, line (from 1), column (from 0). *)
Definition position : Type := (option string * nat * nat)%type.

(** The exceptions the scanner code can raise. *)
Inductive exn : Type :=
| UnrecognizedInput                       (* plex.errors.UnrecognizedInput *)
| IndentationError (raw_position : position)  (* the class at the end of scanner.py *)
| IndexError                              (* [-1] on an empty sequence *)
| NameError (name : string)               (* an undefined name is read *)
| TypeError                               (* len() of a value without a length *)
| Raised (v : pyvalue).                   (* raise <object> *)

(** The outcome of a call: a result, an exception, or (for the loops run
    on fuel) no answer within the fuel. *)
Inductive result (A : Type) : Type :=
| Ok (a : A)
| Raise (e : exn)
| NoFuel.

Arguments Ok {A} a.
Arguments Raise {A} e.
Arguments NoFuel {A}.

(** [==] on a token type ([None] or a string). *)
Definition type_eqb (a b : option string) : bool :=
  match a, b with
  | None, None => true
  | Some x, Some y => String.eqb x y
  | _, _ => false
  end.

(** [token.type == name]. *)
Definition type_is (t : Token) (name : string) : bool := type_eqb (type t) (Some name).

(** [Token.display_name]: the last branch reads [token], a name that is
    bound nowhere. *)
Definition display_name (self : Token) : result string :=
  let token_type := type self in
  if type_eqb token_type (Some "NEWLINE") then Ok "newline"
  else if type_eqb token_type (Some "INDENT") then Ok "indent"
  else if type_eqb token_type (Some "OUTDENT") then Ok "outdent"
  else if type_eqb token_type (Some "EOF") then Ok "end of file"
  else Raise (NameError "token").

(** ** [Token.__eq__] *)

(** What [other] can be: a tuple of values, a token, or anything else. *)
Inductive pyobject : Type :=
| PyTuple (items : list pyvalue)
| PyToken (t : Token)
| PyOther.

(** A token type as a value: [None] or a string. *)
Definition type_value (ty : option string) : pyvalue :=
  match ty with
  | Some s => VStr s
  | None => VNone
  end.

Section Equality.

(** [==] on two diagnostics: it is defined (or inherited) in
    [dsl/diagnostics.py], which is not among the sources, so it is a
    parameter here. *)
Variable diag_eq : diagnostic -> diagnostic -> bool.

(** [==] on values. *)
Definition value_eq (a b : pyvalue) : bool :=
  match a, b with
  | VNone, VNone => true
  | VStr x, VStr y => String.eqb x y
  | VInt x, VInt y => Nat.eqb x y
  | VDiag x, VDiag y => diag_eq x y
  | _, _ => false
  end.

(** [==] on tuples: the same length and equal items. *)
Fixpoint tuple_eq (a b : list pyvalue) : bool :=
  match a, b with
  | [], [] => true
  | x :: a', y :: b' => value_eq x y && tuple_eq a' b'
  | _, _ => false
  end.

(** [Token.__eq__(self, other)]. *)
Definition Token_eq (self : Token) (other : pyobject) : bool :=
  match other with
  | PyTuple items => tuple_eq [type_value (type self); value self] items
  | PyToken o =>
      tuple_eq [type_value (type self); value self] [type_value (type o); value o]
  | PyOther => false
  end.

End Equality.

End Tok.

(* ===================================================================== *)
(** * Raw: class RawScanner                                              *)
(* ===================================================================== *)

Module Raw.

Import Plex Tok.

Local Open Scope nat_scope.
Local Open Scope re_scope.

(** The scanner states of the lexicon: the default state [''] and
    ['indent']. *)
Inductive lexstate : Type := Default | Indent.

(** What [read()] returns: the pair (value, text). *)
Definition raw_token : Type := (option string * pyvalue)%type.

(** The fields of [plex.Scanner] that the code reads or writes, followed by
    those [RawScanner.__init__] adds ([seen_one_indent] is set once and
    never read: it is left out). *)
Record RawScanner : Type := {
  name : option string;
  inp : input;
  start_pos : nat;
  start_line : nat;
  start_col : nat;
  text : string;
  state_name : lexstate;
  queue : list raw_token;
  indents : list nat;
  bracket_count : nat;
  min_bracket_count : nat
}.

Definition set_inp (i : input) (s : RawScanner) : RawScanner :=
  {| name := name s; inp := i; start_pos := start_pos s; start_line := start_line s;
     start_col := start_col s; text := text s; state_name := state_name s;
     queue := queue s; indents := indents s; bracket_count := bracket_count s;
     min_bracket_count := min_bracket_count s |}.

Definition set_start (p l c : nat) (s : RawScanner) : RawScanner :=
  {| name := name s; inp := inp s; start_pos := p; start_line := l;
     start_col := c; text := text s; state_name := state_name s;
     queue := queue s; indents := indents s; bracket_count := bracket_count s;
     min_bracket_count := min_bracket_count s |}.

Definition set_text (t : string) (s : RawScanner) : RawScanner :=
  {| name := name s; inp := inp s; start_pos := start_pos s; start_line := start_line s;
     start_col := start_col s; text := t; state_name := state_name s;
     queue := queue s; indents := indents s; bracket_count := bracket_count s;
     min_bracket_count := min_bracket_count s |}.

Definition set_queue (q : list raw_token) (s : RawScanner) : RawScanner :=
  {| name := name s; inp := inp s; start_pos := start_pos s; start_line := start_line s;
     start_col := start_col s; text := text s; state_name := state_name s;
     queue := q; indents := indents s; bracket_count := bracket_count s;
     min_bracket_count := min_bracket_count s |}.

Definition set_indents (l : list nat) (s : RawScanner) : RawScanner :=
  {| name := name s; inp := inp s; start_pos := start_pos s; start_line := start_line s;
     start_col := start_col s; text := text s; state_name := state_name s;
     queue := queue s; indents := l; bracket_count := bracket_count s;
     min_bracket_count := min_bracket_count s |}.

Definition set_bracket_count (n : nat) (s : RawScanner) : RawScanner :=
  {| name := name s; inp := inp s; start_pos := start_pos s; start_line := start_line s;
     start_col := start_col s; text := text s; state_name := state_name s;
     queue := queue s; indents := indents s; bracket_count := n;
     min_bracket_count := min_bracket_count s |}.

(** [Scanner.begin(state_name)]. *)
Definition begin (st : lexstate) (s : RawScanner) : RawScanner :=
  {| name := name s; inp := inp s; start_pos := start_pos s; start_line := start_line s;
     start_col := start_col s; text := text s; state_name := st;
     queue := queue s; indents := indents s; bracket_count := bracket_count s;
     min_bracket_count := min_bracket_count s |}.

(** [Scanner.produce(value, text=None)]: the pair joins the queue; without
    a text, the text of the token last scanned is used. *)
Definition produce (v : option string) (txt : option pyvalue) (s : RawScanner) : RawScanner :=
  set_queue (queue s ++ [(v, match txt with Some t => t | None => VStr (text s) end)]) s.

(** [Scanner.position()]. *)
Definition position (s : RawScanner) : Tok.position :=
  (name s, start_line s, start_col s).

(** [l[-1]]. *)
Fixpoint top (l : list nat) : option nat :=
  match l with
  | [] => None
  | [x] => Some x
  | _ :: r => top r
  end.

Definition NL : string := String nl EmptyString.

(** ** The handlers *)

(** A handler returns the value to produce ([None]: nothing) or raises. *)
Definition handled : Type := (RawScanner * result (option string))%type.

Definition handle_newline (self : RawScanner) (text : string) : handled :=
  if bracket_count self =? 0
  then (begin Indent self, Ok (Some "NEWLINE"))
  else (self, Ok None).

(** [while new_level < self.indents[-1]: pop, produce OUTDENT].  Every
    round pops one level, so the rounds are counted by [fuel]; on an empty
    stack [self.indents[-1]] raises. *)
Fixpoint outdent_loop (fuel : nat) (new_level : nat) (self : RawScanner)
  : RawScanner * result unit :=
  match top (indents self) with
  | None => (self, Raise IndexError)
  | Some t =>
      if new_level <? t then
        match fuel with
        | 0 => (self, NoFuel)
        | S fuel' =>
            outdent_loop fuel' new_level
              (produce (Some "OUTDENT") (Some (VStr ""))
                 (set_indents (removelast (indents self)) self))
        end
      else (self, Ok tt)
  end.

Definition outdent_to (self : RawScanner) (new_level : nat) : RawScanner * result unit :=
  match outdent_loop (List.length (indents self)) new_level self with
  | (self', Ok _) =>
      match top (indents self') with
      | None => (self', Raise IndexError)
      | Some t =>
          if negb (t =? new_level)
          then (self', Raise (IndentationError (position self')))
          else (self', Ok tt)
      end
  | r => r
  end.

Definition handle_indentation (self : RawScanner) (text : string) : handled :=
  match top (indents self) with
  | None => (self, Raise IndexError)
  | Some current_level =>
      let new_level := String.length text in
      if (0 <? new_level) && (match last_char text with
                              | Some c => Ascii.eqb c nl
                              | None => false
                              end)
      then (* Blank line, so skip. *)
        (produce (Some "NEWLINE") (Some (VStr NL)) self, Ok None)
      else if current_level <? new_level then
        let self1 := set_indents (indents self ++ [new_level]) self in
        let indent_change := new_level - current_level in
        (begin Default (produce (Some "INDENT") (Some (VInt indent_change)) self1), Ok None)
      else if new_level <? current_level then
        match outdent_to self new_level with
        | (self1, Ok _) => (begin Default self1, Ok None)
        | (self1, Raise e) => (self1, Raise e)
        | (self1, NoFuel) => (self1, NoFuel)
        end
      else (begin Default self, Ok None)
  end.

Definition handle_comment (self : RawScanner) (text : string) : handled :=
  match last_char text with
  | None => (self, Raise IndexError)
  | Some _ =>
      (* just treat comments like a funny sort of newline *)
      if bracket_count self =? 0
      then (produce (Some "NEWLINE") (Some (VStr NL)) (begin Indent self), Ok None)
      else (self, Ok None)
  end.

Definition handle_open_bracket (self : RawScanner) (text : string) : handled :=
  (set_bracket_count (bracket_count self + 1) self, Ok (Some text)).

Definition handle_close_bracket (self : RawScanner) (text : string) : handled :=
  if min_bracket_count self <? bracket_count self
  then (set_bracket_count (bracket_count self - 1) self, Ok (Some text))
  else (self, Ok (Some text)).

(** [RawScanner.eof]. *)
Definition eof (self : RawScanner) : RawScanner * result unit :=
  if bracket_count self =? 0 then
    match outdent_to (produce (Some "NEWLINE") (Some (VStr NL)) self) 0 with
    | (self1, Ok _) => (produce (Some "EOF") None self1, Ok tt)
    | r => r
    end
  else (produce (Some "EOF") None self, Ok tt).

(** ** The lexicon *)

(** What the lexicon attaches to a pattern: a value to return, a handler to
    call, [TEXT] or [IGNORE]. *)
Inductive action : Type :=
| Return (v : string)
| Call (f : RawScanner -> string -> handled)
| TEXT
| IGNORE.

Definition dquote : string := String "034"%char EmptyString.

Definition digit : RE := Range "09".
Definition letter : RE := Range "azAZ".

Definition decimal_or_octal_number : RE :=
  (Rep1 digit :+: Opt (Str "." :+: Rep1 digit))
  :+: Opt (Str "E" :+: Any "+-" :+: Rep1 digit).

Definition hex_number : RE := Str "0x" :+: Rep1 (Range "09azAZ").

Definition binary_number : RE := Str "0b" :+: Rep1 digit.

Definition string_literal : RE :=
  Str dquote
  :+: Rep ((Str "\" :+: Any ("abcdefghijklmnopqrstuvwxyz\" ++ dquote)%string)
           :|: AnyBut ("\" ++ dquote)%string)
  :+: Str dquote.

Definition ident : RE :=
  (letter :|: Str "_") :+: Rep (letter :|: Str "_" :|: digit).

Definition punct : RE :=
  Any "|&^=<>*/%~+-:,." :|: Str "==" :|: Str "!=" :|: Str "<=" :|: Str ">="
  :|: Str "<<" :|: Str ">>" :|: Str "+/-".

(** The tokens of the default state, in the order of the lexicon. *)
Definition default_tokens : list (RE * action) :=
  [ (decimal_or_octal_number :|: hex_number :|: binary_number, Return "NUMBER");
    (string_literal, Return "STRINGLIT");
    (ident, Return "IDENT");
    (Any "({[", Call handle_open_bracket);
    (Any ")}]", Call handle_close_bracket);
    (Str NL :|: Eof, Call handle_newline);
    (punct, TEXT);
    (Rep1 (Str " "), IGNORE);
    (Str "#" :+: Rep (AnyBut NL) :+: Opt (Str NL), Call handle_comment) ].

(** The tokens of [State('indent', ...)]. *)
Definition indent_tokens : list (RE * action) :=
  [ (Rep (Str " ") :+: Opt (Str NL), Call handle_indentation) ].

(** [Lexicon.get_initial_state(state_name)]: the machine of a state runs
    the patterns of that state. *)
Definition tokens (st : lexstate) : list (RE * action) :=
  match st with
  | Default => default_tokens
  | Indent => indent_tokens
  end.

Definition lexicon (st : lexstate) : rules action := compile (tokens st).

(** [RawScanner.__init__(stream, name, expression_only)]. *)
Definition init (content : string) (name : option string) (expression_only : bool)
  : RawScanner :=
  let bc := if expression_only then 1 else 0 in
  {| name := name; inp := open_input content;
     start_pos := 0; start_line := 0; start_col := 0; text := "";
     state_name := if expression_only then Default else Indent;
     queue := [];
     indents := [0];
     bracket_count := bc;
     min_bracket_count := bc |}.

(** ** Scanning *)

(** [Action.perform(scanner, text)]. *)
Definition perform (a : action) (self : RawScanner) (text : string) : handled :=
  match a with
  | Return v => (self, Ok (Some v))
  | Call f => f self text
  | TEXT => (self, Ok (Some text))
  | IGNORE => (self, Ok None)
  end.

(** [Scanner.scan_a_token]: the text and the action of the next match;
    [None] as action at the end of the file. *)
Definition scan_a_token (self : RawScanner)
  : RawScanner * result (string * option action) :=
  let i := inp self in
  let self0 := set_start (cur_pos i) (cur_line i) (cur_pos i - cur_line_start i) self in
  match run_machine (lexicon (state_name self)) (pending i) 0 None with
  | (Some (a, k), _) =>
      (set_inp (advance_by k i) self0, Ok (chars_of (firstn k (pending i)), Some a))
  | (None, j) =>
      let i1 := advance_by j i in
      if cur_pos i1 =? cur_pos i then
        let i2 := match cur_char i1 with Some EOL => next_char i1 | _ => i1 end in
        match cur_char i2 with
        | None | Some EOF => (set_inp i2 self0, Ok ("", None))
        | _ => (set_inp i2 self0, Raise UnrecognizedInput)
        end
      else (set_inp i1 self0, Raise UnrecognizedInput)
  end.

(** One round of the loop of [Scanner.read]: scan, then perform the action
    (or, at the end of the file, produce the [None] token and call
    [eof()]). *)
Definition scan_step (self : RawScanner) : RawScanner * result unit :=
  match scan_a_token self with
  | (self1, Ok (txt, act)) =>
      let self2 := set_text txt self1 in
      match act with
      | None => eof (produce None None self2)
      | Some a =>
          match perform a self2 txt with
          | (self3, Ok (Some v)) => (produce (Some v) None self3, Ok tt)
          | (self3, Ok None) => (self3, Ok tt)
          | (self3, Raise e) => (self3, Raise e)
          | (self3, NoFuel) => (self3, NoFuel)
          end
      end
  | (self1, Raise e) => (self1, Raise e)
  | (self1, NoFuel) => (self1, NoFuel)
  end.

(** [Scanner.read]: scan until the queue is not empty, then take its first
    element. *)
Fixpoint read_loop (fuel : nat) (self : RawScanner) : RawScanner * result raw_token :=
  match queue self with
  | t :: q => (set_queue q self, Ok t)
  | [] =>
      match fuel with
      | 0 => (self, NoFuel)
      | S fuel' =>
          match scan_step self with
          | (self1, Ok _) => read_loop fuel' self1
          | (self1, Raise e) => (self1, Raise e)
          | (self1, NoFuel) => (self1, NoFuel)
          end
      end
  end.

(** A round that produces nothing either leaves the 'indent' state or reads
    input, so this many rounds are enough (see [read_answers]). *)
Definition rounds (self : RawScanner) : nat :=
  2 * List.length (pending (inp self)) + 3.

Definition read (self : RawScanner) : RawScanner * result raw_token :=
  read_loop (rounds self) self.

(** ** Properties of scanner states *)

(** The indentation stack has 0 at the bottom and is strictly ascending
    from the bottom to the top (so it is not empty). *)
Definition stack_ok (l : list nat) : Prop :=
  (exists r, l = 0 :: r) /\ StronglySorted lt l.

(** The number of tokens of a type in a sequence of raw tokens. *)
Definition count_type (ty : string) (q : list raw_token) : nat :=
  List.length (filter (fun t => type_eqb (fst t) (Some ty)) q).

(** The points of a scan that starts in [s0]: a state of the scanner
    together with the tokens [read()] has returned so far.  A scan moves on
    by a round of the loop of [read] (when the queue is empty, whatever the
    outcome of the round) or by [read] taking the first token of the
    queue. *)
Inductive scan_from (s0 : RawScanner) : RawScanner -> list raw_token -> Prop :=
| scan_start : scan_from s0 s0 []
| scan_round : forall s out s' r,
    scan_from s0 s out -> queue s = [] -> scan_step s = (s', r) ->
    scan_from s0 s' out
| scan_take : forall s out t q,
    scan_from s0 s out -> queue s = t :: q ->
    scan_from s0 (set_queue q s) (out ++ [t]).

(** The token types of the lexicon that are not the text of the token. *)
Definition named_types : list string :=
  ["NUMBER"; "STRINGLIT"; "IDENT"; "NEWLINE"; "INDENT"; "OUTDENT"; "EOF"].

(** The type of a raw token is [None], one of the named types, or the text
    of a bracket or punctuation token. *)
Definition raw_type_ok (ty : option string) : Prop :=
  match ty with
  | None => True
  | Some s => In s named_types \/ String.length s <= 4
  end.

(** The rules of the default state when only the pattern number [i] is
    still alive, in the state [m]. *)
Fixpoint solo_from (j i : nat) (m : machine) (l : list (RE * action)) : rules action :=
  match l with
  | [] => []
  | ra :: r => (if j =? i then m else MFail, snd ra) :: solo_from (S j) i m r
  end.

Definition solo (i : nat) (m : machine) : rules action :=
  solo_from 0 i m default_tokens.

(** The token [outdent_to] produces for a popped level. *)
Definition outdent_token : raw_token := (Some "OUTDENT", VStr "").

(** [grows s s']: from [s] to [s'] tokens were only added to the queue,
    their types are those of the lexicon, and the INDENT and OUTDENT tokens
    among them account for the change of the stack's depth. *)
Definition grows (s s' : RawScanner) : Prop :=
  exists new,
    queue s' = queue s ++ new /\
    Forall (fun t => raw_type_ok (fst t)) new /\
    count_type "INDENT" new + List.length (indents s)
    = count_type "OUTDENT" new + List.length (indents s').

(** What a call leaves behind: the stack stays well formed, the queue
    only grows (with the INDENT and OUTDENT tokens accounted for), the
    input position is not touched, and a value handed back for [produce]
    satisfies [P]. *)
Definition kept_by (s s' : RawScanner) (r : result (option string))
           (P : string -> Prop) : Prop :=
  stack_ok (indents s') /\ grows s s' /\ r <> NoFuel /\
  inp s' = inp s /\ name s' = name s /\
  min_bracket_count s' = min_bracket_count s /\
  (forall v, r = Ok (Some v) -> P v).

(** Every handler of the lexicon hands back NEWLINE or the text of the
    token, if anything. *)
Definition handler_ok (f : RawScanner -> string -> handled) : Prop :=
  forall s txt s' r,
    stack_ok (indents s) -> f s txt = (s', r) ->
    kept_by s s' r (fun v => v = "NEWLINE" \/ v = txt).

(** A token type that is neither INDENT, OUTDENT nor ERROR. *)
Definition plain_type (v : string) : Prop :=
  raw_type_ok (Some v) /\ v <> "INDENT" /\ v <> "OUTDENT" /\ v <> "ERROR".

(** The measure that falls with every round of [read] that produces
    nothing. *)
Definition measure (s : RawScanner) : nat :=
  2 * List.length (pending (inp s))
  + match state_name s with Indent => 1 | Default => 0 end.

End Raw.

(* ===================================================================== *)
(** * Look: class Scanner                                                *)
(* ===================================================================== *)

Module Look.

Import Tok.

Local Open Scope nat_scope.

Record Scanner : Type := {
  raw_scanner : Raw.RawScanner;
  peeked : option Token;
  peeking : bool;
  last_token : Token;
  force_eof : bool
}.

Definition begin_location (name : option string) : SourceLocation :=
  {| filename := name; line := 1; column := 1 |}.

(** [Scanner.__init__(stream, name, expression_only)]. *)
Definition init (content : string) (name : option string) (expression_only : bool)
  : Scanner :=
  {| raw_scanner := Raw.init content name expression_only;
     peeked := None;
     peeking := false;
     (* Last token position starts off referring to the beginning of the
        file, so we'll still get a sensible result if we never read any
        tokens. *)
     last_token := mkToken (Some "BEGIN") VNone
                     (Some {| start := begin_location name; end_ := begin_location name |});
     force_eof := false |}.

(** The location a raw position denotes: columns count from 1. *)
Definition location_at (raw_position : position) : SourceLocation :=
  let '(f, l, c) := raw_position in
  {| filename := f; line := l; column := c + 1 |}.

(** [len(raw_peeked[1])]. *)
Definition len (v : pyvalue) : result nat :=
  match v with
  | VStr s => Ok (String.length s)
  | _ => Raise TypeError
  end.

Definition is_structural (ty : option string) : bool :=
  type_eqb ty (Some "NEWLINE") || type_eqb ty (Some "INDENT") || type_eqb ty (Some "OUTDENT").

(** The first statements of the [try] block: read a raw token, and read
    once more when it is Plex's own end-of-file token (type [None]). *)
Definition fetch (raw : Raw.RawScanner) : Raw.RawScanner * result Raw.raw_token :=
  match Raw.read raw with
  | (raw1, Ok (None, _)) => Raw.read raw1
  | r => r
  end.

(** The rest of the [try] block: the token built from a raw token. *)
Definition convert (raw : Raw.RawScanner) (raw_peeked : Raw.raw_token) : result Token :=
  let raw_position := Raw.position raw in
  let '(f, l, c) := raw_position in
  match (if is_structural (fst raw_peeked) then Ok 0 else len (snd raw_peeked)) with
  | Ok token_length =>
      Ok (mkToken (fst raw_peeked) (snd raw_peeked)
            (Some {| start := {| filename := f; line := l; column := c + 1 |};
                     end_ := {| filename := f; line := l;
                                column := c + token_length + 1 |} |}))
  | Raise e => Raise e
  | NoFuel => NoFuel
  end.

Definition error_token (d : diagnostic) : Token := mkToken (Some "ERROR") (VDiag d) None.

(** [Scanner.peek]. *)
Definition peek (self : Scanner) : Scanner * result Token :=
  match peeked self with
  | Some t => (self, Ok t)
  | None =>
      if force_eof self then
        let t := mkToken (Some "EOF") VNone (source_range (last_token self)) in
        ({| raw_scanner := raw_scanner self; peeked := Some t; peeking := true;
            last_token := last_token self; force_eof := force_eof self |}, Ok t)
      else
        let done raw (p : option Token) (fe : bool) :=
          {| raw_scanner := raw; peeked := p; peeking := false;
             last_token := last_token self; force_eof := fe |} in
        match fetch (raw_scanner self) with
        | (raw, Ok raw_peeked) =>
            match convert raw raw_peeked with
            | Ok t => (done raw (Some t) false, Ok t)
            | Raise e => (done raw None false, Raise e)
            | NoFuel => (done raw None false, NoFuel)
            end
        | (raw, Raise UnrecognizedInput) =>
            (* raw_position = self.raw_position: peeking is set, so this is
               raw_scanner.position() *)
            let t := error_token (InvalidCharacter (location_at (Raw.position raw))) in
            (done raw (Some t) true, Ok t)
        | (raw, Raise (IndentationError raw_position)) =>
            let t := error_token (InvalidIndentation (location_at raw_position)) in
            (done raw (Some t) true, Ok t)
        | (raw, Raise e) => (done raw None false, Raise e)
        | (raw, NoFuel) => (done raw None false, NoFuel)
        end
  end.

(** [Scanner.read]. *)
Definition read (self : Scanner) : Scanner * result Token :=
  match peek self with
  | (self1, Ok res) =>
      ({| raw_scanner := raw_scanner self1; peeked := None; peeking := peeking self1;
          last_token := res; force_eof := force_eof self1 |}, Ok res)
  | r => r
  end.

(** [token[1] == text] for a text: only a string value can be equal. *)
Definition value_is (v : pyvalue) (text : string) : bool :=
  match v with
  | VStr s => String.eqb s text
  | _ => false
  end.

(** A check on the peeked token. *)
Definition on_peek (test : Token -> bool) (self : Scanner) : Scanner * result bool :=
  match peek self with
  | (self1, Ok token) => (self1, Ok (test token))
  | (self1, Raise e) => (self1, Raise e)
  | (self1, NoFuel) => (self1, NoFuel)
  end.

Definition next_is_punct (symbol : string) : Scanner -> Scanner * result bool :=
  on_peek (fun token => type_is token symbol && value_is (value token) symbol).

Definition next_is_keyword (name : string) : Scanner -> Scanner * result bool :=
  on_peek (fun token => type_is token "IDENT" && value_is (value token) name).

Definition next_is_newline : Scanner -> Scanner * result bool :=
  on_peek (fun token => type_is token "NEWLINE").

Definition next_is_indent : Scanner -> Scanner * result bool :=
  on_peek (fun token => type_is token "INDENT").

Definition next_is_outdent : Scanner -> Scanner * result bool :=
  on_peek (fun token => type_is token "OUTDENT").

Definition next_is_eof : Scanner -> Scanner * result bool :=
  on_peek (fun token => type_is token "EOF").

Definition next_is_error : Scanner -> Scanner * result bool :=
  on_peek (fun token => type_is token "ERROR").

(** [Scanner.raise_if_next_is_error]. *)
Definition raise_if_next_is_error (self : Scanner) : Scanner * result unit :=
  match next_is_error self with
  | (self1, Ok true) =>
      match peek self1 with
      | (self2, Ok token) => (self2, Raise (Raised (value token)))
      | (self2, Raise e) => (self2, Raise e)
      | (self2, NoFuel) => (self2, NoFuel)
      end
  | (self1, Ok false) => (self1, Ok tt)
  | (self1, Raise e) => (self1, Raise e)
  | (self1, NoFuel) => (self1, NoFuel)
  end.

(** The body the six [require_*] methods share:
    [if not self.next_is_X(): self.raise_if_next_is_error();
     raise diag.UnexpectedToken(wanted_token=..., got_token=self.peek())]
    and then [return self.read()]. *)
Definition require (next_is : Scanner -> Scanner * result bool) (wanted_token : Token)
           (self : Scanner) : Scanner * result Token :=
  match next_is self with
  | (self1, Ok true) => read self1
  | (self1, Ok false) =>
      match raise_if_next_is_error self1 with
      | (self2, Ok _) =>
          match peek self2 with
          | (self3, Ok got_token) =>
              (self3, Raise (Raised (VDiag (UnexpectedToken wanted_token got_token))))
          | (self3, Raise e) => (self3, Raise e)
          | (self3, NoFuel) => (self3, NoFuel)
          end
      | (self2, Raise e) => (self2, Raise e)
      | (self2, NoFuel) => (self2, NoFuel)
      end
  | (self1, Raise e) => (self1, Raise e)
  | (self1, NoFuel) => (self1, NoFuel)
  end.

Definition require_punct (symbol : string) : Scanner -> Scanner * result Token :=
  require (next_is_punct symbol) (mkToken (Some "PUNCT") (VStr symbol) None).

Definition require_keyword (name : string) : Scanner -> Scanner * result Token :=
  require (next_is_keyword name) (mkToken (Some "IDENT") (VStr name) None).

Definition require_indent : Scanner -> Scanner * result Token :=
  require next_is_indent (mkToken (Some "INDENT") (VInt 4) None).

Definition require_outdent : Scanner -> Scanner * result Token :=
  require next_is_outdent (mkToken (Some "OUTDENT") (VInt 4) None).

Definition require_newline : Scanner -> Scanner * result Token :=
  require next_is_newline (mkToken (Some "NEWLINE") (VStr Raw.NL) None).

Definition require_eof : Scanner -> Scanner * result Token :=
  require next_is_eof (mkToken (Some "EOF") VNone None).

(** Repeated [read()] calls, up to and including the first EOF token (at
    most [n] of them). *)
Fixpoint read_until_eof (n : nat) (self : Scanner) : list Token :=
  match n with
  | 0 => []
  | S n' =>
      match read self with
      | (self1, Ok t) => if type_is t "EOF" then [t] else t :: read_until_eof n' self1
      | _ => []
      end
  end.

(** ** Sequences of calls and the states they reach *)

Inductive op : Type := Peek | Read.

Definition run_op (o : op) (self : Scanner) : Scanner * result Token :=
  match o with
  | Peek => peek self
  | Read => read self
  end.

(** The outcomes of a sequence of [peek()] and [read()] calls. *)
Fixpoint run_ops (ops : list op) (self : Scanner) : Scanner * list (result Token) :=
  match ops with
  | [] => (self, [])
  | o :: rest =>
      let (self1, x) := run_op o self in
      let (self2, xs) := run_ops rest self1 in
      (self2, x :: xs)
  end.

(** The states of a scanner: a fresh one, and what [peek()] and [read()]
    make of it (the [next_is_*] and [require_*] methods change the state
    through these two only). *)
Inductive reachable : Scanner -> Prop :=
| reach_init : forall content name expression_only,
    reachable (init content name expression_only)
| reach_op : forall self o, reachable self -> reachable (fst (run_op o self)).

(** The six [require_*] methods, and for each the check it makes and the
    token it reports as wanted. *)
Inductive requirement : Type :=
| Punct (symbol : string)
| Keyword (name : string)
| AnIndent
| AnOutdent
| ANewline
| TheEof.

Definition require_ (q : requirement) : Scanner -> Scanner * result Token :=
  match q with
  | Punct symbol => require_punct symbol
  | Keyword name => require_keyword name
  | AnIndent => require_indent
  | AnOutdent => require_outdent
  | ANewline => require_newline
  | TheEof => require_eof
  end.

Definition next_is (q : requirement) : Scanner -> Scanner * result bool :=
  match q with
  | Punct symbol => next_is_punct symbol
  | Keyword name => next_is_keyword name
  | AnIndent => next_is_indent
  | AnOutdent => next_is_outdent
  | ANewline => next_is_newline
  | TheEof => next_is_eof
  end.

Definition wanted (q : requirement) : Token :=
  match q with
  | Punct symbol => mkToken (Some "PUNCT") (VStr symbol) None
  | Keyword name => mkToken (Some "IDENT") (VStr name) None
  | AnIndent => mkToken (Some "INDENT") (VInt 4) None
  | AnOutdent => mkToken (Some "OUTDENT") (VInt 4) None
  | ANewline => mkToken (Some "NEWLINE") (VStr Raw.NL) None
  | TheEof => mkToken (Some "EOF") VNone None
  end.

(** The diagnostics of the lexer. *)
Definition lexical (v : pyvalue) : Prop :=
  exists location,
    v = VDiag (InvalidCharacter location) \/ v = VDiag (InvalidIndentation location).

(** The type and the value of a token, which is what [Token.__eq__]
    compares. *)
Definition type_and_value (t : Token) : option string * pyvalue := (type t, value t).

(** What holds in every reachable state (see [reachable_wf]): the raw
    scanner's stack and queue are in order; a peeked ERROR token comes with
    [force_eof] set and carries a lexical diagnostic; and once [force_eof]
    is set, the peeked token, or the last token when nothing is peeked, has
    no source range. *)
Definition wf (s : Scanner) : Prop :=
  Raw.stack_ok (Raw.indents (raw_scanner s)) /\
  Forall (fun t => Raw.raw_type_ok (fst t)) (Raw.queue (raw_scanner s)) /\
  (forall t, peeked s = Some t -> type t = Some "ERROR" ->
             force_eof s = true /\ lexical (value t)) /\
  (force_eof s = true ->
   match peeked s with
   | Some t => source_range t = None
   | None => source_range (last_token s) = None
   end).

(** Past the error: [force_eof] is set and what is peeked, if anything, is
    an EOF token. *)
Definition past_error (s : Scanner) : Prop :=
  force_eof s = true /\
  (peeked s = None \/ exists t, peeked s = Some t /\ type t = Some "EOF").

End Look.

(* ===================================================================== *)
(** * Lit: the shape of string literals                                  *)
(* ===================================================================== *)

Module Lit.

Import Plex Tok Raw.

Definition dq : ascii := "034"%char.
Definition bs : ascii := "\"%char.

(** A piece of the inside of a string literal: a backslash followed by a
    character, or a single character. *)
Inductive piece : Type :=
| Escape (c : ascii)
| Plain (c : ascii).

Definition piece_text (u : piece) : string :=
  match u with
  | Escape c => String bs (String c EmptyString)
  | Plain c => String c EmptyString
  end.

Fixpoint body_text (us : list piece) : string :=
  match us with
  | [] => EmptyString
  | u :: r => (piece_text u ++ body_text r)%string
  end.

(** The text of the literal: the pieces between two double quotes. *)
Definition literal (us : list piece) : string :=
  String dq (body_text us ++ dquote)%string.

(** The pieces as the specification describes them: a backslash followed
    by any character at all, or a character that is neither a backslash nor
    a double quote. *)
Definition claimed_piece (u : piece) : Prop :=
  match u with
  | Escape _ => True
  | Plain c => c <> bs /\ c <> dq
  end.

(** The characters [string_literal] allows after a backslash. *)
Definition escapes : string := ("abcdefghijklmnopqrstuvwxyz\" ++ dquote)%string.

(** The pieces as the pattern [string_literal] has them. *)
Definition accepted_piece (u : piece) : Prop :=
  match u with
  | Escape c => mem_chars escapes c = true
  | Plain c => c <> bs /\ c <> dq
  end.

(** The pseudo characters the scanner reads for a piece. *)
Definition piece_syms (u : piece) : list sym :=
  match u with
  | Escape c => [Ch bs; Ch c]
  | Plain c => if Ascii.eqb c nl then [EOL; Ch nl; BOL] else [Ch c]
  end.

Fixpoint body_syms (us : list piece) : list sym :=
  match us with
  | [] => []
  | u :: r => piece_syms u ++ body_syms r
  end.

(** The states the machine of [string_literal] goes through (see
    [literal_machine] and [literal_moves]). *)
Definition p_quote : sym -> bool := plain (Ascii.eqb dq).
Definition p_bs : sym -> bool := plain (Ascii.eqb bs).
Definition p_esc : sym -> bool := plain (mem_chars escapes).
Definition p_any : sym -> bool := plain (fun c => negb (mem_chars ("\" ++ dquote)%string c)).

(** One piece, without and with the optional BOL. *)
Definition X' : machine :=
  MAlt (MSeq (MSeq (MSym p_bs) MEps) (MAlt (MSym p_esc) MFail))
       (MAlt (MSym p_any) newline_m).
Definition X : machine := MSeq (MOpt (MSym is_bol)) X'.
Definition LOOP : machine := MStar X.
(** The closing quote, with and without the optional BOL. *)
Definition Q : machine := MSeq (MSeq (MOpt (MSym is_bol)) (MSym p_quote)) MEps.
Definition Q' : machine := MSeq (MSym p_quote) MEps.
(** After the opening quote; after a piece; after a backslash; after the
    EOL before a newline; after the BOL behind a newline. *)
Definition B0 : machine := MSeq (MAlt (MSeq X LOOP) MEps) Q.
Definition B1 : machine := MSeq LOOP Q.
Definition Besc : machine := MSeq (MSeq (MAlt (MSym p_esc) MFail) LOOP) Q.
Definition Beol : machine := MSeq (MSeq (MSym is_nl) LOOP) Q.
Definition Bbol : machine := MAlt (MSeq (MSeq X' LOOP) Q) Q'.

(** Between two pieces the machine is in one of three states. *)
Definition between (m : machine) : Prop := m = B0 \/ m = B1 \/ m = Bbol.

(** The text of a literal that goes wrong: the opening quote, pieces, then
    a backslash, the character [c] and whatever follows. *)
Definition broken (us : list piece) (c : ascii) (tail : string) : string :=
  String dq (body_text us ++ String bs (String c tail)).

End Lit.

(* ===================================================================== *)
(** * Inv: what the raw scanner keeps and how it can fail                *)
(* ===================================================================== *)

Module Inv.

Import Plex Tok Raw.

Local Open Scope nat_scope.

(** The second component of a raw token: the width (a positive number) for
    an INDENT token, a text for every other token. *)
Definition value_ok (t : raw_token) : Prop :=
  if type_eqb (fst t) (Some "INDENT")
  then exists n, snd t = VInt n /\ 0 < n
  else exists s, snd t = VStr s.

(** From [s] to [s'] the queue has only grown, by tokens that satisfy [P]. *)
Definition adds (P : raw_token -> Prop) (s s' : RawScanner) : Prop :=
  exists new, queue s' = queue s ++ new /\ Forall P new.

(** How a call of the raw scanner can end: normally, with plex's
    [UnrecognizedInput], or with [IndentationError] carrying the position
    the scanner is left at. *)
Definition lexer_outcome {A : Type} (s' : RawScanner) (r : result A) : Prop :=
  (exists a, r = Ok a) \/ r = Raise UnrecognizedInput
  \/ r = Raise (IndentationError (position s')).

(** The predicate matches characters of the stream only, none of the
    pseudo characters. *)
Definition only_chars (p : sym -> bool) : bool :=
  negb (p BOL) && negb (p EOL) && negb (p EOF).

(** A lower bound on the number of characters of the stream in a word the
    machine accepts. *)
Fixpoint least (m : machine) : nat :=
  match m with
  | MFail | MEps | MStar _ => 0
  | MSym p => if only_chars p then 1 else 0
  | MSeq a b => least a + least b
  | MAlt a b => Nat.min (least a) (least b)
  end.

(** In the stream of pseudo characters BOL stands only at the very start
    and right behind a newline character; [after_newline] says that the
    character read last was a newline (or that nothing was read yet). *)
Fixpoint bols_ok (after_newline : bool) (l : list sym) : Prop :=
  match l with
  | [] => True
  | BOL :: r => after_newline = true /\ bols_ok false r
  | Ch c :: r => bols_ok (Ascii.eqb c nl) r
  | _ :: r => bols_ok false r
  end.

(** The position in the stream is in step with the stream: right behind
    a newline, and at the start, [cur_pos] is [cur_line_start]. *)
Definition in_step (i : input) : Prop :=
  exists b, bols_ok b (pending i) /\ (b = true -> cur_pos i = cur_line_start i).

(** A token type other than the three structural ones of the lexer. *)
Definition not_structural (t : raw_token) : Prop :=
  fst t <> Some "NEWLINE" /\ fst t <> Some "INDENT" /\ fst t <> Some "OUTDENT".

End Inv.

(* ===================================================================== *)
(** * Src: source locations, ranges and the range builder                *)
(* ===================================================================== *)

Module Src.

Import Tok Look.

Local Open Scope nat_scope.

(** What a call of this part of the code can raise: one of the exceptions
    of [Tok.exn], or the [AttributeError] of reading an attribute the
    object does not have. *)
Inductive error : Type :=
| Builtin (e : exn)
| AttributeError (attribute : string).

Inductive outcome (A : Type) : Type :=
| Fine (a : A)
| Fails (e : error).

Arguments Fine {A} a.
Arguments Fails {A} e.

(** ** [SourceLocation.__eq__] and [SourceRange.__eq__] *)

(** The values the fields of a location hold: [None], a text or a
    (non-negative) number. *)
Inductive field : Type :=
| FNone
| FStr (s : string)
| FInt (n : nat).

(** [==] on such values. *)
Definition field_eq (a b : field) : bool :=
  match a, b with
  | FNone, FNone => true
  | FStr x, FStr y => String.eqb x y
  | FInt x, FInt y => Nat.eqb x y
  | _, _ => false
  end.

(** What [other] can be: [None], a tuple of field values, a location, or
    an object of one of the two other classes of the module (which have no
    attribute [filename]). *)
Inductive object : Type :=
| ONone
| OTuple (items : list field)
| OLocation (l : SourceLocation)
| ORange (r : SourceRange)
| OToken (t : Token).

Definition filename_field (l : SourceLocation) : field :=
  match filename l with
  | Some s => FStr s
  | None => FNone
  end.

(** The three attributes of a location, as [SourceLocation(...)] stores
    them. *)
Definition fields (l : SourceLocation) : field * field * field :=
  (filename_field l, FInt (line l), FInt (column l)).

(** The last statement of [SourceLocation.__eq__], on the attributes of
    [self] and of [other]. *)
Definition same_fields (a b : field * field * field) : bool :=
  let '(af, al, ac) := a in
  let '(bf, bl, bc) := b in
  field_eq af bf && field_eq al bl && field_eq ac bc.

(** [SourceLocation.__eq__(self, other)]: a tuple is turned into a
    location first, which takes exactly three items. *)
Definition SourceLocation_eq (self : SourceLocation) (other : object) : outcome bool :=
  match other with
  | ONone => Fine false
  | OTuple [f; l; c] => Fine (same_fields (fields self) (f, l, c))
  | OTuple _ => Fails (Builtin TypeError)
  | OLocation o => Fine (same_fields (fields self) (fields o))
  | ORange _ | OToken _ => Fails (AttributeError "filename")
  end.

(** [SourceRange.__eq__(self, other)]: [and] evaluates its second operand
    only when the first is true. *)
Definition SourceRange_eq (self : SourceRange) (other : object) : outcome bool :=
  match other with
  | ONone => Fine false
  | ORange o =>
      match SourceLocation_eq (start self) (OLocation (start o)) with
      | Fine true => SourceLocation_eq (end_ self) (OLocation (end_ o))
      | r => r
      end
  | OTuple _ | OLocation _ | OToken _ => Fails (AttributeError "start")
  end.

(** ** The properties of [Scanner] that give positions *)

(** [Scanner.raw_position]. *)
Definition raw_position (self : Scanner) : Scanner * result position :=
  if peeking self then (self, Ok (Raw.position (raw_scanner self)))
  else
    match peek self with
    | (self1, Ok _) => (self1, Ok (Raw.position (raw_scanner self1)))
    | (self1, Raise e) => (self1, Raise e)
    | (self1, NoFuel) => (self1, NoFuel)
    end.

(** [Scanner.location]. *)
Definition location (self : Scanner) : Scanner * result SourceLocation :=
  match raw_position self with
  | (self1, Ok position) => (self1, Ok (location_at position))
  | (self1, Raise e) => (self1, Raise e)
  | (self1, NoFuel) => (self1, NoFuel)
  end.

(** [Scanner.next_token_range]. *)
Definition next_token_range (self : Scanner) : Scanner * result (option SourceRange) :=
  match peek self with
  | (self1, Ok t) => (self1, Ok (source_range t))
  | (self1, Raise e) => (self1, Raise e)
  | (self1, NoFuel) => (self1, NoFuel)
  end.

(** [Scanner.last_token_range]. *)
Definition last_token_range (self : Scanner) : option SourceRange :=
  source_range (last_token self).

(** ** What the peeked token says about positions *)

(** The length [peek] gives a raw token: 0 for NEWLINE, INDENT and
    OUTDENT, the length of the text otherwise. *)
Definition token_length (t : Token) : option nat :=
  if is_structural (type t) then Some 0
  else match value t with
       | VStr s => Some (String.length s)
       | _ => None
       end.

(** The location [n] columns to the right. *)
Definition shift (n : nat) (l : SourceLocation) : SourceLocation :=
  {| filename := filename l; line := line l; column := column l + n |}.

(** The token [t] was made at the position the raw scanner [raw] is at: a
    token with a range starts there and ends [token_length] columns to the
    right; a token without a range is an ERROR token whose diagnostic
    carries that location, or the EOF token made after an error. *)
Definition placed (raw : Raw.RawScanner) (t : Token) : Prop :=
  let here := location_at (Raw.position raw) in
  match source_range t with
  | Some r =>
      type t <> Some "ERROR" /\
      exists n, token_length t = Some n /\
                r = {| start := here; end_ := shift n here |}
  | None =>
      (type t = Some "ERROR" /\
       (value t = VDiag (InvalidCharacter here) \/
        value t = VDiag (InvalidIndentation here))) \/
      (type t = Some "EOF" /\ value t = VNone)
  end.

(** What holds in every reachable state besides [Look.wf]: the queued raw
    tokens have values of the right kind, the peeked token was made at the
    raw scanner's position, and [peeking] stays set only after an error. *)
Definition settled (s : Scanner) : Prop :=
  Forall Inv.value_ok (Raw.queue (raw_scanner s)) /\
  (peeking s = true -> force_eof s = true) /\
  (forall t, peeked s = Some t -> placed (raw_scanner s) t).

(** ** [class SourceRangeBuilder] *)

Module Builder.

(** The [scanner] attribute of a builder is the scanner object itself, not
    a copy of it: [end_] takes the state that scanner is in when it is
    called. *)
Record SourceRangeBuilder : Type := { start : SourceLocation }.

(** [SourceRangeBuilder.end()]: [self.scanner.last_token_range.end] reads
    [end] of [None] when the last token has no range. *)
Definition end_ (self : SourceRangeBuilder) (scanner : Scanner) : outcome SourceRange :=
  match last_token_range scanner with
  | Some r => Fine {| Tok.start := start self; Tok.end_ := Tok.end_ r |}
  | None => Fails (AttributeError "end")
  end.

End Builder.

(** [Scanner.begin_range()], that is [SourceRangeBuilder(self)]. *)
Definition begin_range (self : Scanner) : Scanner * result Builder.SourceRangeBuilder :=
  match location self with
  | (self1, Ok l) => (self1, Ok {| Builder.start := l |})
  | (self1, Raise e) => (self1, Raise e)
  | (self1, NoFuel) => (self1, NoFuel)
  end.

End Src.

(* ===================================================================== *)
(** * Lex: the character classes of the lexicon and the states its       *)
(** machines go through                                                  *)
(* ===================================================================== *)

Module Lex.

Import Plex Tok Raw.

Local Open Scope nat_scope.
Local Open Scope re_scope.

(** The classes of characters the patterns are made of: [letter],
    [digit], the first and the other characters of [ident], and the
    characters [hex_number] takes after [0x]. *)
Definition is_letter (c : ascii) : bool := in_ranges "azAZ" c.
Definition is_digit (c : ascii) : bool := in_ranges "09" c.
Definition ident_start (c : ascii) : bool := is_letter c || Ascii.eqb c "_".
Definition ident_char (c : ascii) : bool := is_letter c || Ascii.eqb c "_" || is_digit c.
Definition hex_char (c : ascii) : bool := in_ranges "09azAZ" c.

(** What can go on a number after its first digits: a digit, the point,
    the [E] of an exponent, or the [x] or [b] after a first [0]. *)
Definition number_char (c : ascii) : bool := is_digit c || mem_chars ".Exb" c.

(** The characters a comment goes over. *)
Definition not_newline (c : ascii) : bool := negb (Ascii.eqb c nl).

Definition is_space (c : ascii) : bool := Ascii.eqb c " ".

(** A character that ends the indentation of a line: neither a space nor
    the newline. *)
Definition starts_text (c : ascii) : bool := negb (is_space c) && not_newline c.

(** The characters that begin a token of the default state (the newline
    apart). *)
Definition begins_token (c : ascii) : bool :=
  ident_start c || is_digit c
  || mem_chars ("({[)}]|&^=<>*/%~+-:,.! #" ++ dquote)%string c.

(** A character of the stream that belongs to a class. *)
Definition of_class (p : ascii -> bool) (x : sym) : bool :=
  match x with
  | Ch c => p c
  | _ => false
  end.

(** A pseudo character that is not a character of the class. *)
Definition outside (p : ascii -> bool) (x : sym) : bool := negb (of_class p x).

Definition chars (w : list ascii) : list sym := map Ch w.

Definition spaces (n : nat) : list ascii := repeat " "%char n.

(** The two prefixed number patterns: [hex_number] and [binary_number]. *)
Inductive radix : Type := Hex | Bin.

Definition radix_letter (r : radix) : ascii :=
  match r with
  | Hex => "x"%char
  | Bin => "b"%char
  end.

Definition radix_char (r : radix) : ascii -> bool :=
  match r with
  | Hex => hex_char
  | Bin => is_digit
  end.

(** ** States of the machines *)

(** [ident]: after the first character, after more. *)
Definition ident_1 : machine := der (Ch "a") (build ident true).
Definition ident_2 : machine := der (Ch "a") ident_1.

(** The number pattern: after a first [0], after another first digit or
    more digits, after [0x] or [0b], and after the digits behind these. *)
Definition number_0 : machine :=
  build (decimal_or_octal_number :|: hex_number :|: binary_number) true.
Definition zero_1 : machine := der (Ch "0") number_0.
Definition digits_1 : machine := der (Ch "1") number_0.
Definition radix_2 (r : radix) : machine := der (Ch (radix_letter r)) zero_1.
Definition radix_3 (r : radix) : machine := der (Ch "0") (radix_2 r).

(** The comment pattern: after [#], after more characters, after the EOL
    in front of the newline. *)
Definition comment_0 : machine :=
  build (Str "#" :+: Rep (AnyBut NL) :+: Opt (Str NL)) true.
Definition comment_1 : machine := der (Ch "#") comment_0.
Definition comment_2 : machine := der (Ch "a") comment_1.
Definition comment_eol : machine := der EOL comment_1.

(** The pattern of the 'indent' state: at the start, after BOL, after
    spaces, after the EOL in front of the newline. *)
Definition indent_0 : machine := build (Rep (Str " ") :+: Opt (Str NL)) true.
Definition indent_bol : machine := der BOL indent_0.
Definition indent_1 : machine := der (Ch " ") indent_0.
Definition indent_eol : machine := der EOL indent_0.

(** The rules of the 'indent' state when its machine is in the state
    [m]. *)
Definition indenting (m : machine) : rules action := [(m, Call handle_indentation)].

(** The action of the pattern number [i] of the default state. *)
Definition rule_action (i : nat) : option action :=
  option_map snd (nth_error default_tokens i).

End Lex.

(* ===================================================================== *)
(** * Facts about machines                                               *)
(* ===================================================================== *)

Module PlexFacts.

Import Plex.

Lemma accepts_empty_lang : forall m, accepts_empty m = true -> lang m [].
Proof.
  induction m; simpl; intros H; try discriminate.
  - constructor.
  - apply andb_true_iff in H as [Ha Hb].
    change (@nil sym) with (@nil sym ++ []). constructor; auto.
  - apply orb_true_iff in H as [Ha | Hb].
    + apply lang_alt_l; auto.
    + apply lang_alt_r; auto.
  - constructor.
Qed.

Lemma lang_mseq : forall a b w, lang (mseq a b) w -> lang (MSeq a b) w.
Proof.
  intros a b w H.
  destruct a; destruct b; simpl in H;
    try exact H; try solve [inversion H];
    change w with ([] ++ w); constructor; solve [constructor | exact H].
Qed.

Lemma lang_malt : forall a b w, lang (malt a b) w -> lang (MAlt a b) w.
Proof.
  intros a b w H.
  destruct a; destruct b; simpl in H;
    try exact H; try solve [inversion H];
    solve [apply lang_alt_l; exact H | apply lang_alt_r; exact H].
Qed.

Lemma lang_der : forall m x w, lang (der x m) w -> lang m (x :: w).
Proof.
  induction m; simpl; intros x w H.
  - inversion H.
  - inversion H.
  - destruct (p x) eqn:E; inversion H; subst. constructor; exact E.
  - apply lang_malt in H. inversion H; subst.
    + apply lang_mseq in H3. inversion H3; subst.
      change (x :: u ++ v) with ((x :: u) ++ v). constructor; auto.
    + destruct (accepts_empty m1) eqn:E; [| inversion H3].
      change (x :: w) with ([] ++ x :: w). constructor; auto.
      apply accepts_empty_lang; exact E.
  - apply lang_malt in H. inversion H; subst.
    + apply lang_alt_l; auto.
    + apply lang_alt_r; auto.
  - apply lang_mseq in H. inversion H; subst.
    change (x :: u ++ v) with ((x :: u) ++ v). constructor; auto.
Qed.

(** What a machine accepts step by step is in its language. *)
Lemma ders_lang : forall w m, accepts_empty (ders w m) = true -> lang m w.
Proof.
  induction w as [| x w IH]; simpl; intros m H.
  - apply accepts_empty_lang; exact H.
  - apply lang_der. apply IH. exact H.
Qed.

Lemma lang_bound : forall m w, lang m w -> forall n, bound m = Some n -> List.length w <= n.
Proof.
  induction 1; simpl; intros n Hn.
  - lia.
  - inversion Hn; lia.
  - destruct (bound a) as [x |]; [| discriminate].
    destruct (bound b) as [y |]; [| discriminate].
    inversion Hn; subst. rewrite length_app.
    specialize (IHlang1 _ eq_refl). specialize (IHlang2 _ eq_refl). lia.
  - destruct (bound a) as [x |]; [| discriminate].
    destruct (bound b) as [y |]; [| discriminate].
    inversion Hn; subst. specialize (IHlang _ eq_refl). lia.
  - destruct (bound a) as [x |]; [| discriminate].
    destruct (bound b) as [y |]; [| discriminate].
    inversion Hn; subst. specialize (IHlang _ eq_refl). lia.
  - discriminate.
  - discriminate.
Qed.

Lemma chars_of_length : forall w, String.length (chars_of w) <= List.length w.
Proof.
  induction w as [| x w IH]; simpl; [lia |].
  destruct x; simpl; lia.
Qed.

(** A match of a bounded machine is a short text. *)
Lemma accepted_text_short : forall m w n,
  bound m = Some n -> accepts_empty (ders w m) = true ->
  String.length (chars_of w) <= n.
Proof.
  intros m w n Hb Ha.
  pose proof (lang_bound _ _ (ders_lang _ _ Ha) _ Hb).
  pose proof (chars_of_length w). lia.
Qed.

Section RunMachine.

Variable action : Type.
Implicit Types rs : rules action.

Lemma advances_map : forall w rs,
  advances w rs = map (fun ra => (ders w (fst ra), snd ra)) rs.
Proof.
  induction w as [| x w IH]; intros rs; simpl.
  - unfold ders; simpl. rewrite <- (map_id rs) at 1.
    apply map_ext. intros [m a]; reflexivity.
  - unfold advances in *; simpl. rewrite IH. unfold advance. rewrite map_map.
    apply map_ext. intros [m a]; reflexivity.
Qed.

(** The action found at an accepting point belongs to a pattern of the
    lexicon that matches the word read. *)
Lemma accepting_advances : forall w rs a,
  accepting (advances w rs) = Some a ->
  exists m, In (m, a) rs /\ accepts_empty (ders w m) = true.
Proof.
  intros w rs a H. rewrite advances_map in H. unfold accepting in H.
  destruct (find _ _) as [ra |] eqn:F; [| discriminate].
  inversion H; subst; clear H.
  apply find_some in F as [Hin Hacc].
  apply in_map_iff in Hin as [[m a] [E Hin]]. subst ra. simpl in *.
  exists m; split; assumption.
Qed.

(** Where the backup of [run_machine] comes from: it is the one passed in,
    or an accepting point [k - n] pseudo characters further. *)
Lemma run_machine_some : forall pend rs n bk a k j,
  run_machine rs pend n bk = (Some (a, k), j) ->
  bk = Some (a, k) \/
  (n <= k /\ k - n <= List.length pend /\
   accepting (advances (firstn (k - n) pend) rs) = Some a).
Proof.
  induction pend as [| x rest IH]; intros rs n bk a k j H; simpl in H.
  - destruct (accepting rs) as [a' |] eqn:A; inversion H; subst; auto.
    right. rewrite Nat.sub_diag. simpl. repeat split; auto.
  - destruct (blocked (advance x rs)).
    + destruct (accepting rs) as [a' |] eqn:A; inversion H; subst; auto.
      right. rewrite Nat.sub_diag. simpl. repeat split; auto; lia.
    + apply IH in H. destruct H as [H | (Hn & Hk & Ha)].
      * destruct (accepting rs) as [a' |] eqn:A; auto.
        inversion H; subst. right. rewrite Nat.sub_diag. simpl.
        repeat split; auto; lia.
      * right. replace (k - n) with (S (k - S n)) by lia. simpl.
        repeat split; try lia. exact Ha.
Qed.

(** The point where the machine blocks lies within the input. *)
Lemma run_machine_block : forall pend rs n bk r j,
  run_machine rs pend n bk = (r, j) -> n <= j <= n + List.length pend.
Proof.
  induction pend as [| x rest IH]; intros rs n bk r j H; simpl in H.
  - inversion H; subst; lia.
  - destruct (blocked (advance x rs)).
    + inversion H; subst; lia.
    + apply IH in H. simpl. lia.
Qed.

(** Without an accepting start and without a backup, a match reads at
    least one pseudo character. *)
Lemma run_machine_progress : forall pend rs n a k j,
  accepting rs = None ->
  run_machine rs pend n None = (Some (a, k), j) -> n < k.
Proof.
  intros pend rs n a k j Hacc H.
  destruct pend as [| x rest]; simpl in H; rewrite Hacc in H.
  - discriminate.
  - destruct (blocked (advance x rs)); [discriminate |].
    apply run_machine_some in H. destruct H as [H | (Hn & _)]; [discriminate | lia].
Qed.

End RunMachine.

Lemma pending_next_char : forall i, pending (next_char i) = tl (pending i).
Proof.
  intros [p cp cl cs]; unfold next_char; simpl.
  destruct p as [| [c | | |] r]; simpl; auto.
  destruct (Ascii.eqb c nl); reflexivity.
Qed.

Lemma pending_advance_by : forall k i, pending (advance_by k i) = skipn k (pending i).
Proof.
  induction k as [| k IH]; intros i; simpl; auto.
  rewrite IH, pending_next_char. destruct (pending i); simpl; auto.
  destruct k; reflexivity.
Qed.

End PlexFacts.

(* ===================================================================== *)
(** * Facts about the raw scanner                                        *)
(* ===================================================================== *)

Module RawFacts.

Import Plex Tok Raw PlexFacts.

Local Open Scope nat_scope.

(** ** The indentation stack *)

Lemma top_snoc : forall l x, top (l ++ [x]) = Some x.
Proof.
  induction l as [| a l IH]; intros x; simpl; auto.
  destruct (l ++ [x]) eqn:E.
  - destruct l; discriminate.
  - rewrite <- E. apply IH.
Qed.

Lemma top_some : forall l t, top l = Some t -> exists l', l = l' ++ [t].
Proof.
  induction l as [| a l IH]; intros t H; simpl in H; [discriminate |].
  destruct l as [| b l].
  - inversion H; subst. exists []; reflexivity.
  - apply IH in H as [l' E]. exists (a :: l'). simpl. rewrite <- E. reflexivity.
Qed.

Lemma sorted_snoc : forall l x,
  StronglySorted lt l -> (forall y, In y l -> y < x) -> StronglySorted lt (l ++ [x]).
Proof.
  induction l as [| a l IH]; intros x Hs Hx; simpl.
  - constructor; constructor.
  - inversion Hs; subst. constructor.
    + apply IH; auto. intros y Hy. apply Hx. right; exact Hy.
    + apply Forall_app. split; auto. constructor; auto. apply Hx. left; reflexivity.
Qed.

Lemma sorted_snoc_inv : forall l x,
  StronglySorted lt (l ++ [x]) -> StronglySorted lt l /\ (forall y, In y l -> y < x).
Proof.
  induction l as [| a l IH]; intros x Hs; simpl in *.
  - split; [constructor | intros y []].
  - inversion Hs; subst. apply IH in H1 as [Hl Hx].
    apply Forall_app in H2 as [Hal Hax]. split.
    + constructor; auto.
    + intros y [E | Hy]; [subst; inversion Hax; auto | auto].
Qed.

Lemma stack_ok_init : stack_ok [0].
Proof. split; [exists []; reflexivity | constructor; constructor]. Qed.

Lemma stack_ok_top : forall l, stack_ok l -> exists t, top l = Some t.
Proof.
  intros l [[r E] _]. subst. destruct r as [| a r].
  - exists 0; reflexivity.
  - destruct (top (a :: r)) eqn:T.
    + exists n. simpl in *. exact T.
    + exfalso. clear -T. revert a T. induction r; intros; simpl in T; [discriminate |].
      eapply IHr; eauto.
Qed.

(** Pushing a deeper level. *)
Lemma stack_ok_push : forall l t x,
  stack_ok l -> top l = Some t -> t < x -> stack_ok (l ++ [x]).
Proof.
  intros l t x [[r E] Hs] Ht Hlt. split.
  - exists (r ++ [x]). subst. reflexivity.
  - apply sorted_snoc; auto.
    apply top_some in Ht as [l' El]. subst l.
    rewrite El in Hs. apply sorted_snoc_inv in Hs as [_ Hx].
    intros y Hy. rewrite El in Hy. apply in_app_or in Hy as [Hy | [Hy | []]].
    + specialize (Hx _ Hy). lia.
    + subst. exact Hlt.
Qed.

(** Popping a level that lies above some width. *)
Lemma stack_ok_pop : forall l t x,
  stack_ok l -> top l = Some t -> x < t -> stack_ok (removelast l).
Proof.
  intros l t x [[r E] Hs] Ht Hlt.
  apply top_some in Ht as [l' El]. rewrite El in *. rewrite removelast_last.
  apply sorted_snoc_inv in Hs as [Hs _]. split; auto.
  destruct l' as [| a l'].
  - simpl in E. inversion E; subst. lia.
  - simpl in E. inversion E; subst. exists l'; reflexivity.
Qed.

(** A well-formed stack splits at any width: the levels above it are on
    top, and below them is a level that does not exceed it. *)
Lemma stack_split : forall l w,
  stack_ok l ->
  exists kept popped t,
    l = kept ++ popped /\ Forall (fun x => w < x) popped /\
    top kept = Some t /\ t <= w.
Proof.
  intros l w. induction l as [| x l' IH] using rev_ind; intros Hok.
  - destruct Hok as [[r E] _]. discriminate.
  - destruct (Nat.ltb w x) eqn:L.
    + apply Nat.ltb_lt in L.
      assert (Hok' : stack_ok l').
      { replace l' with (removelast (l' ++ [x])) by apply removelast_last.
        eapply stack_ok_pop; eauto. apply top_snoc. }
      destruct (IH Hok') as (kept & popped & t & E & Hp & Ht & Hle).
      exists kept, (popped ++ [x]), t. repeat split; auto.
      * rewrite E. rewrite app_assoc. reflexivity.
      * apply Forall_app. split; auto.
    + apply Nat.ltb_ge in L.
      exists (l' ++ [x]), [], x. repeat split; auto.
      * rewrite app_nil_r. reflexivity.
      * apply top_snoc.
Qed.

(** ** [outdent_to] *)

(** The loop of [outdent_to] pops exactly the levels above the width and
    produces one OUTDENT for each. *)
Lemma outdent_loop_spec : forall popped kept s fuel w t,
  indents s = kept ++ popped ->
  Forall (fun x => w < x) popped ->
  top kept = Some t -> t <= w ->
  List.length popped <= fuel ->
  outdent_loop fuel w s =
    (set_queue (queue s ++ repeat outdent_token (List.length popped)) (set_indents kept s),
     Ok tt).
Proof.
  induction popped as [| x p IH] using rev_ind; intros kept s fuel w t E Hp Ht Hle Hf.
  - rewrite app_nil_r in E.
    assert (R : outdent_loop fuel w s = (s, Ok tt)).
    { destruct fuel; simpl; rewrite E, Ht;
        replace (w <? t) with false by (symmetry; apply Nat.ltb_ge; exact Hle);
        reflexivity. }
    rewrite R. f_equal. destruct s; simpl in *. subst.
    unfold set_queue, set_indents; simpl. rewrite app_nil_r. reflexivity.
  - rewrite length_app in Hf; simpl in Hf.
    destruct fuel as [| fuel]; [lia |].
    apply Forall_app in Hp as [Hp Hx]. inversion Hx; subst.
    simpl. rewrite E, app_assoc, top_snoc.
    replace (w <? x) with true by (symmetry; apply Nat.ltb_lt; assumption).
    rewrite removelast_last.
    rewrite (IH kept _ fuel w t); [| reflexivity | assumption | assumption | assumption | lia].
    f_equal. unfold produce, set_queue, set_indents; simpl.
    rewrite length_app; simpl. rewrite Nat.add_1_r. simpl.
    rewrite <- app_assoc. reflexivity.
Qed.

(** [outdent_to] on a well-formed stack: the levels above the width are
    popped with one OUTDENT each; the call raises [IndentationError] with
    the scanner's position exactly when the level reached is not the
    width. *)
Lemma outdent_to_spec : forall s w,
  stack_ok (indents s) ->
  exists kept popped t,
    indents s = kept ++ popped /\
    Forall (fun x => w < x) popped /\
    top kept = Some t /\ t <= w /\
    outdent_to s w =
      (set_queue (queue s ++ repeat outdent_token (List.length popped)) (set_indents kept s),
       if t =? w then Ok tt else Raise (IndentationError (position s))).
Proof.
  intros s w Hok.
  destruct (stack_split _ w Hok) as (kept & popped & t & E & Hp & Ht & Hle).
  exists kept, popped, t. repeat split; auto.
  unfold outdent_to.
  rewrite (outdent_loop_spec popped kept s (List.length (indents s)) w t E Hp Ht Hle).
  - simpl. rewrite Ht. destruct (t =? w); reflexivity.
  - rewrite E, length_app. lia.
Qed.

(** ** What a round of [read] does to the queue and to the stack *)

Lemma count_type_app : forall ty a b,
  count_type ty (a ++ b) = count_type ty a + count_type ty b.
Proof.
  intros. unfold count_type. rewrite filter_app, length_app. reflexivity.
Qed.

Lemma count_outdent_repeat : forall k,
  count_type "OUTDENT" (repeat outdent_token k) = k /\
  count_type "INDENT" (repeat outdent_token k) = 0.
Proof.
  induction k as [| k [IH1 IH2]]; split; try reflexivity;
    change (repeat outdent_token (S k)) with ([outdent_token] ++ repeat outdent_token k);
    rewrite count_type_app; [rewrite IH1 | rewrite IH2]; reflexivity.
Qed.

Lemma grows_same : forall s s',
  queue s' = queue s -> indents s' = indents s -> grows s s'.
Proof.
  intros s s' Hq Hi. exists []. rewrite app_nil_r, Hi. repeat split; auto.
Qed.

Lemma grows_trans : forall s1 s2 s3, grows s1 s2 -> grows s2 s3 -> grows s1 s3.
Proof.
  intros s1 s2 s3 (n1 & Q1 & T1 & C1) (n2 & Q2 & T2 & C2).
  exists (n1 ++ n2). rewrite Q2, Q1, app_assoc. repeat split; auto.
  - apply Forall_app; split; assumption.
  - rewrite !count_type_app. lia.
Qed.

(** Producing a token that is neither INDENT nor OUTDENT. *)
Lemma grows_produce : forall s v txt,
  raw_type_ok v -> v <> Some "INDENT" -> v <> Some "OUTDENT" ->
  grows s (produce v txt s).
Proof.
  intros s v txt Hok Hi Ho.
  exists [(v, match txt with Some t => t | None => VStr (text s) end)].
  repeat split; auto.
  unfold count_type; simpl.
  destruct v as [v |]; simpl; auto.
  destruct (String.eqb v "INDENT") eqn:E1.
  - apply String.eqb_eq in E1. subst. contradiction Hi; reflexivity.
  - destruct (String.eqb v "OUTDENT") eqn:E2; auto.
    apply String.eqb_eq in E2. subst. contradiction Ho; reflexivity.
Qed.

Lemma named_ok : forall v, In v named_types -> raw_type_ok (Some v).
Proof. intros v H. left. exact H. Qed.

Lemma short_ok : forall v, String.length v <= 4 -> raw_type_ok (Some v).
Proof. intros v H. right. exact H. Qed.

Lemma short_not_named : forall v, String.length v <= 4 ->
  Some v <> Some "INDENT" /\ Some v <> Some "OUTDENT" /\ Some v <> Some "ERROR"
  /\ Some v <> Some "NEWLINE".
Proof.
  intros v H. repeat split; intros E; inversion E; subst; simpl in H; lia.
Qed.

(** [outdent_to] keeps the stack well formed and accounts for its pops. *)
Lemma outdent_to_grows : forall s w s' r,
  stack_ok (indents s) -> outdent_to s w = (s', r) ->
  stack_ok (indents s') /\ grows s s' /\ r <> NoFuel /\
  inp s' = inp s /\ state_name s' = state_name s /\ bracket_count s' = bracket_count s
  /\ min_bracket_count s' = min_bracket_count s /\ name s' = name s.
Proof.
  intros s w s' r Hok H.
  destruct (outdent_to_spec s w Hok) as (kept & popped & t & E & Hp & Ht & Hle & R).
  rewrite R in H. injection H as Hs' Hr. subst s' r. simpl.
  assert (Hk : stack_ok kept).
  { destruct Hok as [[r0 E0] Hs]. rewrite E in *.
    apply top_some in Ht as [k' Ek]. subst kept. split.
    - destruct k' as [| a k']; simpl in E0; inversion E0; subst.
      + exists []; reflexivity.
      + exists (k' ++ [t]). reflexivity.
    - clear -Hs. induction (k' ++ [t]) as [| a l IH]; simpl in *; [constructor |].
      inversion Hs; subst. constructor; auto.
      apply Forall_app in H2 as [H2 _]. exact H2. }
  split; [exact Hk |]. split; [| split; [destruct (t =? w); discriminate | auto 10]].
  exists (repeat outdent_token (List.length popped)). simpl.
  destruct (count_outdent_repeat (List.length popped)) as [C1 C2].
  rewrite C1, C2, E, length_app. split; [reflexivity |]. split; [| lia].
  apply Forall_forall. intros x Hx. apply repeat_spec in Hx. subst.
  apply named_ok. simpl; auto 10.
Qed.

(** ** The handlers *)

Ltac dmatch H :=
  repeat match type of H with
         | context [match ?x with _ => _ end] => destruct x eqn:?
         end.

Lemma kept_by_weaken : forall s s' r (P Q : string -> Prop),
  kept_by s s' r P -> (forall v, r = Ok (Some v) -> P v -> Q v) -> kept_by s s' r Q.
Proof.
  intros s s' r P Q (A & B & C & D & E & F & G) H.
  unfold kept_by. repeat (split; [assumption |]). intros v Ev. apply H; auto.
Qed.

Lemma handle_newline_ok : handler_ok handle_newline.
Proof.
  intros s txt s' r Hok H. unfold kept_by. unfold handle_newline in H.
  destruct (bracket_count s =? 0); inversion H; subst; simpl;
    (split; [exact Hok |]); (split; [apply grows_same; reflexivity |]);
    repeat split; try discriminate; intros v E; inversion E; auto.
Qed.

Lemma handle_open_bracket_ok : handler_ok handle_open_bracket.
Proof.
  intros s txt s' r Hok H. unfold kept_by. unfold handle_open_bracket in H.
  inversion H; subst; simpl.
  (split; [exact Hok |]); (split; [apply grows_same; reflexivity |]);
    repeat split; try discriminate; intros v E; inversion E; auto.
Qed.

Lemma handle_close_bracket_ok : handler_ok handle_close_bracket.
Proof.
  intros s txt s' r Hok H. unfold kept_by. unfold handle_close_bracket in H.
  destruct (min_bracket_count s <? bracket_count s); inversion H; subst; simpl;
    (split; [exact Hok |]); (split; [apply grows_same; reflexivity |]);
    repeat split; try discriminate; intros v E; inversion E; auto.
Qed.

Lemma newline_grows : forall s, grows s (produce (Some "NEWLINE") (Some (VStr NL)) s).
Proof.
  intros s. apply grows_produce; try discriminate. apply named_ok. simpl; auto 10.
Qed.

Lemma handle_comment_ok : handler_ok handle_comment.
Proof.
  intros s txt s' r Hok H. unfold kept_by. unfold handle_comment in H.
  destruct (last_char txt); [destruct (bracket_count s =? 0) |];
    inversion H; subst; simpl; (split; [exact Hok |]).
  - split; [| repeat split; try discriminate ].
    apply (grows_trans s (begin Indent s)); [apply grows_same; reflexivity |].
    apply (newline_grows (begin Indent s)).
  - split; [apply grows_same; reflexivity | repeat split; try discriminate].
  - split; [apply grows_same; reflexivity | repeat split; try discriminate].
Qed.

Lemma handle_indentation_ok : handler_ok handle_indentation.
Proof.
  intros s txt s' r Hok H. unfold kept_by. unfold handle_indentation in H.
  destruct (stack_ok_top _ Hok) as [cur Hcur]. rewrite Hcur in H.
  destruct (_ && _).
  { inversion H; subst; simpl. split; [exact Hok |]. split; [apply newline_grows |].
    repeat split; try discriminate. }
  destruct (cur <? String.length txt) eqn:L1.
  { apply Nat.ltb_lt in L1. inversion H; subst; simpl.
    split; [eapply stack_ok_push; eauto |].
    split; [| repeat split; try discriminate].
    exists [(Some "INDENT", VInt (String.length txt - cur))]. simpl.
    split; [reflexivity |]. split.
    - constructor; [apply named_ok; simpl; auto 10 | constructor].
    - rewrite length_app. unfold count_type; simpl. lia. }
  destruct (String.length txt <? cur).
  { destruct (outdent_to s (String.length txt)) as [s1 r1] eqn:O.
    destruct (outdent_to_grows _ _ _ _ Hok O) as (Hok1 & Hg & Hnf & Hi & _ & _ & Hm & Hn).
    destruct r1; inversion H; subst; simpl;
      try contradiction;
      (split; [exact Hok1 |]); (split; [| repeat split; auto; try discriminate]).
    - apply (grows_trans s s1); [exact Hg | apply grows_same; reflexivity].
    - exact Hg. }
  inversion H; subst; simpl. split; [exact Hok |].
  split; [apply grows_same; reflexivity | repeat split; try discriminate].
Qed.

(** [eof()] under the same terms. *)
Lemma eof_ok : forall s s' r,
  stack_ok (indents s) -> eof s = (s', r) ->
  stack_ok (indents s') /\ grows s s' /\ r <> NoFuel /\
  inp s' = inp s /\ name s' = name s /\ min_bracket_count s' = min_bracket_count s.
Proof.
  intros s s' r Hok H. unfold eof in H.
  assert (Heof : forall x, grows x (produce (Some "EOF") None x)).
  { intros x. apply grows_produce; try discriminate. apply named_ok. simpl; auto 10. }
  destruct (bracket_count s =? 0).
  - destruct (outdent_to _ 0) as [s1 r1] eqn:O.
    apply outdent_to_grows in O; [| exact Hok].
    destruct O as (Hok1 & Hg & Hnf & Hi & _ & _ & Hm & Hn).
    assert (Hg1 : grows s s1) by (eapply grows_trans; [apply newline_grows | exact Hg]).
    destruct r1; inversion H; subst; simpl; try contradiction;
      (split; [exact Hok1 |]); (split; [| repeat split; auto; try discriminate]).
    + eapply grows_trans; [exact Hg1 | apply Heof].
    + exact Hg1.
  - inversion H; subst; simpl. split; [exact Hok |].
    split; [apply Heof | repeat split; try discriminate].
Qed.

(** ** [scan_a_token] *)

(** Scanning moves the input on and records where the token starts; the
    queue, the stack, the state and the bracket counters are left alone. *)
Lemma scan_a_token_keeps : forall s s1 r,
  scan_a_token s = (s1, r) ->
  queue s1 = queue s /\ indents s1 = indents s /\ state_name s1 = state_name s /\
  bracket_count s1 = bracket_count s /\ min_bracket_count s1 = min_bracket_count s /\
  name s1 = name s /\ text s1 = text s /\ r <> NoFuel /\
  start_line s1 = cur_line (inp s) /\
  start_col s1 = cur_pos (inp s) - cur_line_start (inp s) /\
  exists k, pending (inp s1) = skipn k (pending (inp s)).
Proof.
  intros s s1 r H. unfold scan_a_token in H.
  destruct (run_machine _ _ _ _) as [[[a k] |] j].
  - inversion H; subst; simpl. repeat split; try discriminate.
    exists k. apply pending_advance_by.
  - cbv zeta in H.
    assert (Hn : pending (next_char (advance_by j (inp s))) = skipn (S j) (pending (inp s))).
    { rewrite pending_next_char, pending_advance_by.
      rewrite <- (skipn_skipn 1 j). reflexivity. }
    repeat match type of H with
           | context [match ?x with _ => _ end] => destruct x
           end;
      inversion H; subst; simpl; repeat split; try discriminate;
      solve [ exists j; apply pending_advance_by | exists (S j); exact Hn ].
Qed.

(** A token that is found belongs to a pattern of the state's lexicon, and
    that pattern matches the pseudo characters read. *)
Lemma scan_a_token_match : forall s s1 txt a,
  scan_a_token s = (s1, Ok (txt, Some a)) ->
  exists re k,
    In (re, a) (tokens (state_name s)) /\
    accepts_empty (ders (firstn k (pending (inp s))) (build re true)) = true /\
    txt = chars_of (firstn k (pending (inp s))) /\
    inp s1 = advance_by k (inp s) /\
    k <= List.length (pending (inp s)) /\
    (accepting (lexicon (state_name s)) = None -> 0 < k).
Proof.
  intros s s1 txt a H. unfold scan_a_token in H.
  destruct (run_machine _ _ _ _) as [[[a' k] |] j] eqn:R.
  - inversion H; subst; clear H.
    assert (Hprog : accepting (lexicon (state_name s)) = None -> 0 < k)
      by (intro Hacc; eapply run_machine_progress; eauto).
    apply run_machine_some in R. destruct R as [R | (_ & Hk & Ha)]; [discriminate |].
    rewrite Nat.sub_0_r in *.
    apply accepting_advances in Ha as (m & Hin & Hacc).
    unfold lexicon, compile in Hin. apply in_map_iff in Hin as [[re a0] [E Hin]].
    simpl in E. inversion E; subst.
    exists re, k. repeat split; auto.
  - cbv zeta in H.
    repeat match type of H with
           | context [match ?x with _ => _ end] => destruct x
           end; inversion H.
Qed.

(** ** A round of [read] *)

Lemma punct_bound : bound (build punct true) = Some 4.
Proof. vm_compute. reflexivity. Qed.

Lemma open_bracket_bound : bound (build (Any "({[") true) = Some 2.
Proof. vm_compute. reflexivity. Qed.

Lemma close_bracket_bound : bound (build (Any ")}]") true) = Some 2.
Proof. vm_compute. reflexivity. Qed.

Lemma named_plain : forall v,
  In v ["NUMBER"; "STRINGLIT"; "IDENT"; "NEWLINE"; "EOF"] -> plain_type v.
Proof.
  intros v H. simpl in H.
  repeat (destruct H as [H | H]; [subst; split; [apply named_ok; simpl; auto 10 |
                                              repeat split; discriminate] |]).
  contradiction.
Qed.

Lemma short_plain : forall v, String.length v <= 4 -> plain_type v.
Proof.
  intros v L. split; [apply short_ok; exact L |].
  repeat split; intros E; subst; simpl in L; lia.
Qed.

(** The value an action of the lexicon returns is a named type or a short
    text, and never INDENT, OUTDENT or ERROR; handlers keep their
    guarantees. *)
Lemma perform_ok : forall st re a w s s' r,
  In (re, a) (tokens st) ->
  accepts_empty (ders w (build re true)) = true ->
  stack_ok (indents s) ->
  perform a s (chars_of w) = (s', r) ->
  kept_by s s' r plain_type.
Proof.
  intros st re a w s s' r Hin Hacc Hok H.
  assert (Hnl : plain_type "NEWLINE") by (apply named_plain; simpl; auto 10).
  assert (Hsame : forall v, plain_type v -> (s', r) = (s, Ok (Some v)) ->
                            kept_by s s' r plain_type).
  { intros v Hv E. inversion E; subst. unfold kept_by.
    split; [exact Hok |]. split; [apply grows_same; reflexivity |].
    split; [discriminate |]. repeat (split; [reflexivity |]).
    intros v' E'. inversion E'; subst. exact Hv. }
  destruct st; simpl in Hin;
    repeat (destruct Hin as [Hin | Hin]; [inversion Hin; subst re a; clear Hin |]);
    try contradiction; simpl in H.
  - apply (Hsame "NUMBER"); auto. apply named_plain; simpl; auto 10.
  - apply (Hsame "STRINGLIT"); auto. apply named_plain; simpl; auto 10.
  - apply (Hsame "IDENT"); auto. apply named_plain; simpl; auto 10.
  - apply (kept_by_weaken _ _ _ _ _ (handle_open_bracket_ok _ _ _ _ Hok H)).
    intros v _ [E | E]; subst; auto. apply short_plain.
    pose proof (accepted_text_short _ _ _ open_bracket_bound Hacc). lia.
  - apply (kept_by_weaken _ _ _ _ _ (handle_close_bracket_ok _ _ _ _ Hok H)).
    intros v _ [E | E]; subst; auto. apply short_plain.
    pose proof (accepted_text_short _ _ _ close_bracket_bound Hacc). lia.
  - apply (kept_by_weaken _ _ _ _ _ (handle_newline_ok _ _ _ _ Hok H)).
    intros v Ev _. subst r. unfold handle_newline in H.
    destruct (bracket_count s =? 0); inversion H; subst. exact Hnl.
  - apply (Hsame (chars_of w)); auto. apply short_plain.
    apply (accepted_text_short _ _ _ punct_bound Hacc).
  - inversion H; subst. unfold kept_by.
    split; [exact Hok |]. split; [apply grows_same; reflexivity |].
    split; [discriminate |]. repeat (split; [reflexivity |]).
    intros v' E'. inversion E'.
  - apply (kept_by_weaken _ _ _ _ _ (handle_comment_ok _ _ _ _ Hok H)).
    intros v Ev _. subst r. unfold handle_comment in H. dmatch H; inversion H.
  - apply (kept_by_weaken _ _ _ _ _ (handle_indentation_ok _ _ _ _ Hok H)).
    intros v Ev _. subst r. unfold handle_indentation in H. dmatch H; inversion H.
Qed.

(** A round of the loop of [read]: the stack stays well formed, the tokens
    added to the queue have types of the lexicon, and their INDENT and
    OUTDENT tokens account for the change of depth. *)
Lemma scan_step_ok : forall s s' r,
  stack_ok (indents s) -> scan_step s = (s', r) ->
  stack_ok (indents s') /\ grows s s' /\ r <> NoFuel /\
  name s' = name s /\ min_bracket_count s' = min_bracket_count s.
Proof.
  intros s s' r Hok H. unfold scan_step in H.
  destruct (scan_a_token s) as [s1 r1] eqn:S.
  destruct (scan_a_token_keeps _ _ _ S) as (Kq & Ki & _ & _ & Km & Kn & _ & Knf & _).
  assert (G1 : forall t, grows s (set_text t s1)) by (intros; apply grows_same; assumption).
  destruct r1 as [[txt [a |]] | e |].
  - destruct (scan_a_token_match _ _ _ _ S) as (re & k & Hin & Hacc & Et & _).
    destruct (perform a (set_text txt s1) txt) as [s3 r3] eqn:P.
    assert (Hok2 : stack_ok (indents (set_text txt s1))) by (simpl; rewrite Ki; exact Hok).
    rewrite Et in P at 2.
    destruct (perform_ok _ _ _ _ _ _ _ Hin Hacc Hok2 P) as (A & B & C & _ & E & F & G).
    simpl in E, F.
    assert (G3 : grows s s3) by (eapply grows_trans; [apply G1 | exact B]).
    destruct r3 as [[v |] | e |]; inversion H; subst; simpl;
      try contradiction; (split; [exact A |]);
      (split; [| split; [discriminate | split; congruence]]); auto.
    destruct (G v eq_refl) as (T1 & T2 & T3 & _).
    eapply grows_trans; [exact G3 |]. apply grows_produce; auto; congruence.
  - destruct (eof _) as [s3 r3] eqn:Eo.
    apply eof_ok in Eo; [| simpl; rewrite Ki; exact Hok].
    destruct Eo as (A & B & C & _ & E & F). simpl in E, F.
    inversion H; subst. split; [exact A |].
    split; [| split; [exact C | split; congruence]].
    eapply grows_trans; [apply (G1 txt) |].
    eapply grows_trans; [| exact B].
    apply grows_produce; simpl; auto; discriminate.
  - inversion H; subst. split; [rewrite Ki; exact Hok |].
    split; [apply grows_same; assumption |]. split; [discriminate | split; assumption].
  - contradiction.
Qed.

Lemma raw_type_ok_not_error : forall ty, raw_type_ok ty -> ty <> Some "ERROR".
Proof.
  intros ty H E. subst. simpl in H. destruct H as [H | H]; [| lia].
  repeat (destruct H as [H | H]; [discriminate |]). contradiction.
Qed.

(** ** [read] returns *)

Lemma default_not_nullable : accepting (lexicon Default) = None.
Proof. vm_compute. reflexivity. Qed.

Lemma handle_indentation_moves_on : forall s txt s' v,
  handle_indentation s txt = (s', Ok v) ->
  state_name s' = Default \/ queue s' <> [].
Proof.
  intros s txt s' v H. unfold handle_indentation in H.
  destruct (top (indents s)); [| discriminate].
  destruct (_ && _).
  { inversion H; subst. right. simpl. destruct (queue s); discriminate. }
  destruct (_ <? _).
  { inversion H; subst. left. reflexivity. }
  destruct (_ <? _).
  { destruct (outdent_to _ _) as [s1 [u | e |]]; inversion H; subst. left; reflexivity. }
  inversion H; subst. left; reflexivity.
Qed.

Lemma grows_nonempty : forall s s', grows s s' -> queue s <> [] -> queue s' <> [].
Proof.
  intros s s' (new & Q & _) H. rewrite Q. destruct (queue s); [contradiction | discriminate].
Qed.

(** A round that ends normally has produced a token or lowered the
    measure. *)
Lemma scan_step_progress : forall s s',
  stack_ok (indents s) -> scan_step s = (s', Ok tt) ->
  queue s' <> [] \/ measure s' < measure s.
Proof.
  intros s s' Hok H. unfold scan_step in H.
  destruct (scan_a_token s) as [s1 r1] eqn:S.
  destruct (scan_a_token_keeps _ _ _ S) as (Kq & Ki & Ks & _ & _ & _ & _ & _ & _ & _ & _).
  destruct r1 as [[txt [a |]] | e |]; try discriminate.
  - destruct (scan_a_token_match _ _ _ _ S) as (re & k & Hin & Hacc & Et & Einp & Hk & Hpos).
    destruct (perform a (set_text txt s1) txt) as [s3 r3] eqn:P.
    assert (Hok2 : stack_ok (indents (set_text txt s1))) by (simpl; rewrite Ki; exact Hok).
    assert (P' := P). rewrite Et in P' at 2.
    destruct (perform_ok _ _ _ _ _ _ _ Hin Hacc Hok2 P') as (_ & _ & _ & D & _).
    simpl in D.
    assert (Hlen : List.length (pending (inp s3)) = List.length (pending (inp s)) - k).
    { rewrite D, Einp, pending_advance_by, length_skipn. reflexivity. }
    destruct r3 as [[v |] | e |]; inversion H; subst s'.
    + left. simpl. destruct (queue s3); discriminate.
    + destruct (state_name s) eqn:St.
      * right. specialize (Hpos default_not_nullable).
        unfold measure. rewrite Hlen, St. destruct (state_name s3); lia.
      * simpl in Hin. destruct Hin as [Hin | []]. inversion Hin; subst a.
        simpl in P. apply handle_indentation_moves_on in P as [P | P]; [| left; exact P].
        right. unfold measure. rewrite Hlen, St, P. lia.
  - left. destruct (eof _) as [s3 r3] eqn:Eo.
    apply eof_ok in Eo; [| simpl; rewrite Ki; exact Hok].
    destruct Eo as (_ & G & _).
    destruct r3; inversion H; subst.
    eapply grows_nonempty; [exact G |]. simpl. destruct (queue s1); discriminate.
Qed.

Lemma read_loop_answers : forall fuel s,
  stack_ok (indents s) -> measure s < fuel -> snd (read_loop fuel s) <> NoFuel.
Proof.
  induction fuel as [| fuel IH]; intros s Hok Hm; [lia |].
  simpl. destruct (queue s) eqn:Q; [| discriminate].
  destruct (scan_step s) as [s1 r] eqn:S.
  destruct (scan_step_ok _ _ _ Hok S) as (Hok1 & _ & Hnf & _).
  destruct r as [[] | e |]; [| discriminate | contradiction].
  destruct (scan_step_progress _ _ Hok S) as [Hq | Hlt].
  - destruct fuel; simpl; destruct (queue s1); try contradiction; discriminate.
  - apply IH; [exact Hok1 | lia].
Qed.

(** [read] never runs out of rounds: it returns a token or raises. *)
Lemma read_answers : forall s, stack_ok (indents s) -> snd (read s) <> NoFuel.
Proof.
  intros s Hok. unfold read. apply read_loop_answers; [exact Hok |].
  unfold measure, rounds. destruct (state_name s); lia.
Qed.

(** What [read] keeps: a well-formed stack, and a queue whose tokens have
    types of the lexicon; the token it returns has such a type too. *)
Lemma read_loop_ok : forall fuel s s' r,
  stack_ok (indents s) -> Forall (fun t => raw_type_ok (fst t)) (queue s) ->
  read_loop fuel s = (s', r) ->
  stack_ok (indents s') /\ Forall (fun t => raw_type_ok (fst t)) (queue s') /\
  name s' = name s /\
  (forall t, r = Ok t -> raw_type_ok (fst t)).
Proof.
  assert (Take : forall s t q, stack_ok (indents s) ->
            Forall (fun t => raw_type_ok (fst t)) (t :: q) ->
            stack_ok (indents (set_queue q s)) /\
            Forall (fun t => raw_type_ok (fst t)) (queue (set_queue q s)) /\
            name (set_queue q s) = name s /\
            (forall t', Ok t = Ok t' -> raw_type_ok (fst t'))).
  { intros s t q Hok Hq. inversion Hq; subst. simpl.
    split; [exact Hok |]. split; [assumption |]. split; [reflexivity |].
    intros t' E. inversion E; subst. assumption. }
  induction fuel as [| fuel IH]; intros s s' r Hok Hq H; simpl in H.
  - destruct (queue s) as [| t q] eqn:Q; inversion H; subst.
    + split; [exact Hok |]. split; [rewrite Q; exact Hq |].
      split; [reflexivity | discriminate].
    + apply Take; assumption.
  - destruct (queue s) as [| t q] eqn:Q.
    + destruct (scan_step s) as [s1 r1] eqn:S.
      destruct (scan_step_ok _ _ _ Hok S) as (Hok1 & (new & Qn & Tn & _) & _ & Hn & _).
      assert (Hq1 : Forall (fun t => raw_type_ok (fst t)) (queue s1)).
      { rewrite Qn, Q. simpl. exact Tn. }
      destruct r1 as [[] | e |].
      * destruct (IH _ _ _ Hok1 Hq1 H) as (A & B & C & D).
        split; [exact A |]. split; [exact B |]. split; [congruence | exact D].
      * inversion H; subst.
        split; [exact Hok1 |]. split; [exact Hq1 |]. split; [exact Hn | discriminate].
      * inversion H; subst.
        split; [exact Hok1 |]. split; [exact Hq1 |]. split; [exact Hn | discriminate].
    + inversion H; subst. apply Take; assumption.
Qed.

(** ** The indentation invariant *)

(** C2.  At every point of a scan (between two rounds of the loop of
    [read], and between two calls of [read]) the indentation stack has 0 at
    the bottom and is strictly ascending, hence not empty; and among the
    tokens emitted so far (those [read] has returned and those produced
    into the queue) the number of INDENT tokens exceeds the number of
    OUTDENT tokens by the depth of the stack minus 1.  It holds in file
    mode and in expression-only mode alike. *)
Theorem indentation_invariant : forall content name expression_only s out,
  scan_from (init content name expression_only) s out ->
  stack_ok (indents s) /\
  count_type "INDENT" (out ++ queue s) + 1
  = count_type "OUTDENT" (out ++ queue s) + List.length (indents s).
Proof.
  intros content name eo s out H. induction H as [| s out s' r H [IHs IHc] Hq Hs
                                                  | s out t q H [IHs IHc] Hq].
  - split; [apply stack_ok_init | reflexivity].
  - destruct (scan_step_ok _ _ _ IHs Hs) as (A & (new & Q & _ & C) & _).
    split; [exact A |].
    rewrite Q, app_assoc, !count_type_app in *. lia.
  - split; [exact IHs |]. simpl. rewrite <- app_assoc. simpl.
    rewrite Hq in IHc. exact IHc.
Qed.

Lemma indentation_invariant_witness :
  let s0 := init "  y" None false in
  let s1 := fst (scan_step s0) in
  let s2 := fst (scan_step (set_queue [] s1)) in
  let s3 := set_queue [] s2 in
  let s4 := fst (scan_step s3) in
  let out := [(Some "INDENT", VInt 2); (Some "IDENT", VStr "y")] in
  (indents s3 = [0; 2] /\ queue s3 = [] /\
   stack_ok (indents s3) /\
   count_type "INDENT" (out ++ queue s3) + 1
   = count_type "OUTDENT" (out ++ queue s3) + List.length (indents s3)) /\
  (indents s4 = [0] /\
   queue s4 = [(None, VStr EmptyString); (Some "NEWLINE", VStr NL);
               (Some "OUTDENT", VStr EmptyString); (Some "EOF", VStr EmptyString)] /\
   stack_ok (indents s4) /\
   count_type "INDENT" (out ++ queue s4) + 1
   = count_type "OUTDENT" (out ++ queue s4) + List.length (indents s4)).
Proof.
  intros s0 s1 s2 s3 s4 out.
  assert (H3 : scan_from s0 s3 out).
  { apply (scan_take _ s2 [(Some "INDENT", VInt 2)] (Some "IDENT", VStr "y") []).
    - apply (scan_round _ (set_queue [] s1) _ s2 (snd (scan_step (set_queue [] s1)))).
      + apply (scan_take _ s1 [] (Some "INDENT", VInt 2) []).
        * apply (scan_round _ s0 [] s1 (snd (scan_step s0))).
          -- apply scan_start.
          -- reflexivity.
          -- apply surjective_pairing.
        * vm_compute. reflexivity.
      + reflexivity.
      + apply surjective_pairing.
    - vm_compute. reflexivity. }
  assert (H4 : scan_from s0 s4 out).
  { apply (scan_round _ s3 out s4 (snd (scan_step s3)));
      [exact H3 | reflexivity | apply surjective_pairing]. }
  split.
  - split; [vm_compute; reflexivity |]. split; [reflexivity |].
    apply (indentation_invariant "  y" None false s3 out H3).
  - split; [vm_compute; reflexivity |]. split; [vm_compute; reflexivity |].
    apply (indentation_invariant "  y" None false s4 out H4).
Defined.

(** ** Dedenting *)

(** [handle_indentation] on a line that is not blank and whose width
    is less than the top of a well-formed stack: the levels above the width
    are popped (what stays ends in a level that does not exceed the width),
    one OUTDENT is produced for each popped level, and the call raises
    [IndentationError] carrying the scanner's position (the start of the
    indentation just scanned) exactly when the level reached differs from
    the width; otherwise it returns without an error and scanning resumes
    in the default state. *)
Lemma dedent_handler : forall s text cur,
  stack_ok (indents s) ->
  top (indents s) = Some cur ->
  last_char text <> Some nl ->
  String.length text < cur ->
  exists kept popped t,
    indents s = kept ++ popped /\
    Forall (fun x => String.length text < x) popped /\
    top kept = Some t /\ t <= String.length text /\
    indents (fst (handle_indentation s text)) = kept /\
    queue (fst (handle_indentation s text))
    = queue s ++ repeat outdent_token (List.length popped) /\
    snd (handle_indentation s text)
    = (if t =? String.length text then Ok None
       else Raise (IndentationError (position s))) /\
    (t = String.length text -> state_name (fst (handle_indentation s text)) = Default).
Proof.
  intros s text cur Hok Hcur Hblank Hlt.
  destruct (outdent_to_spec s (String.length text) Hok)
    as (kept & popped & t & E & Hp & Ht & Hle & R).
  exists kept, popped, t. repeat (split; [assumption |]).
  unfold handle_indentation. rewrite Hcur.
  replace (match last_char text with Some c => Ascii.eqb c nl | None => false end)
    with false.
  2:{ destruct (last_char text) as [c |]; auto. symmetry. apply Ascii.eqb_neq.
      intros Ec. apply Hblank. subst. reflexivity. }
  rewrite andb_false_r.
  replace (cur <? String.length text) with false by (symmetry; apply Nat.ltb_ge; lia).
  replace (String.length text <? cur) with true by (symmetry; apply Nat.ltb_lt; lia).
  rewrite R. destruct (t =? String.length text) eqn:Et; simpl; repeat split; auto.
  intros Eq. apply Nat.eqb_neq in Et. contradiction.
Qed.

(** ** Newlines and brackets *)

Lemma run_machine_cons : forall (rs : rules action) x rest n bk,
  run_machine rs (x :: rest) n bk =
  let bk' := match accepting rs with Some a => Some (a, n) | None => bk end in
  if blocked (advance x rs) then (bk', n)
  else run_machine (advance x rs) rest (S n) bk'.
Proof. reflexivity. Qed.

Lemma default_after_bol :
  blocked (advance BOL (lexicon Default)) = false /\
  accepting (advance BOL (lexicon Default)) = None.
Proof. vm_compute. auto. Qed.

Lemma default_after_eol :
  blocked (advance EOL (lexicon Default)) = false /\
  accepting (advance EOL (lexicon Default)) = None /\
  advance EOL (advance BOL (lexicon Default)) = advance EOL (lexicon Default).
Proof. vm_compute. auto. Qed.

(** After an EOL and the newline character only the newline pattern is
    alive, and it has matched. *)
Lemma default_after_newline :
  advance (Ch nl) (advance EOL (lexicon Default)) = solo 5 MEps.
Proof. vm_compute. reflexivity. Qed.

Lemma newline_matched : forall rest n bk,
  run_machine (solo 5 MEps) rest n bk = (Some (Call handle_newline, n), n).
Proof. intros [| x rest] n bk; reflexivity. Qed.

(** In the default state a newline at the start of a token is matched by
    the newline pattern, and by nothing longer. *)
Lemma newline_run : forall pre rest,
  pre = [] \/ pre = [BOL] ->
  run_machine (lexicon Default) (pre ++ EOL :: Ch nl :: rest) 0 None
  = (Some (Call handle_newline, List.length pre + 2), List.length pre + 2).
Proof.
  intros pre rest [E | E]; subst pre; simpl app.
  - rewrite run_machine_cons, default_not_nullable.
    destruct default_after_eol as (B & A & _). rewrite B. cbv zeta.
    rewrite run_machine_cons, A.
    rewrite default_after_newline. cbv zeta.
    replace (blocked (solo 5 MEps)) with false by reflexivity.
    apply newline_matched.
  - rewrite run_machine_cons, default_not_nullable.
    destruct default_after_bol as (B0 & A0). rewrite B0. cbv zeta.
    rewrite run_machine_cons, A0.
    destruct default_after_eol as (B & A & E). rewrite E, B. cbv zeta.
    rewrite run_machine_cons, A.
    rewrite default_after_newline. cbv zeta.
    replace (blocked (solo 5 MEps)) with false by reflexivity.
    apply newline_matched.
Qed.

Lemma newline_scan : forall s pre rest,
  state_name s = Default ->
  pending (inp s) = pre ++ EOL :: Ch nl :: rest ->
  pre = [] \/ pre = [BOL] ->
  scan_a_token s =
    (set_inp (advance_by (List.length pre + 2) (inp s))
       (set_start (cur_pos (inp s)) (cur_line (inp s))
          (cur_pos (inp s) - cur_line_start (inp s)) s),
     Ok (NL, Some (Call handle_newline))).
Proof.
  intros s pre rest St P Hpre. unfold scan_a_token.
  rewrite St, P, (newline_run pre rest Hpre).
  destruct Hpre; subst pre; reflexivity.
Qed.

(** The 'indent' state is only entered at bracket depth 0, and brackets
    are only counted in the default state. *)
Lemma outdent_loop_keeps : forall fuel w s s' r,
  outdent_loop fuel w s = (s', r) ->
  state_name s' = state_name s /\ bracket_count s' = bracket_count s /\
  min_bracket_count s' = min_bracket_count s.
Proof.
  induction fuel as [| fuel IH]; intros w s s' r H; simpl in H.
  - dmatch H; inversion H; subst; auto.
  - destruct (top (indents s)); [| inversion H; subst; auto].
    destruct (w <? n); [| inversion H; subst; auto].
    apply IH in H. simpl in H. exact H.
Qed.

Lemma outdent_to_keeps : forall s w s' r,
  outdent_to s w = (s', r) ->
  state_name s' = state_name s /\ bracket_count s' = bracket_count s /\
  min_bracket_count s' = min_bracket_count s.
Proof.
  intros s w s' r H. unfold outdent_to in H.
  destruct (outdent_loop _ _ _) as [s1 r1] eqn:L.
  apply outdent_loop_keeps in L.
  dmatch H; inversion H; subst; exact L.
Qed.

Lemma scan_step_indent_state : forall s s' r,
  (state_name s = Indent -> bracket_count s = 0) ->
  scan_step s = (s', r) ->
  (state_name s' = Indent -> bracket_count s' = 0) /\
  min_bracket_count s' = min_bracket_count s.
Proof.
  intros s s' r Inv H. unfold scan_step in H.
  destruct (scan_a_token s) as [s1 r1] eqn:S.
  destruct (scan_a_token_keeps _ _ _ S) as (_ & _ & Ks & Kb & Km & _).
  destruct r1 as [[txt [a |]] | e |].
  - destruct (scan_a_token_match _ _ _ _ S) as (re & k & Hin & _).
    destruct (perform a (set_text txt s1) txt) as [s3 r3] eqn:P.
    assert (G : (state_name s3 = Indent -> bracket_count s3 = 0) /\
                min_bracket_count s3 = min_bracket_count s).
    { destruct (state_name s) eqn:St; simpl in Hin;
        repeat (destruct Hin as [Hin | Hin]; [inversion Hin; subst re a; clear Hin |]);
        try contradiction; simpl in P;
        try (inversion P; subst; simpl; rewrite Ks, Km; split; [discriminate | reflexivity]).
      - unfold handle_close_bracket in P. simpl in P.
        destruct (_ <? _); inversion P; subst; simpl; rewrite Ks, Km;
          (split; [discriminate | reflexivity]).
      - unfold handle_newline in P. simpl in P.
        destruct (bracket_count s1 =? 0) eqn:B; inversion P; subst; simpl.
        + apply Nat.eqb_eq in B. auto.
        + rewrite Ks, Km. split; [discriminate | reflexivity].
      - unfold handle_comment in P. simpl in P.
        destruct (last_char txt); [destruct (bracket_count s1 =? 0) eqn:B |];
          inversion P; subst; simpl; try (apply Nat.eqb_eq in B); auto;
          rewrite Ks, Km; (split; [discriminate | reflexivity]).
      - specialize (Inv eq_refl).
        unfold handle_indentation in P. simpl in P.
        destruct (top (indents s1)); [| inversion P; subst; simpl; split; congruence].
        destruct (_ && _); [inversion P; subst; simpl; split; congruence |].
        destruct (_ <? _); [inversion P; subst; simpl; split; [discriminate | congruence] |].
        destruct (_ <? _); [| inversion P; subst; simpl; split; [discriminate | congruence]].
        destruct (outdent_to _ _) as [s4 r4] eqn:O.
        apply outdent_to_keeps in O. simpl in O. destruct O as (O1 & O2 & O3).
        destruct r4; inversion P; subst; simpl; split; try discriminate; congruence. }
    destruct r3 as [[v |] | e |]; inversion H; subst; simpl; exact G.
  - unfold eof in H. simpl in H.
    destruct (bracket_count s1 =? 0).
    + destruct (outdent_to _ _) as [s4 r4] eqn:O.
      apply outdent_to_keeps in O. simpl in O. destruct O as (O1 & O2 & O3).
      destruct r4; inversion H; subst; simpl; rewrite ?O1, ?O2, ?O3, Ks, Kb, Km; auto.
    + inversion H; subst; simpl. rewrite Ks, Kb, Km. auto.
  - inversion H; subst. rewrite Ks, Kb, Km. auto.
  - inversion H; subst. rewrite Ks, Kb, Km. auto.
Qed.

(** In every state of a scan: inside brackets the scanner is in the
    default state, and the floor of the bracket counter is the one set at
    the start. *)
Lemma scan_bracket_state : forall content name expression_only s out,
  scan_from (init content name expression_only) s out ->
  (0 < bracket_count s -> state_name s = Default) /\
  min_bracket_count s = (if expression_only then 1 else 0).
Proof.
  intros content name eo s out H.
  assert (G : (state_name s = Indent -> bracket_count s = 0) /\
              min_bracket_count s = (if eo then 1 else 0)).
  { induction H as [| s out s' r H [IH1 IH2] Hq Hs | s out t q H IH Hq].
    - destruct eo; simpl; split; auto; discriminate.
    - destruct (scan_step_indent_state _ _ _ IH1 Hs) as [A B].
      split; [exact A | congruence].
    - exact IH. }
  destruct G as [G1 G2]. split; [| exact G2].
  intros Hb. destruct (state_name s); [reflexivity |].
  specialize (G1 eq_refl). lia.
Qed.

(** C6.  At any point of a scan where the next character is a newline
    (pseudo characters: EOL and the newline, after a BOL when the line is
    empty so far): while the bracket counter is above 0 the round of [read]
    that scans the newline ends normally, consumes just the newline and
    produces nothing (no NEWLINE, INDENT or OUTDENT), leaving the state and
    the stack as they were; at depth 0 in the default state it produces
    exactly one NEWLINE and enters the 'indent' state.  In file mode a
    closing bracket at depth 1 brings the counter back to 0. *)
Theorem newline_inside_brackets : forall content name expression_only s out pre rest,
  scan_from (init content name expression_only) s out ->
  pending (inp s) = pre ++ EOL :: Ch nl :: rest ->
  pre = [] \/ pre = [BOL] ->
  (0 < bracket_count s ->
   snd (scan_step s) = Ok tt /\
   queue (fst (scan_step s)) = queue s /\
   state_name (fst (scan_step s)) = Default /\
   indents (fst (scan_step s)) = indents s /\
   bracket_count (fst (scan_step s)) = bracket_count s /\
   pending (inp (fst (scan_step s))) = rest) /\
  (bracket_count s = 0 -> state_name s = Default ->
   snd (scan_step s) = Ok tt /\
   queue (fst (scan_step s)) = queue s ++ [(Some "NEWLINE", VStr NL)] /\
   state_name (fst (scan_step s)) = Indent /\
   indents (fst (scan_step s)) = indents s /\
   pending (inp (fst (scan_step s))) = rest) /\
  (expression_only = false -> bracket_count s = 1 ->
   forall text, bracket_count (fst (handle_close_bracket s text)) = 0).
Proof.
  intros content name eo s out pre rest Hs P Hpre.
  destruct (scan_bracket_state _ _ _ _ _ Hs) as [Hdef Hmin].
  assert (Hrest : pending (advance_by (List.length pre + 2) (inp s)) = rest).
  { rewrite pending_advance_by, P. destruct Hpre; subst pre; reflexivity. }
  split; [| split].
  - intros Hb. specialize (Hdef Hb).
    unfold scan_step. rewrite (newline_scan s pre rest Hdef P Hpre).
    simpl. unfold handle_newline. simpl.
    replace (bracket_count s =? 0) with false by (symmetry; apply Nat.eqb_neq; lia).
    simpl. auto 10.
  - intros Hb St.
    unfold scan_step. rewrite (newline_scan s pre rest St P Hpre).
    simpl. unfold handle_newline. simpl. rewrite Hb. simpl. auto 10.
  - intros Eo Hb text. subst eo. unfold handle_close_bracket.
    rewrite Hmin, Hb. reflexivity.
Qed.

Lemma newline_inside_brackets_witness :
  let s0 := init ("(" ++ NL ++ ")" ++ NL)%string None false in
  let s3 := set_queue [] (fst (scan_step (fst (scan_step s0)))) in
  snd (scan_step s3) = Ok tt /\
  queue (fst (scan_step s3)) = queue s3 /\
  state_name (fst (scan_step s3)) = Default /\
  indents (fst (scan_step s3)) = indents s3 /\
  bracket_count (fst (scan_step s3)) = bracket_count s3 /\
  pending (inp (fst (scan_step s3))) = [BOL; Ch ")"%char; EOL; Ch nl; BOL; EOL; EOF].
Proof.
  intros s0 s3.
  set (s1 := fst (scan_step s0)). set (s2 := fst (scan_step s1)).
  assert (R1 : scan_from s0 s1 []).
  { apply (scan_round s0 s0 [] s1 (snd (scan_step s0))).
    - apply scan_start.
    - reflexivity.
    - apply surjective_pairing. }
  assert (R2 : scan_from s0 s2 []).
  { apply (scan_round s0 s1 [] s2 (snd (scan_step s1))).
    - exact R1.
    - vm_compute. reflexivity.
    - apply surjective_pairing. }
  assert (R3 : scan_from s0 s3 ([] ++ [(Some "(", VStr "(")])).
  { apply (scan_take s0 s2 [] (Some "(", VStr "(") []).
    - exact R2.
    - vm_compute. reflexivity. }
  destruct (newline_inside_brackets ("(" ++ NL ++ ")" ++ NL)%string None false s3 _ []
              [BOL; Ch ")"%char; EOL; Ch nl; BOL; EOL; EOF] R3) as [H _].
  - vm_compute. reflexivity.
  - left. reflexivity.
  - apply H. vm_compute. lia.
Defined.

End RawFacts.

(* ===================================================================== *)
(** * Facts about tokens                                                 *)
(* ===================================================================== *)

Module TokFacts.

Import Tok.

(** C9.  [display_name] returns the fixed name for the four structural
    types NEWLINE, INDENT, OUTDENT and EOF; for a token of any other type
    it raises [NameError] (the name [token] is not defined) instead of
    returning the token's value. *)
Theorem display_name_raises_NameError : forall t : Token,
  (type t = Some "NEWLINE" -> display_name t = Ok "newline") /\
  (type t = Some "INDENT" -> display_name t = Ok "indent") /\
  (type t = Some "OUTDENT" -> display_name t = Ok "outdent") /\
  (type t = Some "EOF" -> display_name t = Ok "end of file") /\
  (~ In (type t) [Some "NEWLINE"; Some "INDENT"; Some "OUTDENT"; Some "EOF"] ->
   display_name t = Raise (NameError "token")).
Proof.
  intros t. unfold display_name.
  repeat split; try (intros E; rewrite E; reflexivity).
  intros H.
  assert (N : forall name, In (Some name) [Some "NEWLINE"; Some "INDENT"; Some "OUTDENT"; Some "EOF"] ->
              type_eqb (type t) (Some name) = false).
  { intros name Hin. destruct (type_eqb (type t) (Some name)) eqn:E; auto.
    exfalso. apply H. destruct (type t) as [s |]; simpl in E; [| discriminate].
    apply String.eqb_eq in E. subst. exact Hin. }
  rewrite !N by (simpl; auto). reflexivity.
Qed.

Lemma display_name_raises_NameError_witness :
  display_name (mkToken (Some "IDENT") (VStr "a") None) = Raise (NameError "token") /\
  display_name (mkToken (Some "NUMBER") (VStr "1") None) = Raise (NameError "token") /\
  display_name (mkToken (Some "EOF") VNone None) = Ok "end of file".
Proof.
  split; [| split].
  - apply (display_name_raises_NameError (mkToken (Some "IDENT") (VStr "a") None)).
    simpl. intuition discriminate.
  - apply (display_name_raises_NameError (mkToken (Some "NUMBER") (VStr "1") None)).
    simpl. intuition discriminate.
  - apply (display_name_raises_NameError (mkToken (Some "EOF") VNone None)).
    reflexivity.
Defined.

Lemma value_eq_refl : forall (diag_eq : diagnostic -> diagnostic -> bool),
  (forall d, diag_eq d d = true) -> forall v, value_eq diag_eq v v = true.
Proof.
  intros diag_eq Hd [| s | n | d]; simpl; auto.
  - apply String.eqb_refl.
  - apply Nat.eqb_refl.
Qed.

(** C10.  [Token.__eq__] compares the pair (type, value) and nothing
    else: the outcome does not depend on the source ranges of the two
    tokens; tokens with the same type and value are equal whatever their
    ranges (given or [None]); and a token is equal to the 2-tuple of its
    type and value.  [diag_eq d d] holds because Python compares the items
    of tuples by identity first. *)
Theorem token_eq_ignores_range : forall (diag_eq : diagnostic -> diagnostic -> bool),
  (forall d, diag_eq d d = true) ->
  forall ty1 v1 ty2 v2 (r1 r2 r1' r2' : option SourceRange),
    Token_eq diag_eq (mkToken ty1 v1 r1) (PyToken (mkToken ty2 v2 r2))
    = Token_eq diag_eq (mkToken ty1 v1 r1') (PyToken (mkToken ty2 v2 r2')) /\
    Token_eq diag_eq (mkToken ty1 v1 r1) (PyToken (mkToken ty1 v1 r2)) = true /\
    Token_eq diag_eq (mkToken ty1 v1 r1) (PyTuple [type_value ty1; v1]) = true /\
    (Token_eq diag_eq (mkToken ty1 v1 r1) (PyToken (mkToken ty2 v2 r2)) = true ->
     value_eq diag_eq (type_value ty1) (type_value ty2) = true /\
     value_eq diag_eq v1 v2 = true).
Proof.
  intros diag_eq Hd ty1 v1 ty2 v2 r1 r2 r1' r2'.
  split; [reflexivity |]. simpl.
  rewrite !(value_eq_refl diag_eq Hd). simpl.
  split; [reflexivity |]. split; [reflexivity |].
  intros H. apply andb_true_iff in H as [H1 H2].
  apply andb_true_iff in H2 as [H2 _]. auto.
Qed.

Lemma token_eq_ignores_range_witness :
  let d := fun _ _ : diagnostic => true in
  let r := {| start := {| filename := None; line := 1; column := 1 |};
              end_ := {| filename := None; line := 1; column := 2 |} |} in
  Token_eq d (mkToken (Some "IDENT") (VStr "a") (Some r))
           (PyToken (mkToken (Some "IDENT") (VStr "a") None)) = true.
Proof.
  intros d r.
  exact (proj1 (proj2 (token_eq_ignores_range d (fun _ => eq_refl)
           (Some "IDENT") (VStr "a") (Some "IDENT") (VStr "a") (Some r) None None None))).
Defined.

End TokFacts.

(* ===================================================================== *)
(** * Facts about the lookahead scanner                                  *)
(* ===================================================================== *)

Module LookFacts.

Import Tok Look.

Local Open Scope nat_scope.

Lemma type_is_true : forall t name, type_is t name = true <-> type t = Some name.
Proof.
  intros t name. unfold type_is. destruct (type t) as [s |]; simpl.
  - rewrite String.eqb_eq. split; [intros; subst; reflexivity | intros E; inversion E; reflexivity].
  - split; discriminate.
Qed.

Lemma type_is_false : forall t name, type_is t name = false <-> type t <> Some name.
Proof.
  intros t name. rewrite <- type_is_true. destruct (type_is t name); split; congruence.
Qed.

(** ** [peek] and [read] *)

Lemma fetch_ok : forall raw raw' r,
  Raw.stack_ok (Raw.indents raw) ->
  Forall (fun t => Raw.raw_type_ok (fst t)) (Raw.queue raw) ->
  fetch raw = (raw', r) ->
  Raw.stack_ok (Raw.indents raw') /\
  Forall (fun t => Raw.raw_type_ok (fst t)) (Raw.queue raw') /\
  (forall t, r = Ok t -> Raw.raw_type_ok (fst t)).
Proof.
  intros raw raw' r Hok Hq H. unfold fetch in H.
  destruct (Raw.read raw) as [raw1 r1] eqn:R1.
  destruct (RawFacts.read_loop_ok _ _ _ _ Hok Hq R1) as (A & B & _ & D).
  destruct r1 as [[[ty |] v] | e |];
    try (inversion H; subst; split; [exact A |]; split; [exact B | exact D]).
  destruct (RawFacts.read_loop_ok _ _ _ _ A B H) as (A' & B' & _ & D').
  split; [exact A' |]. split; [exact B' | exact D'].
Qed.

Lemma convert_type : forall raw tok t, convert raw tok = Ok t -> type t = fst tok.
Proof.
  intros raw [ty v] t H. unfold convert in H.
  destruct (Raw.position raw) as [[f l] c].
  destruct (if is_structural _ then _ else _); inversion H. reflexivity.
Qed.

(** What [peek] returns is what is peeked afterwards. *)
Lemma peek_peeked : forall s s1 t, peek s = (s1, Ok t) -> peeked s1 = Some t.
Proof.
  intros s s1 t H. unfold peek in H.
  destruct (peeked s) eqn:P; [inversion H; subst; exact P |].
  destruct (force_eof s); [inversion H; subst; reflexivity |].
  destruct (fetch (raw_scanner s)) as [raw [tok | e |]].
  - destruct (convert raw tok); inversion H; subst; reflexivity.
  - destruct e; inversion H; subst; reflexivity.
  - inversion H.
Qed.

(** [peek] is idempotent. *)
Lemma peek_again : forall s s1 t, peek s = (s1, Ok t) -> peek s1 = (s1, Ok t).
Proof.
  intros s s1 t H. apply peek_peeked in H. unfold peek. rewrite H. reflexivity.
Qed.

Lemma peek_wf : forall s, wf s -> wf (fst (peek s)).
Proof.
  intros s (Hok & Hq & He & Hf). unfold peek.
  destruct (peeked s) as [t |] eqn:P.
  { simpl. unfold wf. rewrite P. auto. }
  destruct (force_eof s) eqn:F.
  { simpl. unfold wf; simpl. split; [exact Hok |]. split; [exact Hq |]. split.
    - intros t E. inversion E; subst. discriminate.
    - intros _. apply Hf. reflexivity. }
  destruct (fetch (raw_scanner s)) as [raw r] eqn:Fe.
  destruct (fetch_ok _ _ _ Hok Hq Fe) as (A & B & C).
  assert (Plain : forall p, wf {| raw_scanner := raw; peeked := p; peeking := false;
                                  last_token := last_token s; force_eof := false |} <->
                            (forall t, p = Some t -> type t <> Some "ERROR")).
  { intros p. unfold wf; simpl. split.
    - intros (_ & _ & E & _) t Ep Et. destruct (E t Ep Et). discriminate.
    - intros N. repeat (split; [assumption |]). split; [| discriminate].
      intros t Ep Et. destruct (N t Ep Et). }
  assert (Err : forall d, lexical (VDiag d) ->
            wf {| raw_scanner := raw; peeked := Some (error_token d); peeking := false;
                  last_token := last_token s; force_eof := true |}).
  { intros d L. unfold wf; simpl. repeat (split; [assumption |]). split; [| reflexivity].
    intros t E _. inversion E; subst. split; [reflexivity | exact L]. }
  destruct r as [tok | e |].
  - destruct (convert raw tok) as [t | e |] eqn:Cv; simpl; apply Plain; try discriminate.
    intros t' E. inversion E; subst.
    rewrite (convert_type _ _ _ Cv). apply RawFacts.raw_type_ok_not_error.
    apply C. reflexivity.
  - destruct e; simpl; try (apply Plain; discriminate); apply Err.
    + eexists; left; reflexivity.
    + eexists; right; reflexivity.
  - simpl. apply Plain. discriminate.
Qed.

Lemma read_wf : forall s, wf s -> wf (fst (read s)).
Proof.
  intros s H. unfold read.
  pose proof (peek_wf s H) as W.
  destruct (peek s) as [s1 [t | e |]] eqn:P; simpl in *; try exact W.
  apply peek_peeked in P. destruct W as (A & B & C & D).
  unfold wf; simpl. repeat (split; [assumption |]). split; [discriminate |].
  intros F. specialize (D F). rewrite P in D. exact D.
Qed.

(** Every reachable state is well formed. *)
Lemma reachable_wf : forall s, reachable s -> wf s.
Proof.
  induction 1 as [content name eo | s o H IH].
  - unfold wf, init; simpl. split; [apply RawFacts.stack_ok_init |].
    split; [constructor |]. split; discriminate.
  - destruct o; simpl; [apply peek_wf | apply read_wf]; exact IH.
Qed.

(** Past the error every call returns an EOF token, and stays past the
    error. *)
Lemma past_error_op : forall s o,
  past_error s ->
  (exists t, snd (run_op o s) = Ok t /\ type t = Some "EOF") /\
  past_error (fst (run_op o s)).
Proof.
  intros s o [F [P | (t & P & T)]]; destruct o; simpl; unfold read, peek; rewrite P;
    try rewrite F; simpl; unfold past_error; simpl; eauto 10.
Qed.

Lemma past_error_ops : forall ops s,
  past_error s ->
  Forall (fun r => exists t, r = Ok t /\ type t = Some "EOF") (snd (run_ops ops s)).
Proof.
  induction ops as [| o ops IH]; intros s H; simpl; [constructor |].
  destruct (past_error_op s o H) as [(t & E & T) H1].
  destruct (run_op o s) as [s1 x]; simpl in *.
  specialize (IH s1 H1). destruct (run_ops ops s1) as [s2 xs]; simpl in *.
  constructor; [exists t; auto | exact IH].
Qed.

(** In a reachable state [peek] and [read] return a token or raise: the
    raw scanner never runs out of rounds. *)
Lemma scanner_peek_answers : forall s, reachable s -> snd (peek s) <> NoFuel.
Proof.
  intros s Hr. destruct (reachable_wf _ Hr) as (Hok & Hq & _).
  unfold peek. destruct (peeked s); [discriminate |].
  destruct (force_eof s); [discriminate |].
  assert (F : snd (fetch (raw_scanner s)) <> NoFuel).
  { unfold fetch. destruct (Raw.read (raw_scanner s)) as [raw1 r1] eqn:R1.
    pose proof (RawFacts.read_answers _ Hok) as A1. rewrite R1 in A1. simpl in A1.
    destruct (RawFacts.read_loop_ok _ _ _ _ Hok Hq R1) as (Hok1 & _).
    destruct r1 as [[[ty |] v] | e |]; try exact A1; try discriminate.
    apply RawFacts.read_answers. exact Hok1. }
  destruct (fetch (raw_scanner s)) as [raw [tok | e |]]; simpl in F.
  - unfold convert. destruct (Raw.position raw) as [[f l] c].
    destruct (is_structural (fst tok)); [discriminate |].
    destruct (snd tok); simpl; discriminate.
  - destruct e; discriminate.
  - contradiction.
Qed.

Lemma scanner_read_answers : forall s, reachable s -> snd (read s) <> NoFuel.
Proof.
  intros s Hr. pose proof (scanner_peek_answers s Hr) as A. unfold read.
  destruct (peek s) as [s1 [t | e |]]; simpl in *; try discriminate. contradiction.
Qed.

(** ** After a lexical error *)

(** C1 (as amended).  In every reachable state, once [peek()] returns an
    ERROR token, [peek()] keeps returning that very token until [read()]
    consumes it ([read()] returns it too); every [peek()] or [read()] after
    that returns a token of type EOF. *)
Theorem error_then_eof : forall self self1 tok,
  reachable self ->
  peek self = (self1, Ok tok) ->
  type tok = Some "ERROR" ->
  peek self1 = (self1, Ok tok) /\
  exists self2,
    read self1 = (self2, Ok tok) /\
    forall ops,
      Forall (fun r => exists t, r = Ok t /\ type t = Some "EOF") (snd (run_ops ops self2)).
Proof.
  intros self self1 tok Hr Hp Ht.
  pose proof (peek_again _ _ _ Hp) as Hp1.
  split; [exact Hp1 |].
  assert (W : wf self1).
  { replace self1 with (fst (peek self)) by (rewrite Hp; reflexivity).
    apply peek_wf. apply reachable_wf. exact Hr. }
  destruct W as (_ & _ & He & _).
  destruct (He tok (peek_peeked _ _ _ Hp) Ht) as [F _].
  unfold read. rewrite Hp1. eexists. split; [reflexivity |].
  intros ops. apply past_error_ops. split; simpl; auto.
Qed.

Lemma error_then_eof_witness :
  let self := init "@" None false in
  let tok := error_token (InvalidCharacter {| filename := None; line := 1; column := 1 |}) in
  let self1 := fst (peek self) in
  peek self1 = (self1, Ok tok) /\
  exists self2,
    read self1 = (self2, Ok tok) /\
    forall ops,
      Forall (fun r => exists t, r = Ok t /\ type t = Some "EOF") (snd (run_ops ops self2)).
Proof.
  intros self tok self1.
  apply (error_then_eof self self1 tok).
  - apply reach_init.
  - vm_compute. reflexivity.
  - reflexivity.
Defined.

(** C1 as stated fails: on the input ["@"] the first [peek()] returns an
    ERROR token, and the [peek()] and the [read()] that follow return that
    ERROR token again, not an EOF token. *)
Lemma error_is_peeked_again :
  let self := init "@" None false in
  let self1 := fst (peek self) in
  (exists t, snd (peek self) = Ok t /\ type t = Some "ERROR") /\
  (exists t, snd (peek self1) = Ok t /\ type t = Some "ERROR" /\ type t <> Some "EOF") /\
  (exists t, snd (read self1) = Ok t /\ type t = Some "ERROR" /\ type t <> Some "EOF").
Proof.
  vm_compute. repeat split; eexists; repeat split; try reflexivity; discriminate.
Qed.

(** In every reachable state with [force_eof] set and nothing peeked, the
    EOF token [peek()] makes up has no source range: the last token is the
    ERROR token, which was built without one, or an earlier such EOF. *)
Lemma forced_eof_has_no_range : forall self,
  reachable self -> force_eof self = true -> peeked self = None ->
  snd (peek self) = Ok (mkToken (Some "EOF") VNone None).
Proof.
  intros self Hr F P. destruct (reachable_wf _ Hr) as (_ & _ & _ & D).
  specialize (D F). rewrite P in D.
  unfold peek. rewrite P, F. simpl. rewrite D. reflexivity.
Qed.

(** C3 at the input ["a @"]: the token [a] is read with the range 1:1 to
    1:2, the ERROR token is read next, and the EOF token peeked after it
    has no source range at all (it is not the range of [a]). *)
Lemma synthetic_eof_has_no_range :
  let self := init "a @" None false in
  let self1 := fst (read self) in
  let self2 := fst (read self1) in
  snd (read self)
  = Ok (mkToken (Some "IDENT") (VStr "a")
          (Some {| start := {| filename := None; line := 1; column := 1 |};
                   end_ := {| filename := None; line := 1; column := 2 |} |})) /\
  snd (read self1)
  = Ok (error_token (InvalidCharacter {| filename := None; line := 1; column := 3 |})) /\
  force_eof self2 = true /\
  snd (peek self2) = Ok (mkToken (Some "EOF") VNone None).
Proof.
  vm_compute. repeat split.
Qed.

(** ** The [require_*] methods *)

Lemma on_peek_at : forall test s s1 t,
  peek s = (s1, Ok t) -> on_peek test s = (s1, Ok (test t)).
Proof. intros test s s1 t H. unfold on_peek. rewrite H. reflexivity. Qed.

Lemma require_on_peek : forall test w s s1 t,
  peek s = (s1, Ok t) ->
  require (on_peek test) w s =
    if test t then read s
    else if type_is t "ERROR" then (s1, Raise (Raised (value t)))
         else (s1, Raise (Raised (VDiag (UnexpectedToken w t)))).
Proof.
  intros test w s s1 t H. pose proof (peek_again _ _ _ H) as H1.
  unfold require. rewrite (on_peek_at test _ _ _ H).
  destruct (test t).
  - unfold read. rewrite H, H1. reflexivity.
  - unfold raise_if_next_is_error, next_is_error.
    rewrite (on_peek_at _ _ _ _ H1).
    destruct (type_is t "ERROR"); rewrite H1; reflexivity.
Qed.

(** C7.  For each of the six [require_*] methods, in a reachable state
    where [peek()] yields the token [tok]: the method's check
    ([next_is_*]) yields a boolean; when it holds the method is [read()],
    which returns [tok] and consumes it (afterwards nothing is peeked,
    [tok] is the last token, and the raw scanner is where [peek()] left
    it); when it fails and [tok] is an ERROR
    token the method raises the value of [tok], a lexical diagnostic
    ([InvalidCharacter] or [InvalidIndentation]); when it fails and [tok]
    is any other token the method raises [UnexpectedToken] carrying the
    wanted token and [tok]. *)
Theorem require_reports : forall q self self1 tok,
  reachable self ->
  peek self = (self1, Ok tok) ->
  exists b,
    next_is q self = (self1, Ok b) /\
    (b = true ->
     require_ q self = read self /\
     exists self2,
       read self = (self2, Ok tok) /\
       peeked self2 = None /\ last_token self2 = tok /\
       raw_scanner self2 = raw_scanner self1) /\
    (b = false -> type tok = Some "ERROR" ->
     lexical (value tok) /\ require_ q self = (self1, Raise (Raised (value tok)))) /\
    (b = false -> type tok <> Some "ERROR" ->
     require_ q self
     = (self1, Raise (Raised (VDiag (UnexpectedToken (wanted q) tok))))).
Proof.
  intros q self self1 tok Hr Hp.
  assert (L : type tok = Some "ERROR" -> lexical (value tok)).
  { intros Ht.
    assert (W : wf self1).
    { replace self1 with (fst (peek self)) by (rewrite Hp; reflexivity).
      apply peek_wf. apply reachable_wf. exact Hr. }
    destruct W as (_ & _ & He & _).
    destruct (He tok (peek_peeked _ _ _ Hp) Ht) as [_ Lx]. exact Lx. }
  assert (G : forall test w,
            exists b, on_peek test self = (self1, Ok b) /\
            (b = true -> require (on_peek test) w self = read self /\
                         exists self2,
                           read self = (self2, Ok tok) /\
                           peeked self2 = None /\ last_token self2 = tok /\
                           raw_scanner self2 = raw_scanner self1) /\
            (b = false -> type tok = Some "ERROR" ->
             lexical (value tok) /\
             require (on_peek test) w self = (self1, Raise (Raised (value tok)))) /\
            (b = false -> type tok <> Some "ERROR" ->
             require (on_peek test) w self
             = (self1, Raise (Raised (VDiag (UnexpectedToken w tok)))))).
  { intros test w. exists (test tok).
    split; [apply on_peek_at; exact Hp |].
    rewrite (require_on_peek test w _ _ _ Hp).
    split; [| split].
    - intros E. rewrite E. split; [reflexivity |].
      unfold read. rewrite Hp. eexists. repeat split; reflexivity.
    - intros E Ht. rewrite E. apply type_is_true in Ht. rewrite Ht.
      split; [apply L; apply type_is_true; exact Ht | reflexivity].
    - intros E Ht. rewrite E. apply type_is_false in Ht. rewrite Ht. reflexivity. }
  destruct q; simpl; apply G.
Qed.

Lemma require_reports_witness :
  let self := init "@" None false in
  let d := VDiag (InvalidCharacter {| filename := None; line := 1; column := 1 |}) in
  let other := init "ab cd" None false in
  let ab := mkToken (Some "IDENT") (VStr "ab")
              (Some {| start := {| filename := None; line := 1; column := 1 |};
                       end_ := {| filename := None; line := 1; column := 3 |} |}) in
  require_punct "=" self = (fst (peek self), Raise (Raised d)) /\
  (require_ (Keyword "ab") other = read other /\
   exists self2,
     read other = (self2, Ok ab) /\
     peeked self2 = None /\ last_token self2 = ab /\
     raw_scanner self2 = raw_scanner (fst (peek other))).
Proof.
  intros self d other ab. split.
  - destruct (require_reports (Punct "=") self (fst (peek self))
                (mkToken (Some "ERROR") d None) (reach_init "@" None false))
      as (b & Hb & _ & He & _).
    + vm_compute. reflexivity.
    + assert (Eb : b = false).
      { vm_compute in Hb. inversion Hb. reflexivity. }
      destruct (He Eb eq_refl) as [_ R]. exact R.
  - destruct (require_reports (Keyword "ab") other (fst (peek other)) ab
                (reach_init "ab cd" None false))
      as (b & Hb & Ht & _).
    + vm_compute. reflexivity.
    + assert (E : snd (next_is (Keyword "ab") other) = Ok true)
        by (vm_compute; reflexivity).
      rewrite Hb in E. cbn [snd] in E.
      assert (Eb : b = true) by (inversion E; reflexivity).
      exact (Ht Eb).
Defined.

(** ** A first example *)

Lemma read_until_eof_unfold : forall n self,
  read_until_eof (S n) self =
  match read self with
  | (self1, Ok t) => if type_is t "EOF" then [t] else t :: read_until_eof n self1
  | _ => []
  end.
Proof. reflexivity. Qed.

Ltac read_one :=
  rewrite read_until_eof_unfold;
  match goal with
  | |- context [read ?s] =>
      let r := eval vm_compute in (read s) in
      replace (read s) with r by (vm_compute; reflexivity)
  end;
  cbv beta iota;
  match goal with
  | |- context [type_is ?t "EOF"] =>
      let b := eval vm_compute in (type_is t "EOF") in
      replace (type_is t "EOF") with b by (vm_compute; reflexivity)
  end;
  cbv beta iota.

(** C8 (as amended).  For the input [a = 1] followed by a newline, in file
    mode, the tokens of repeated [read()] calls up to the EOF token are:
    IDENT [a], the punctuation token [=], NUMBER [1], the NEWLINE of the
    line break, a second NEWLINE (the one [eof()] always produces), and
    EOF; there is no INDENT and no OUTDENT. *)
Theorem a_equals_1_tokens : forall k,
  map type_and_value
      (read_until_eof (6 + k) (init ("a = 1" ++ Raw.NL)%string None false))
  = [ (Some "IDENT", VStr "a"); (Some "=", VStr "="); (Some "NUMBER", VStr "1");
      (Some "NEWLINE", VStr Raw.NL); (Some "NEWLINE", VStr Raw.NL);
      (Some "EOF", VStr "") ].
Proof.
  intros k. change (6 + k) with (S (S (S (S (S (S k)))))).
  do 6 read_one. reflexivity.
Qed.

(** C8 as stated fails: the tokens are not IDENT, [=], NUMBER, one
    NEWLINE, EOF. *)
Lemma a_equals_1_has_two_newlines :
  map type_and_value
      (read_until_eof 10 (init ("a = 1" ++ Raw.NL)%string None false))
  <> [ (Some "IDENT", VStr "a"); (Some "=", VStr "="); (Some "NUMBER", VStr "1");
       (Some "NEWLINE", VStr Raw.NL); (Some "EOF", VStr "") ].
Proof.
  vm_compute. intros H. discriminate H.
Qed.

(** ** Two more runs *)

(** A newline inside an open bracket produces no token: the tokens of
    [f(1,], newline, [2)], newline. *)
Lemma bracketed_newline_tokens :
  map type_and_value
      (read_until_eof 12
         (init ("f(1," ++ Raw.NL ++ "2)" ++ Raw.NL)%string None false))
  = [ (Some "IDENT", VStr "f"); (Some "(", VStr "("); (Some "NUMBER", VStr "1");
      (Some ",", VStr ","); (Some "NUMBER", VStr "2"); (Some ")", VStr ")");
      (Some "NEWLINE", VStr Raw.NL); (Some "NEWLINE", VStr Raw.NL);
      (Some "EOF", VStr "") ].
Proof. vm_compute. reflexivity. Qed.

(** A line indented by 3 after a block indented by 4: the ERROR token
    carries [InvalidIndentation] at the start of that line (column 1), the
    position of the indentation that was scanned. *)
Lemma dedent_error_location :
  map type_and_value
      (read_until_eof 12
         (init ("x:" ++ Raw.NL ++ "    y" ++ Raw.NL ++ "   z" ++ Raw.NL)%string None false))
  = [ (Some "IDENT", VStr "x"); (Some ":", VStr ":"); (Some "NEWLINE", VStr Raw.NL);
      (Some "INDENT", VInt 4); (Some "IDENT", VStr "y"); (Some "NEWLINE", VStr Raw.NL);
      (Some "ERROR",
       VDiag (InvalidIndentation {| filename := None; line := 3; column := 1 |}));
      (Some "EOF", VNone) ].
Proof. vm_compute. reflexivity. Qed.

End LookFacts.

(* ===================================================================== *)
(** * Facts about string literals                                        *)
(* ===================================================================== *)

Module LitFacts.

Import Plex Tok Raw Lit PlexFacts RawFacts.

Local Open Scope nat_scope.

(** ** The machine of [string_literal] *)

Lemma literal_machine :
  build string_literal true = MSeq (MSeq Q (MAlt (MSeq X LOOP) MEps)) Q.
Proof. vm_compute. reflexivity. Qed.

Lemma after_opening_quote :
  advance (Ch dq) (advance BOL (lexicon Default)) = solo 1 B0 /\
  advance (Ch dq) (lexicon Default) = solo 1 B0.
Proof. vm_compute. auto. Qed.

(** The moves on the characters that are fixed. *)
Lemma literal_moves :
  der (Ch bs) B0 = Besc /\ der (Ch bs) B1 = Besc /\ der (Ch bs) Bbol = Besc /\
  der EOL B0 = Beol /\ der EOL B1 = Beol /\ der EOL Bbol = Beol /\
  der (Ch nl) Beol = B1 /\ der BOL B1 = Bbol /\
  der (Ch dq) B0 = MEps /\ der (Ch dq) B1 = MEps /\ der (Ch dq) Bbol = MEps.
Proof. vm_compute. repeat split. Qed.

Lemma plain_values : forall c,
  c <> bs -> c <> dq -> c <> nl ->
  p_bs (Ch c) = false /\ p_any (Ch c) = true /\ p_quote (Ch c) = false /\
  is_nl (Ch c) = false.
Proof.
  intros c Hb Hq Hn.
  assert (E1 : Ascii.eqb bs c = false) by (apply Ascii.eqb_neq; congruence).
  assert (E2 : Ascii.eqb dq c = false) by (apply Ascii.eqb_neq; congruence).
  assert (E3 : Ascii.eqb c nl = false) by (apply Ascii.eqb_neq; congruence).
  assert (E4 : Ascii.eqb c bs = false) by (apply Ascii.eqb_neq; congruence).
  assert (E5 : Ascii.eqb c dq = false) by (apply Ascii.eqb_neq; congruence).
  unfold p_bs, p_any, p_quote, is_nl, plain. simpl mem_chars.
  fold bs. fold dq.
  rewrite E1, E2, E3, E4, E5. auto.
Qed.

Ltac crunch :=
  repeat (cbn [der accepts_empty andb orb mseq malt is_bol is_eol];
          repeat match goal with
                 | H : _ (Ch _) = _ |- _ => rewrite H
                 end).

(** The moves on a character that is neither a backslash, a double quote
    nor a newline. *)
Lemma plain_moves : forall c,
  c <> bs -> c <> dq -> c <> nl ->
  der (Ch c) B0 = B1 /\ der (Ch c) B1 = B1 /\ der (Ch c) Bbol = B1.
Proof.
  intros c Hb Hq Hn.
  destruct (plain_values c Hb Hq Hn) as (V1 & V2 & V3 & V4).
  unfold B0, B1, Bbol, LOOP, Q, Q', X, X', newline_m, MOpt.
  repeat split; crunch; reflexivity.
Qed.

Lemma escape_values : forall c,
  mem_chars escapes c = true -> p_esc (Ch c) = true /\ c <> nl.
Proof.
  intros c H.
  assert (N : c <> nl).
  { intros E. subst c. vm_compute in H. discriminate H. }
  split; [| exact N].
  unfold p_esc, plain. rewrite H.
  replace (Ascii.eqb c nl) with false by (symmetry; apply Ascii.eqb_neq; exact N).
  reflexivity.
Qed.

(** The move on a character allowed after a backslash. *)
Lemma escape_moves : forall c, mem_chars escapes c = true -> der (Ch c) Besc = B1.
Proof.
  intros c H. destruct (escape_values c H) as [V _].
  unfold Besc, B1, LOOP, Q, X, X', newline_m, MOpt.
  crunch. reflexivity.
Qed.

(** ** Running with only the string pattern alive *)

Lemma solo_accepting : forall m,
  accepting (solo 1 m) = if accepts_empty m then Some (Return "STRINGLIT") else None.
Proof. intros m. unfold accepting, solo. simpl. destruct (accepts_empty m); reflexivity. Qed.

Lemma solo_advance : forall x m, advance x (solo 1 m) = solo 1 (der x m).
Proof. reflexivity. Qed.

Lemma solo_blocked : forall m, blocked (solo 1 m) = dead m.
Proof. intros m. unfold blocked, solo. simpl. apply andb_true_r. Qed.

Lemma solo_step : forall m x rest n bk,
  accepts_empty m = false -> dead (der x m) = false ->
  run_machine (solo 1 m) (x :: rest) n bk
  = run_machine (solo 1 (der x m)) rest (S n) bk.
Proof.
  intros m x rest n bk A D.
  rewrite run_machine_cons, solo_accepting, A, solo_advance, solo_blocked, D.
  reflexivity.
Qed.

Lemma quote_closes : forall rest n bk,
  run_machine (solo 1 MEps) rest n bk = (Some (Return "STRINGLIT", n), n).
Proof. intros [| x rest] n bk; reflexivity. Qed.

Lemma between_open : forall m, between m -> accepts_empty m = false /\ dead m = false.
Proof. intros m [E | [E | E]]; subst m; split; reflexivity. Qed.

Lemma inner_open :
  accepts_empty Besc = false /\ dead Besc = false /\
  accepts_empty Beol = false /\ dead Beol = false /\ dead MEps = false.
Proof. repeat split. Qed.

(** The body of a literal and its closing quote are read to the end, and
    the match stops there. *)
Lemma body_run : forall us,
  Forall accepted_piece us ->
  forall m n bk rest,
    between m ->
    run_machine (solo 1 m) (body_syms us ++ Ch dq :: rest) n bk
    = (Some (Return "STRINGLIT", n + List.length (body_syms us) + 1),
       n + List.length (body_syms us) + 1).
Proof.
  destruct literal_moves as (M1 & M2 & M3 & M4 & M5 & M6 & M7 & M8 & M9 & M10 & M11).
  destruct inner_open as (I1 & I2 & I3 & I4 & I5).
  induction us as [| u us IH]; intros Hus m n bk rest Hm.
  - cbn [body_syms app List.length]. destruct (between_open m Hm) as [A D].
    rewrite solo_step; [| exact A |].
    + replace (der (Ch dq) m) with MEps
        by (destruct Hm as [E | [E | E]]; subst m; symmetry; assumption).
      rewrite quote_closes. f_equal; [f_equal; f_equal |]; lia.
    + destruct Hm as [E | [E | E]]; subst m; rewrite ?M9, ?M10, ?M11; reflexivity.
  - inversion Hus as [| u' us' Hu Hus']; subst.
    destruct (between_open m Hm) as [A D].
    assert (B1b : between B1) by (right; left; reflexivity).
    assert (Bbb : between Bbol) by (right; right; reflexivity).
    cbn [body_syms]. rewrite <- app_assoc.
    destruct u as [c | c]; cbn [piece_syms].
    + (* a backslash and the character after it *)
      cbn [app].
      assert (E1 : der (Ch bs) m = Besc)
        by (destruct Hm as [E | [E | E]]; subst m; assumption).
      rewrite solo_step; [| exact A | rewrite E1; exact I2]. rewrite E1.
      simpl in Hu. pose proof (escape_moves c Hu) as E2.
      rewrite solo_step; [| exact I1 | rewrite E2; reflexivity]. rewrite E2.
      rewrite (IH Hus' B1 _ _ _ B1b).
      rewrite ?length_app; cbn [List.length]. f_equal; [f_equal; f_equal |]; lia.
    + destruct Hu as [Hb Hq].
      destruct (Ascii.eqb c nl) eqn:En.
      * (* a newline: EOL, the newline, BOL *)
        cbn [app].
        assert (E1 : der EOL m = Beol)
          by (destruct Hm as [E | [E | E]]; subst m; assumption).
        rewrite solo_step; [| exact A | rewrite E1; exact I4]. rewrite E1.
        rewrite solo_step; [| exact I3 | rewrite M7; reflexivity]. rewrite M7.
        rewrite solo_step; [| reflexivity | rewrite M8; reflexivity]. rewrite M8.
        rewrite (IH Hus' Bbol _ _ _ Bbb).
        rewrite ?length_app; cbn [List.length]. f_equal; [f_equal; f_equal |]; lia.
      * (* any other character *)
        cbn [app]. apply Ascii.eqb_neq in En.
        destruct (plain_moves c Hb Hq En) as (P0 & P1 & P2).
        assert (E1 : der (Ch c) m = B1)
          by (destruct Hm as [E | [E | E]]; subst m; assumption).
        rewrite solo_step; [| exact A | rewrite E1; reflexivity]. rewrite E1.
        rewrite (IH Hus' B1 _ _ _ B1b).
        rewrite ?length_app; cbn [List.length]. f_equal; [f_equal; f_equal |]; lia.
Qed.

(** ** From the text of a literal to the pseudo characters *)

Lemma list_ascii_app : forall a b,
  list_ascii_of_string (a ++ b)%string = list_ascii_of_string a ++ list_ascii_of_string b.
Proof.
  induction a as [| c a IH]; intros b; simpl; [reflexivity |]. rewrite IH. reflexivity.
Qed.

Lemma chars_of_app : forall a b, chars_of (a ++ b) = (chars_of a ++ chars_of b)%string.
Proof.
  induction a as [| x a IH]; intros b; simpl; [reflexivity |].
  destruct x; simpl; rewrite ?IH; reflexivity.
Qed.

Lemma expand_body : forall us r,
  Forall accepted_piece us ->
  expand (list_ascii_of_string (body_text us) ++ r) = body_syms us ++ expand r.
Proof.
  induction us as [| u us IH]; intros r H; [reflexivity |].
  inversion H as [| u' us' Hu Hus]; subst.
  cbn [body_text body_syms]. rewrite list_ascii_app, <- !app_assoc.
  destruct u as [c | c]; cbn [piece_text piece_syms list_ascii_of_string app expand].
  - destruct (escape_values c Hu) as [_ N].
    replace (Ascii.eqb bs nl) with false by reflexivity.
    replace (Ascii.eqb c nl) with false by (symmetry; apply Ascii.eqb_neq; exact N).
    rewrite IH by assumption. reflexivity.
  - destruct (Ascii.eqb c nl) eqn:E; rewrite IH by assumption; [| reflexivity].
    apply Ascii.eqb_eq in E. subst c. reflexivity.
Qed.

Lemma expand_literal : forall us cs,
  Forall accepted_piece us ->
  expand (list_ascii_of_string (literal us) ++ cs)
  = Ch dq :: body_syms us ++ Ch dq :: expand cs.
Proof.
  intros us cs H. unfold literal. cbn [list_ascii_of_string app expand].
  replace (Ascii.eqb dq nl) with false by reflexivity.
  rewrite list_ascii_app, <- app_assoc, expand_body by assumption.
  reflexivity.
Qed.

Lemma chars_of_body : forall us, chars_of (body_syms us) = body_text us.
Proof.
  induction us as [| u us IH]; [reflexivity |].
  cbn [body_syms body_text]. rewrite chars_of_app, IH.
  destruct u as [c | c]; cbn [piece_syms piece_text]; [reflexivity |].
  destruct (Ascii.eqb c nl) eqn:E; [| reflexivity].
  apply Ascii.eqb_eq in E. subst c. reflexivity.
Qed.

Lemma chars_of_literal : forall us,
  chars_of (Ch dq :: body_syms us ++ [Ch dq]) = literal us.
Proof.
  intros us. cbn [chars_of]. rewrite chars_of_app, chars_of_body. reflexivity.
Qed.

(** ** Scanning a literal *)

(** In the default state, with a literal next in the input (after a BOL at
    the start of a line), the string pattern matches the whole literal and
    nothing longer, whatever follows. *)
Lemma literal_run : forall us pre rest,
  Forall accepted_piece us ->
  pre = [] \/ pre = [BOL] ->
  run_machine (lexicon Default) (pre ++ Ch dq :: body_syms us ++ Ch dq :: rest) 0 None
  = (Some (Return "STRINGLIT", List.length pre + List.length (body_syms us) + 2),
     List.length pre + List.length (body_syms us) + 2).
Proof.
  intros us pre rest Hus Hpre.
  destruct after_opening_quote as [Q1 Q2].
  assert (B : between B0) by (left; reflexivity).
  destruct Hpre; subst pre; cbn [app List.length].
  - rewrite run_machine_cons, default_not_nullable, Q2, solo_blocked. cbv zeta.
    replace (dead B0) with false by reflexivity.
    rewrite (body_run us Hus B0 1 None rest B).
    f_equal; [f_equal; f_equal |]; lia.
  - destruct default_after_bol as [D1 D2].
    rewrite run_machine_cons, default_not_nullable, D1. cbv zeta.
    rewrite run_machine_cons, D2, Q1, solo_blocked. cbv zeta.
    replace (dead B0) with false by reflexivity.
    rewrite (body_run us Hus B0 2 None rest B).
    f_equal; [f_equal; f_equal |]; lia.
Qed.

Lemma firstn_exact : forall (A : Type) (a b : list A) n,
  n = List.length a -> firstn n (a ++ b) = a /\ skipn n (a ++ b) = b.
Proof.
  intros A a b n E. subst n. split.
  - rewrite firstn_app, Nat.sub_diag, firstn_all. simpl. apply app_nil_r.
  - rewrite skipn_app, Nat.sub_diag, skipn_all. reflexivity.
Qed.

Lemma literal_scan : forall us s pre cs,
  Forall accepted_piece us ->
  state_name s = Default ->
  pre = [] \/ pre = [BOL] ->
  pending (inp s) = pre ++ expand (list_ascii_of_string (literal us) ++ cs) ->
  exists k,
    pending (advance_by k (inp s)) = expand cs /\
    scan_a_token s =
      (set_inp (advance_by k (inp s))
         (set_start (cur_pos (inp s)) (cur_line (inp s))
            (cur_pos (inp s) - cur_line_start (inp s)) s),
       Ok (literal us, Some (Return "STRINGLIT"))).
Proof.
  intros us s pre cs Hus St Hpre P.
  rewrite (expand_literal us cs Hus) in P.
  set (k := List.length pre + List.length (body_syms us) + 2).
  assert (Hk : k = List.length (pre ++ Ch dq :: body_syms us ++ [Ch dq])).
  { unfold k. rewrite length_app. cbn [List.length]. rewrite length_app.
    cbn [List.length]. lia. }
  assert (Sp : pending (inp s) = (pre ++ Ch dq :: body_syms us ++ [Ch dq]) ++ expand cs).
  { rewrite P, <- !app_assoc. cbn [app]. rewrite <- app_assoc. reflexivity. }
  destruct (firstn_exact _ _ (expand cs) k Hk) as [F1 F2].
  assert (R : run_machine (lexicon Default) (pending (inp s)) 0 None
              = (Some (Return "STRINGLIT", k), k)).
  { rewrite P. apply literal_run; assumption. }
  exists k. split.
  - rewrite pending_advance_by, Sp. exact F2.
  - unfold scan_a_token. cbv zeta. rewrite St, R, Sp, F1.
    rewrite chars_of_app.
    replace (chars_of pre) with EmptyString by (destruct Hpre; subst pre; reflexivity).
    cbn [append]. rewrite chars_of_literal. reflexivity.
Qed.

(** The round of [read] that scans a literal produces one STRINGLIT token
    whose text is the literal, and leaves the input right behind it. *)
Lemma literal_round : forall us s pre cs,
  Forall accepted_piece us ->
  state_name s = Default ->
  pre = [] \/ pre = [BOL] ->
  pending (inp s) = pre ++ expand (list_ascii_of_string (literal us) ++ cs) ->
  exists s',
    scan_step s = (s', Ok tt) /\
    queue s' = queue s ++ [(Some "STRINGLIT", VStr (literal us))] /\
    pending (inp s') = expand cs.
Proof.
  intros us s pre cs Hus St Hpre P.
  destruct (literal_scan us s pre cs Hus St Hpre P) as (k & Hp & Hs).
  unfold scan_step. rewrite Hs. cbn [perform].
  eexists. split; [reflexivity |]. split; [reflexivity | exact Hp].
Qed.

(** [read] with an empty queue in front of a literal returns the STRINGLIT
    token. *)
Lemma literal_read : forall us s pre cs fuel,
  Forall accepted_piece us ->
  state_name s = Default ->
  queue s = [] ->
  pre = [] \/ pre = [BOL] ->
  pending (inp s) = pre ++ expand (list_ascii_of_string (literal us) ++ cs) ->
  exists s',
    read_loop (S fuel) s = (s', Ok (Some "STRINGLIT", VStr (literal us))) /\
    queue s' = [] /\ pending (inp s') = expand cs.
Proof.
  intros us s pre cs fuel Hus St Hq Hpre P.
  destruct (literal_round us s pre cs Hus St Hpre P) as (s1 & Hs & Q1 & P1).
  cbn [read_loop]. rewrite Hq, Hs. rewrite Hq in Q1. cbn [app] in Q1.
  destruct fuel; cbn [read_loop]; rewrite Q1;
    (eexists; split; [reflexivity |]; split; [reflexivity | exact P1]).
Qed.

(** In file mode a scanner starts in the 'indent' state; in front of a
    double quote the round there matches no indentation and only switches
    to the default state. *)
Lemma indent_before_quote : forall rest,
  run_machine (lexicon Indent) (BOL :: Ch dq :: rest) 0 None
  = (Some (Call handle_indentation, 0), 1).
Proof.
  intros rest. rewrite run_machine_cons.
  replace (accepting (lexicon Indent)) with (Some (Call handle_indentation))
    by (vm_compute; reflexivity).
  replace (blocked (advance BOL (lexicon Indent))) with false by (vm_compute; reflexivity).
  cbv zeta. rewrite run_machine_cons.
  replace (accepting (advance BOL (lexicon Indent))) with (@None action)
    by (vm_compute; reflexivity).
  replace (blocked (advance (Ch dq) (advance BOL (lexicon Indent)))) with true
    by (vm_compute; reflexivity).
  reflexivity.
Qed.

Lemma init_pending : forall us name expression_only,
  pending (inp (init (literal us) name expression_only))
  = [BOL] ++ expand (list_ascii_of_string (literal us) ++ []).
Proof. intros. rewrite app_nil_r. reflexivity. Qed.

Lemma init_indent_round : forall us name,
  Forall accepted_piece us ->
  exists s1,
    scan_step (init (literal us) name false) = (s1, Ok tt) /\
    state_name s1 = Default /\ queue s1 = [] /\
    inp s1 = inp (init (literal us) name false).
Proof.
  intros us name Hus.
  pose proof (init_pending us name false) as P.
  rewrite (expand_literal us [] Hus) in P. cbn [app] in P.
  unfold scan_step, scan_a_token. cbv zeta.
  rewrite P.
  replace (state_name (init (literal us) name false)) with Indent by reflexivity.
  rewrite indent_before_quote.
  cbn [firstn chars_of advance_by perform].
  eexists. split; [reflexivity |]. repeat split.
Qed.

(** ** A backslash in front of a character that is no escape *)

(** The pieces of a body are read, and the machine is between two pieces
    again. *)
Lemma body_prefix_run : forall us,
  Forall accepted_piece us ->
  forall m n bk tail,
    between m ->
    exists m',
      between m' /\
      run_machine (solo 1 m) (body_syms us ++ tail) n bk
      = run_machine (solo 1 m') tail (n + List.length (body_syms us)) bk.
Proof.
  destruct literal_moves as (M1 & M2 & M3 & M4 & M5 & M6 & M7 & M8 & M9 & M10 & M11).
  destruct inner_open as (I1 & I2 & I3 & I4 & I5).
  induction us as [| u us IH]; intros Hus m n bk tail Hm.
  - exists m. split; [exact Hm |]. cbn [body_syms app List.length].
    rewrite Nat.add_0_r. reflexivity.
  - inversion Hus as [| u' us' Hu Hus']; subst.
    destruct (between_open m Hm) as [A D].
    assert (B1b : between B1) by (right; left; reflexivity).
    assert (Bbb : between Bbol) by (right; right; reflexivity).
    cbn [body_syms]. rewrite <- app_assoc.
    destruct u as [c | c]; cbn [piece_syms].
    + cbn [app].
      assert (E1 : der (Ch bs) m = Besc)
        by (destruct Hm as [E | [E | E]]; subst m; assumption).
      rewrite solo_step; [| exact A | rewrite E1; exact I2]. rewrite E1.
      simpl in Hu. pose proof (escape_moves c Hu) as E2.
      rewrite solo_step; [| exact I1 | rewrite E2; reflexivity]. rewrite E2.
      destruct (IH Hus' B1 (S (S n)) bk tail B1b) as (m' & Hm' & E).
      exists m'. split; [exact Hm' |]. rewrite E.
      rewrite ?length_app; cbn [List.length]. f_equal; lia.
    + destruct Hu as [Hb Hq].
      destruct (Ascii.eqb c nl) eqn:En.
      * cbn [app].
        assert (E1 : der EOL m = Beol)
          by (destruct Hm as [E | [E | E]]; subst m; assumption).
        rewrite solo_step; [| exact A | rewrite E1; exact I4]. rewrite E1.
        rewrite solo_step; [| exact I3 | rewrite M7; reflexivity]. rewrite M7.
        rewrite solo_step; [| reflexivity | rewrite M8; reflexivity]. rewrite M8.
        destruct (IH Hus' Bbol (S (S (S n))) bk tail Bbb) as (m' & Hm' & E).
        exists m'. split; [exact Hm' |]. rewrite E.
        rewrite ?length_app; cbn [List.length]. f_equal; lia.
      * cbn [app]. apply Ascii.eqb_neq in En.
        destruct (plain_moves c Hb Hq En) as (P0 & P1 & P2).
        assert (E1 : der (Ch c) m = B1)
          by (destruct Hm as [E | [E | E]]; subst m; assumption).
        rewrite solo_step; [| exact A | rewrite E1; reflexivity]. rewrite E1.
        destruct (IH Hus' B1 (S n) bk tail B1b) as (m' & Hm' & E).
        exists m'. split; [exact Hm' |]. rewrite E.
        rewrite ?length_app; cbn [List.length]. f_equal; lia.
Qed.

(** After a backslash only an escape character keeps the machine alive. *)
Lemma escape_blocks : forall x, p_esc x = false -> dead (der x Besc) = true.
Proof.
  intros x H. unfold Besc.
  cbn [der accepts_empty andb orb]. rewrite H. reflexivity.
Qed.

Lemma broken_run : forall us pre x rest,
  Forall accepted_piece us ->
  pre = [] \/ pre = [BOL] ->
  p_esc x = false ->
  run_machine (lexicon Default) (pre ++ Ch dq :: body_syms us ++ Ch bs :: x :: rest) 0 None
  = (None, List.length pre + 1 + List.length (body_syms us) + 1).
Proof.
  intros us pre x rest Hus Hpre Hx.
  destruct after_opening_quote as [Q1 Q2].
  destruct literal_moves as (M1 & M2 & M3 & _).
  destruct inner_open as (I1 & I2 & _).
  assert (B : between B0) by (left; reflexivity).
  assert (Tail : forall n,
            run_machine (solo 1 B0) (body_syms us ++ Ch bs :: x :: rest) n None
            = (None, n + List.length (body_syms us) + 1)).
  { intros n.
    destruct (body_prefix_run us Hus B0 n None (Ch bs :: x :: rest) B) as (m & Hm & E).
    rewrite E. destruct (between_open m Hm) as [A D].
    assert (E1 : der (Ch bs) m = Besc)
      by (destruct Hm as [X | [X | X]]; subst m; assumption).
    rewrite solo_step; [| exact A | rewrite E1; exact I2]. rewrite E1.
    rewrite run_machine_cons, solo_accepting, I1, solo_advance, solo_blocked,
      (escape_blocks x Hx).
    cbv zeta. f_equal. lia. }
  destruct Hpre; subst pre; cbn [app List.length].
  - rewrite run_machine_cons, default_not_nullable, Q2, solo_blocked. cbv zeta.
    replace (dead B0) with false by reflexivity.
    rewrite Tail. f_equal.
  - destruct default_after_bol as [D1 D2].
    rewrite run_machine_cons, default_not_nullable, D1. cbv zeta.
    rewrite run_machine_cons, D2, Q1, solo_blocked. cbv zeta.
    replace (dead B0) with false by reflexivity.
    rewrite Tail. f_equal.
Qed.

(** ** The position moves with the characters read *)

Lemma cur_pos_next_char : forall i, cur_pos i <= cur_pos (next_char i).
Proof.
  intros i. unfold next_char. destruct (pending i) as [| [c | | |] r]; simpl; try lia.
  destruct (Ascii.eqb c nl); simpl; lia.
Qed.

Lemma cur_pos_advance_by : forall k i, cur_pos i <= cur_pos (advance_by k i).
Proof.
  induction k as [| k IH]; intros i; simpl; [lia |].
  pose proof (cur_pos_next_char i). pose proof (IH (next_char i)). lia.
Qed.

Lemma advance_by_add : forall a b i, advance_by (a + b) i = advance_by b (advance_by a i).
Proof. induction a as [| a IH]; intros b i; simpl; [reflexivity | apply IH]. Qed.

(** Reading past the opening quote moves the position. *)
Lemma cur_pos_past_quote : forall i pre rest k,
  pre = [] \/ pre = [BOL] ->
  pending i = pre ++ Ch dq :: rest ->
  cur_pos i < cur_pos (advance_by (List.length pre + 1 + k) i).
Proof.
  intros i pre rest k Hpre P. rewrite advance_by_add.
  pose proof (cur_pos_advance_by k (advance_by (List.length pre + 1) i)) as M.
  assert (E : cur_pos (advance_by (List.length pre + 1) i) = S (cur_pos i)).
  { destruct Hpre; subst pre; cbn [app List.length Nat.add advance_by] in *;
      unfold next_char; rewrite P; cbn [pending cur_pos]; [reflexivity |].
    cbn [Ascii.eqb Bool.eqb dq nl]. reflexivity. }
  lia.
Qed.

Lemma broken_scan : forall us s pre x rest,
  Forall accepted_piece us ->
  state_name s = Default ->
  pre = [] \/ pre = [BOL] ->
  pending (inp s) = pre ++ Ch dq :: body_syms us ++ Ch bs :: x :: rest ->
  p_esc x = false ->
  exists s', scan_step s = (s', Raise UnrecognizedInput).
Proof.
  intros us s pre x rest Hus St Hpre P Hx.
  pose proof (broken_run us pre x rest Hus Hpre Hx) as R.
  pose proof (cur_pos_past_quote (inp s) pre _ (List.length (body_syms us) + 1) Hpre P) as L.
  replace (List.length pre + 1 + (List.length (body_syms us) + 1))
    with (List.length pre + 1 + List.length (body_syms us) + 1) in L by lia.
  unfold scan_step, scan_a_token. cbv zeta. rewrite St, P, R.
  replace (cur_pos (advance_by (List.length pre + 1 + List.length (body_syms us) + 1) (inp s))
           =? cur_pos (inp s)) with false
    by (symmetry; apply Nat.eqb_neq; lia).
  eexists. reflexivity.
Qed.

(** What follows the backslash in the stream: the character, or the EOL in
    front of it when it is a newline; no escape either way. *)
Lemma expand_no_escape : forall c t,
  mem_chars escapes c = false ->
  exists x r, expand (c :: t) = x :: r /\ p_esc x = false.
Proof.
  intros c t H. cbn [expand]. destruct (Ascii.eqb c nl).
  - exists EOL. eexists. split; reflexivity.
  - exists (Ch c). eexists. split; [reflexivity |].
    unfold p_esc, plain. rewrite H. reflexivity.
Qed.

Lemma expand_broken : forall us c tail,
  Forall accepted_piece us ->
  expand (list_ascii_of_string (broken us c tail))
  = Ch dq :: body_syms us ++ Ch bs :: expand (c :: list_ascii_of_string tail).
Proof.
  intros us c tail Hus. unfold broken. cbn [list_ascii_of_string expand].
  replace (Ascii.eqb dq nl) with false by reflexivity.
  rewrite list_ascii_app, (expand_body us _ Hus).
  cbn [list_ascii_of_string expand].
  replace (Ascii.eqb bs nl) with false by reflexivity.
  reflexivity.
Qed.

Lemma broken_read : forall us s pre x rest fuel,
  Forall accepted_piece us ->
  state_name s = Default -> queue s = [] ->
  pre = [] \/ pre = [BOL] ->
  pending (inp s) = pre ++ Ch dq :: body_syms us ++ Ch bs :: x :: rest ->
  p_esc x = false ->
  snd (read_loop (S fuel) s) = Raise UnrecognizedInput.
Proof.
  intros us s pre x rest fuel Hus St Hq Hpre P Hx.
  destruct (broken_scan us s pre x rest Hus St Hpre P Hx) as (s' & E).
  cbn [read_loop]. rewrite Hq, E. reflexivity.
Qed.

(** In file mode the first round, in the 'indent' state in front of the
    quote, only switches to the default state. *)
Lemma indent_round_before_quote : forall content name rest,
  pending (inp (init content name false)) = BOL :: Ch dq :: rest ->
  exists s1,
    scan_step (init content name false) = (s1, Ok tt) /\
    state_name s1 = Default /\ queue s1 = [] /\
    inp s1 = inp (init content name false).
Proof.
  intros content name rest P.
  unfold scan_step, scan_a_token. cbv zeta. rewrite P.
  replace (state_name (init content name false)) with Indent by reflexivity.
  rewrite indent_before_quote.
  cbn [firstn chars_of advance_by perform].
  eexists. split; [reflexivity |]. repeat split.
Qed.

(** A literal that goes wrong after accepted pieces is not scanned. *)
Lemma broken_rejected : forall us name expression_only c tail,
  Forall accepted_piece us ->
  mem_chars escapes c = false ->
  snd (read (init (broken us c tail) name expression_only)) = Raise UnrecognizedInput.
Proof.
  intros us name eo c tail Hus Hc.
  destruct (expand_no_escape c (list_ascii_of_string tail) Hc) as (x & r & Ex & Hx).
  assert (P : forall b, pending (inp (init (broken us c tail) name b))
                        = [BOL] ++ Ch dq :: body_syms us ++ Ch bs :: x :: r).
  { intros b.
    change (pending (inp (init (broken us c tail) name b)))
      with (BOL :: expand (list_ascii_of_string (broken us c tail))).
    rewrite (expand_broken us c tail Hus), Ex. reflexivity. }
  unfold read, rounds.
  replace (2 * List.length (pending (inp (init (broken us c tail) name eo))) + 3)
    with (S (S (2 * List.length (pending (inp (init (broken us c tail) name eo)))) + 1))
    by lia.
  destruct eo.
  - apply (broken_read us _ [BOL] x r); auto.
  - destruct (indent_round_before_quote (broken us c tail) name _ (P false))
      as (s1 & Hs & St & Hq & Hi).
    cbn [read_loop]. replace (queue (init (broken us c tail) name false)) with (@nil raw_token)
      by reflexivity.
    rewrite Hs. cbn [Nat.add].
    apply (broken_read us s1 [BOL] x r); auto.
    rewrite Hi. apply P.
Qed.

(** C4 (as amended).  For every string made of a double quote, then any
    run of pieces where each piece is either a backslash followed by one
    lowercase letter, a backslash or a double quote, or a single character
    that is neither a backslash nor a double quote (a newline is fine),
    then a closing double quote: the first [read()] of a raw scanner over
    that string, in file mode or in expression-only mode, returns one
    STRINGLIT token whose text is the whole string, with all the input
    consumed.  And when such a run of pieces is followed by a backslash and
    a character that is none of these (an uppercase letter, a digit, a
    newline, ...), the first [read()] raises [UnrecognizedInput], whatever
    comes after that character. *)
Theorem string_literal_token : forall us name expression_only,
  Forall accepted_piece us ->
  (exists s',
     read (init (literal us) name expression_only)
     = (s', Ok (Some "STRINGLIT", VStr (literal us))) /\
     queue s' = [] /\ pending (inp s') = [EOL; EOF]) /\
  (forall c tail,
     mem_chars escapes c = false ->
     snd (read (init (broken us c tail) name expression_only))
     = Raise UnrecognizedInput).
Proof.
  intros us name eo Hus. split.
  2:{ intros c tail Hc. apply broken_rejected; assumption. }
  unfold read, rounds.
  replace (2 * List.length (pending (inp (init (literal us) name eo))) + 3)
    with (S (S (2 * List.length (pending (inp (init (literal us) name eo)))) + 1))
    by lia.
  destruct eo.
  - apply (literal_read us _ [BOL] []); auto. apply init_pending.
  - destruct (init_indent_round us name Hus) as (s1 & Hs & St & Hq & Hi).
    cbn [read_loop]. replace (queue (init (literal us) name false)) with (@nil raw_token)
      by reflexivity.
    rewrite Hs. cbn [Nat.add].
    apply (literal_read us s1 [BOL] []); auto.
    rewrite Hi. apply init_pending.
Qed.

Lemma string_literal_token_witness :
  let us := [Plain "a"%char; Escape "n"%char; Plain nl; Escape dq; Plain " "%char] in
  (exists s',
     read (init (literal us) None false)
     = (s', Ok (Some "STRINGLIT", VStr (literal us))) /\
     queue s' = [] /\ pending (inp s') = [EOL; EOF]) /\
  (forall c tail,
     mem_chars escapes c = false ->
     snd (read (init (broken us c tail) None false)) = Raise UnrecognizedInput).
Proof.
  intros us. apply (string_literal_token us None false).
  repeat constructor; try discriminate; reflexivity.
Defined.

(** C4 as stated fails: a backslash followed by an uppercase letter or by
    a digit is a piece in the sense of the claim, but the scanner does not
    take the literal as a STRINGLIT token; it raises [UnrecognizedInput]. *)
Lemma uppercase_escape_rejected :
  Forall claimed_piece [Escape "A"%char] /\
  Forall claimed_piece [Escape "1"%char] /\
  snd (read (init (literal [Escape "A"%char]) None true)) = Raise UnrecognizedInput /\
  snd (read (init (literal [Escape "A"%char]) None false)) = Raise UnrecognizedInput /\
  snd (read (init (literal [Escape "1"%char]) None true)) = Raise UnrecognizedInput.
Proof.
  split; [repeat constructor |]. split; [repeat constructor |].
  vm_compute. repeat split.
Qed.

End LitFacts.

(* ===================================================================== *)
(** * Facts about the outcomes and the values of the raw scanner           *)
(* ===================================================================== *)

Module InvFacts.

Import Plex Tok Raw Inv PlexFacts RawFacts.

Local Open Scope nat_scope.

Lemma lang_least : forall m w, lang m w -> least m <= String.length (chars_of w).
Proof.
  induction 1; simpl; try lia.
  - destruct x; simpl; [destruct (only_chars p); lia | | |];
      unfold only_chars; rewrite H; simpl; rewrite ?andb_false_r; simpl; lia.
  - rewrite LitFacts.chars_of_app.
    assert (L : forall x y : string,
              String.length (x ++ y)%string = String.length x + String.length y).
    { induction x as [| c x IHx]; intros y; simpl; auto. }
    rewrite L. lia.
Qed.

(** A match of a machine with a positive lower bound is not the empty
    text. *)
Lemma accepted_text_nonempty : forall m w,
  0 < least m -> accepts_empty (ders w m) = true -> chars_of w <> EmptyString.
Proof.
  intros m w L A E. pose proof (lang_least _ _ (ders_lang _ _ A)) as H.
  rewrite E in H. simpl in H. lia.
Qed.

Lemma comment_least :
  0 < least (build (Str "#" :+: Rep (AnyBut NL) :+: Opt (Str NL))%re true).
Proof. vm_compute. lia. Qed.

(** ** [adds] *)

Lemma adds_same : forall P s s', queue s' = queue s -> adds P s s'.
Proof. intros P s s' H. exists []. rewrite app_nil_r. split; [exact H | constructor]. Qed.

Lemma adds_trans : forall P s1 s2 s3, adds P s1 s2 -> adds P s2 s3 -> adds P s1 s3.
Proof.
  intros P s1 s2 s3 (n1 & Q1 & F1) (n2 & Q2 & F2).
  exists (n1 ++ n2). rewrite Q2, Q1, app_assoc. split; [reflexivity |].
  apply Forall_app. split; assumption.
Qed.

Lemma adds_produce : forall (P : raw_token -> Prop) s v txt,
  P (v, match txt with Some t => t | None => VStr (text s) end) ->
  adds P s (produce v txt s).
Proof.
  intros P s v txt H. eexists. split; [reflexivity |]. constructor; [exact H | constructor].
Qed.

Lemma text_value_ok : forall v s, v <> Some "INDENT" -> value_ok (v, VStr s).
Proof.
  intros v s H. unfold value_ok. simpl.
  destruct (type_eqb v (Some "INDENT")) eqn:E; [| eauto].
  exfalso. apply H. destruct v as [x |]; simpl in E; [| discriminate].
  apply String.eqb_eq in E. subst. reflexivity.
Qed.

Lemma outdent_to_outcome : forall s w s' r,
  stack_ok (indents s) -> outdent_to s w = (s', r) ->
  adds value_ok s s' /\ position s' = position s /\
  (r = Ok tt \/ r = Raise (IndentationError (position s'))).
Proof.
  intros s w s' r Hok H.
  destruct (outdent_to_spec s w Hok) as (kept & popped & t & E & Hp & Ht & Hle & R).
  rewrite R in H. injection H as Hs Hr. subst s' r.
  split; [| split; [reflexivity |]].
  - eexists. split; [reflexivity |].
    apply Forall_forall. intros x Hx. apply repeat_spec in Hx. subst x.
    apply text_value_ok. discriminate.
  - destruct (t =? w); [left | right]; reflexivity.
Qed.

Lemma handle_indentation_outcome : forall s txt s' r,
  stack_ok (indents s) -> handle_indentation s txt = (s', r) ->
  adds value_ok s s' /\ position s' = position s /\
  (r = Ok None \/ r = Raise (IndentationError (position s'))).
Proof.
  intros s txt s' r Hok H. unfold handle_indentation in H.
  destruct (stack_ok_top _ Hok) as [cur Hcur]. rewrite Hcur in H.
  destruct (_ && _).
  { inversion H; subst. split; [| split; [reflexivity | left; reflexivity]].
    apply adds_produce. apply text_value_ok. discriminate. }
  destruct (cur <? String.length txt) eqn:L1.
  { apply Nat.ltb_lt in L1. inversion H; subst.
    split; [| split; [reflexivity | left; reflexivity]].
    eexists. split; [reflexivity |]. constructor; [| constructor].
    unfold value_ok. simpl. eexists. split; [reflexivity | lia]. }
  destruct (String.length txt <? cur).
  { destruct (outdent_to s (String.length txt)) as [s1 r1] eqn:O.
    destruct (outdent_to_outcome _ _ _ _ Hok O) as (A & Pp & [R | R]); subst r1;
      inversion H; subst.
    - split; [destruct A as (new & Q & F); exists new; split; assumption |].
      split; [exact Pp | left; reflexivity].
    - split; [exact A |]. split; [exact Pp | right; reflexivity]. }
  inversion H; subst. split; [apply adds_same; reflexivity |].
  split; [reflexivity | left; reflexivity].
Qed.

(** ** [eof] *)

Lemma kept_at_zero : forall l kept popped,
  stack_ok l -> l = kept ++ popped -> top kept = Some 0 ->
  kept = [0] /\ List.length popped = List.length l - 1.
Proof.
  intros l kept popped [[r E] Hs] El Ht.
  assert (K : kept = [0]).
  { destruct kept as [| x k]; [discriminate |].
    rewrite El in E. simpl in E. inversion E; subst x.
    destruct k as [| y k]; [reflexivity |]. exfalso.
    apply top_some in Ht as [k' Ek].
    rewrite El in Hs. simpl in Hs. inversion Hs as [| a b Hs' Hall]; subst.
    assert (Hin : In 0 ((y :: k) ++ popped)).
    { apply in_or_app. left.
      destruct k' as [| z k'']; simpl in Ek; inversion Ek; subst.
      rewrite H1. apply in_or_app. right. left. reflexivity. }
    rewrite Forall_forall in Hall. specialize (Hall 0 Hin). lia. }
  split; [exact K |]. subst kept. rewrite El. simpl. lia.
Qed.

Lemma eof_effect : forall s,
  stack_ok (indents s) ->
  exists s',
    eof s = (s', Ok tt) /\
    position s' = position s /\
    indents s' = (if bracket_count s =? 0 then [0] else indents s) /\
    queue s' =
      queue s
      ++ (if bracket_count s =? 0
          then (Some "NEWLINE", VStr NL)
               :: repeat outdent_token (List.length (indents s) - 1)
          else [])
      ++ [(Some "EOF", VStr (text s))].
Proof.
  intros s Hok. unfold eof. destruct (bracket_count s =? 0).
  - set (s1 := produce (Some "NEWLINE") (Some (VStr NL)) s).
    destruct (outdent_to_spec s1 0 Hok) as (kept & popped & t & E & Hp & Ht & Hle & R).
    assert (t = 0) by lia. subst t.
    destruct (kept_at_zero _ _ _ Hok E Ht) as [K L]. subst kept.
    rewrite R. simpl. eexists. split; [reflexivity |].
    split; [reflexivity |]. split; [reflexivity |].
    simpl. rewrite L. rewrite <- !app_assoc. reflexivity.
  - eexists. split; [reflexivity |]. repeat split.
Qed.

(** ** How a round of [read] can end *)

Lemma scan_a_token_raises : forall s s1 e,
  scan_a_token s = (s1, Raise e) -> e = UnrecognizedInput.
Proof.
  intros s s1 e H. unfold scan_a_token in H. cbv zeta in H.
  dmatch H; inversion H; reflexivity.
Qed.

Lemma scan_a_token_position : forall s s1 r,
  scan_a_token s = (s1, r) ->
  position s1 = (name s, cur_line (inp s), cur_pos (inp s) - cur_line_start (inp s)).
Proof.
  intros s s1 r H.
  destruct (scan_a_token_keeps _ _ _ H) as (_ & _ & _ & _ & _ & N & _ & _ & L & C & _).
  unfold position. rewrite N, L, C. reflexivity.
Qed.

Lemma perform_outcome : forall st re a w s s' r,
  In (re, a) (tokens st) ->
  accepts_empty (ders w (build re true)) = true ->
  stack_ok (indents s) ->
  perform a s (chars_of w) = (s', r) ->
  adds value_ok s s' /\ position s' = position s /\
  ((exists v, r = Ok v) \/ r = Raise (IndentationError (position s'))).
Proof.
  intros st re a w s s' r Hin Hacc Hok H.
  destruct st; simpl in Hin;
    repeat (destruct Hin as [Hin | Hin]; [inversion Hin; subst re a; clear Hin |]);
    try contradiction; simpl in H;
    try (injection H as Hs Hr; subst s' r;
         split; [apply adds_same; reflexivity | split; [reflexivity | left; eauto]]).
  - unfold handle_close_bracket in H.
    destruct (_ <? _); injection H as Hs Hr; subst s' r;
      (split; [apply adds_same; reflexivity | split; [reflexivity | left; eauto]]).
  - unfold handle_newline in H.
    destruct (_ =? _); injection H as Hs Hr; subst s' r;
      (split; [apply adds_same; reflexivity | split; [reflexivity | left; eauto]]).
  - unfold handle_comment in H.
    pose proof (accepted_text_nonempty _ _ comment_least Hacc) as Hne.
    destruct (last_char (chars_of w)) eqn:Lc.
    + destruct (_ =? _); injection H as Hs Hr; subst s' r.
      * split; [| split; [reflexivity | left; eauto]].
        apply (adds_trans _ s (begin Indent s)); [apply adds_same; reflexivity |].
        apply adds_produce. apply text_value_ok. discriminate.
      * split; [apply adds_same; reflexivity | split; [reflexivity | left; eauto]].
    + exfalso. destruct (chars_of w) as [| c [| c' t]]; try discriminate.
      * apply Hne. reflexivity.
      * clear -Lc. revert c' Lc. induction t; intros; simpl in Lc; try discriminate.
        eapply IHt; eauto.
  - destruct (handle_indentation_outcome _ _ _ _ Hok H) as (A & P & [R | R]).
    + split; [exact A | split; [exact P | left; eauto]].
    + split; [exact A | split; [exact P | right; exact R]].
Qed.

(** A round of the loop of [read] only adds well-valued tokens to the
    queue, and it ends normally, with [UnrecognizedInput], or with
    [IndentationError] at the scanner's position. *)
Lemma scan_step_outcome : forall s s' r,
  stack_ok (indents s) -> scan_step s = (s', r) ->
  adds value_ok s s' /\ lexer_outcome s' r.
Proof.
  intros s s' r Hok H. unfold scan_step in H.
  destruct (scan_a_token s) as [s1 r1] eqn:S.
  destruct (scan_a_token_keeps _ _ _ S) as (Kq & Ki & _ & _ & _ & _ & _ & Knf & _).
  destruct r1 as [[txt [a |]] | e |].
  - destruct (scan_a_token_match _ _ _ _ S) as (re & k & Hin & Hacc & Et & _).
    destruct (perform a (set_text txt s1) txt) as [s3 r3] eqn:P.
    assert (Hok2 : stack_ok (indents (set_text txt s1))) by (simpl; rewrite Ki; exact Hok).
    rewrite Et in P at 2.
    destruct (perform_ok _ _ _ _ _ _ _ Hin Hacc Hok2 P) as (_ & _ & _ & _ & _ & _ & G).
    destruct (perform_outcome _ _ _ _ _ _ _ Hin Hacc Hok2 P) as (A & Pp & O).
    assert (A1 : adds value_ok s s3).
    { apply (adds_trans _ s (set_text txt s1)); [apply adds_same; exact Kq | exact A]. }
    destruct r3 as [[v |] | e |]; inversion H; subst s' r.
    + split; [| left; eauto].
      apply (adds_trans _ s s3); [exact A1 |].
      apply adds_produce. apply text_value_ok.
      destruct (G v eq_refl) as (_ & Ni & _). congruence.
    + split; [exact A1 | left; eauto].
    + split; [exact A1 |]. destruct O as [[v Ev] | Ev]; [discriminate |].
      right. right. inversion Ev. reflexivity.
    + split; [exact A1 |]. destruct O as [[v Ev] | Ev]; discriminate.
  - set (s2 := produce None None (set_text txt s1)) in *.
    assert (Hok2 : stack_ok (indents s2)) by (simpl; rewrite Ki; exact Hok).
    destruct (eof_effect s2 Hok2) as (s3 & E & _ & _ & Q).
    rewrite E in H. inversion H; subst s' r.
    split; [| left; eauto].
    eexists. rewrite Q. simpl. rewrite Kq, <- !app_assoc. split; [reflexivity |].
    simpl. constructor; [apply text_value_ok; discriminate |].
    apply Forall_app. split.
    + destruct (bracket_count s1 =? 0); [| constructor].
      constructor; [apply text_value_ok; discriminate |].
      apply Forall_forall. intros x Hx. apply repeat_spec in Hx. subst x.
      apply text_value_ok. discriminate.
    + constructor; [apply text_value_ok; discriminate | constructor].
  - inversion H; subst s' r. split; [apply adds_same; exact Kq |].
    right. left. rewrite (scan_a_token_raises _ _ _ S). reflexivity.
  - contradiction.
Qed.

(** ** [read] *)

Lemma read_loop_outcome : forall fuel s s' r,
  stack_ok (indents s) -> Forall value_ok (queue s) ->
  read_loop fuel s = (s', r) ->
  stack_ok (indents s') /\ Forall value_ok (queue s') /\
  (forall t, r = Ok t -> value_ok t) /\
  (r = NoFuel \/ lexer_outcome s' r).
Proof.
  induction fuel as [| fuel IH]; intros s s' r Hok Hq H; simpl in H.
  - destruct (queue s) as [| t q] eqn:Q; inversion H; subst.
    + split; [exact Hok |]. split; [rewrite Q; exact Hq |].
      split; [discriminate | left; reflexivity].
    + inversion Hq; subst. split; [exact Hok |]. split; [assumption |].
      split; [intros t' E; inversion E; subst; assumption | right; left; eauto].
  - destruct (queue s) as [| t q] eqn:Q.
    + destruct (scan_step s) as [s1 r1] eqn:S.
      destruct (scan_step_ok _ _ _ Hok S) as (Hok1 & _).
      destruct (scan_step_outcome _ _ _ Hok S) as ((new & Qn & Fn) & O).
      assert (Hq1 : Forall value_ok (queue s1)) by (rewrite Qn, Q; exact Fn).
      destruct r1 as [[] | e |].
      * apply (IH _ _ _ Hok1 Hq1 H).
      * inversion H; subst. split; [exact Hok1 |]. split; [exact Hq1 |].
        split; [discriminate |]. right.
        destruct O as [[a E] | [E | E]]; [discriminate | |];
          inversion E; subst; [right; left | right; right]; reflexivity.
      * inversion H; subst. split; [exact Hok1 |]. split; [exact Hq1 |].
        split; [discriminate | left; reflexivity].
    + inversion H; subst. inversion Hq; subst.
      split; [exact Hok |]. split; [assumption |].
      split; [intros t' E; inversion E; subst; assumption | right; left; eauto].
Qed.

(** The stack and the values of the tokens at every point of a scan. *)
Lemma scan_keeps : forall content name expression_only s out,
  scan_from (init content name expression_only) s out ->
  stack_ok (indents s) /\ Forall value_ok (out ++ queue s).
Proof.
  intros content name eo s out H.
  induction H as [| s out s' r H [IHs IHv] Hq Hs | s out t q H [IHs IHv] Hq].
  - split; [apply stack_ok_init | constructor].
  - destruct (scan_step_ok _ _ _ IHs Hs) as (A & _).
    destruct (scan_step_outcome _ _ _ IHs Hs) as ((new & Q & F) & _).
    split; [exact A |]. rewrite Q, app_assoc. apply Forall_app. split; assumption.
  - split; [exact IHs |]. simpl. rewrite <- app_assoc. simpl.
    rewrite Hq in IHv. exact IHv.
Qed.

(** X1.  At every point of a scan, [read()] returns a token or raises
    plex's [UnrecognizedInput] or the scanner's [IndentationError] (then
    with the position the scanner is left at); it raises nothing else (no
    [IndexError] from the indentation stack or from an empty comment text)
    and it does not scan forever. *)
Theorem raw_read_outcome : forall content name expression_only s out,
  scan_from (init content name expression_only) s out ->
  (exists t, snd (read s) = Ok t) \/
  snd (read s) = Raise UnrecognizedInput \/
  snd (read s) = Raise (IndentationError (position (fst (read s)))).
Proof.
  intros content name eo s out H.
  destruct (scan_keeps _ _ _ _ _ H) as [Hok Hv].
  apply Forall_app in Hv as [_ Hq].
  pose proof (read_answers s Hok) as Hnf.
  destruct (read s) as [s' r] eqn:R. unfold read in R.
  destruct (read_loop_outcome _ _ _ _ Hok Hq R) as (_ & _ & _ & [O | O]).
  - simpl in Hnf. contradiction.
  - exact O.
Qed.

Lemma raw_read_outcome_witness :
  let s := init "@" None false in
  (exists t, snd (read s) = Ok t) \/
  snd (read s) = Raise UnrecognizedInput \/
  snd (read s) = Raise (IndentationError (position (fst (read s)))).
Proof.
  intros s. apply (raw_read_outcome "@" None false s []). apply scan_start.
Defined.

(** X2.  At every point of a scan, every INDENT token emitted so far
    carries a positive number (the width added) and every other token
    carries a text. *)
Theorem raw_token_values : forall content name expression_only s out,
  scan_from (init content name expression_only) s out ->
  Forall value_ok (out ++ queue s).
Proof.
  intros content name eo s out H. apply (scan_keeps _ _ _ _ _ H).
Qed.

Lemma raw_token_values_witness :
  let s0 := init "  y" None false in
  let s1 := fst (scan_step s0) in
  let s2 := fst (scan_step (set_queue [] s1)) in
  queue s2 = [(Some "IDENT", VStr "y")] /\
  Forall value_ok ([(Some "INDENT", VInt 2)] ++ queue s2).
Proof.
  intros s0 s1 s2. split; [vm_compute; reflexivity |].
  apply (raw_token_values "  y" None false s2 [(Some "INDENT", VInt 2)]).
  apply (scan_round _ (set_queue [] s1) _ s2 (snd (scan_step (set_queue [] s1)))).
  - apply (scan_take _ s1 [] (Some "INDENT", VInt 2) []).
    + apply (scan_round _ s0 [] s1 (snd (scan_step s0))).
      * apply scan_start.
      * reflexivity.
      * apply surjective_pairing.
    + vm_compute. reflexivity.
  - reflexivity.
  - apply surjective_pairing.
Defined.

End InvFacts.

(* ===================================================================== *)
(** * Facts about the bracket counter, the two modes and the end of file   *)
(* ===================================================================== *)

Module ModeFacts.

Import Plex Tok Raw Inv PlexFacts RawFacts InvFacts.

Local Open Scope nat_scope.

Lemma short_not_structural : forall v x,
  String.length v <= 4 -> not_structural (Some v, x).
Proof.
  intros v x H. destruct (short_not_named v H) as (A & B & _ & D).
  unfold not_structural. simpl. auto.
Qed.

Lemma last_char_none : forall t, last_char t = None -> t = EmptyString.
Proof.
  induction t as [| c t IH]; intros H; [reflexivity |].
  simpl in H. destruct t; [discriminate | apply IH in H; discriminate].
Qed.

(** A round of [read] keeps the bracket counter at or above its floor. *)
Lemma scan_step_floor : forall s s' r,
  min_bracket_count s <= bracket_count s ->
  scan_step s = (s', r) ->
  min_bracket_count s' <= bracket_count s' /\
  min_bracket_count s' = min_bracket_count s.
Proof.
  intros s s' r Inv H. unfold scan_step in H.
  destruct (scan_a_token s) as [s1 r1] eqn:S.
  destruct (scan_a_token_keeps _ _ _ S) as (_ & _ & Ks & Kb & Km & _).
  destruct r1 as [[txt [a |]] | e |].
  - destruct (scan_a_token_match _ _ _ _ S) as (re & k & Hin & _).
    destruct (perform a (set_text txt s1) txt) as [s3 r3] eqn:P.
    assert (G : min_bracket_count s3 <= bracket_count s3 /\
                min_bracket_count s3 = min_bracket_count s).
    { destruct (state_name s) eqn:St; simpl in Hin;
        repeat (destruct Hin as [Hin | Hin]; [inversion Hin; subst re a; clear Hin |]);
        try contradiction; simpl in P;
        try (inversion P; subst; simpl; rewrite Kb, Km; split; [exact Inv | reflexivity]).
      - inversion P; subst; simpl. rewrite Kb, Km. split; [lia | reflexivity].
      - unfold handle_close_bracket in P. simpl in P.
        destruct (min_bracket_count s1 <? bracket_count s1) eqn:L;
          inversion P; subst; simpl; rewrite ?Kb, ?Km.
        + apply Nat.ltb_lt in L. split; [lia | reflexivity].
        + split; [exact Inv | reflexivity].
      - unfold handle_newline in P. simpl in P.
        destruct (bracket_count s1 =? 0); inversion P; subst; simpl;
          rewrite Kb, Km; (split; [exact Inv | reflexivity]).
      - unfold handle_comment in P. simpl in P.
        destruct (last_char txt); [destruct (bracket_count s1 =? 0) |];
          inversion P; subst; simpl; rewrite Kb, Km; (split; [exact Inv | reflexivity]).
      - unfold handle_indentation in P. simpl in P.
        destruct (top (indents s1));
          [| inversion P; subst; simpl; rewrite Kb, Km; split; [exact Inv | reflexivity]].
        destruct (_ && _);
          [inversion P; subst; simpl; rewrite Kb, Km; split; [exact Inv | reflexivity] |].
        destruct (_ <? _);
          [inversion P; subst; simpl; rewrite Kb, Km; split; [exact Inv | reflexivity] |].
        destruct (_ <? _);
          [| inversion P; subst; simpl; rewrite Kb, Km; split; [exact Inv | reflexivity]].
        destruct (outdent_to _ _) as [s4 r4] eqn:O.
        apply outdent_to_keeps in O. simpl in O. destruct O as (O1 & O2 & O3).
        destruct r4; inversion P; subst; simpl; rewrite ?O2, ?O3, Kb, Km;
          (split; [exact Inv | reflexivity]). }
    destruct r3 as [[v |] | e |]; inversion H; subst; simpl; exact G.
  - unfold eof in H. simpl in H.
    destruct (bracket_count s1 =? 0).
    + destruct (outdent_to _ _) as [s4 r4] eqn:O.
      apply outdent_to_keeps in O. simpl in O. destruct O as (O1 & O2 & O3).
      destruct r4; inversion H; subst; simpl; rewrite ?O2, ?O3, Kb, Km; auto.
    + inversion H; subst; simpl. rewrite Kb, Km. auto.
  - inversion H; subst. rewrite Kb, Km. auto.
  - inversion H; subst. rewrite Kb, Km. auto.
Qed.

(** X3.  At every point of a scan the bracket counter is at or above its
    floor, and the floor is the one set at the start: 0 in file mode, 1 in
    expression-only mode.  A closing bracket without an opening one does
    not bring the counter below it. *)
Theorem bracket_floor : forall content name expression_only s out,
  scan_from (init content name expression_only) s out ->
  min_bracket_count s = (if expression_only then 1 else 0) /\
  min_bracket_count s <= bracket_count s.
Proof.
  intros content name eo s out H.
  induction H as [| s out s' r H [IH1 IH2] Hq Hs | s out t q H IH Hq].
  - destruct eo; simpl; split; auto.
  - destruct (scan_step_floor _ _ _ IH2 Hs) as [A B]. split; [congruence | exact A].
  - exact IH.
Qed.

Lemma bracket_floor_witness :
  let s0 := init ")" None true in
  let s1 := fst (scan_step s0) in
  min_bracket_count s1 = 1 /\ min_bracket_count s1 <= bracket_count s1.
Proof.
  intros s0 s1.
  apply (bracket_floor ")" None true s1 []).
  apply (scan_round _ s0 [] s1 (snd (scan_step s0))).
  - apply scan_start.
  - reflexivity.
  - apply surjective_pairing.
Defined.

(** A round of [read] in the default state above a positive floor. *)
Lemma scan_step_expression : forall s s' r,
  state_name s = Default ->
  0 < min_bracket_count s -> min_bracket_count s <= bracket_count s ->
  scan_step s = (s', r) ->
  state_name s' = Default /\ indents s' = indents s /\
  adds not_structural s s' /\
  (r = Ok tt \/ r = Raise UnrecognizedInput).
Proof.
  intros s s' r St Hm Inv H. unfold scan_step in H.
  destruct (scan_a_token s) as [s1 r1] eqn:S.
  destruct (scan_a_token_keeps _ _ _ S) as (Kq & Ki & Ks & Kb & Km & _ & _ & Knf & _).
  assert (Hr : forall e, r1 = Raise e -> e = UnrecognizedInput).
  { intros e E. subst r1. apply (scan_a_token_raises _ _ _ S). }
  destruct r1 as [[txt [a |]] | e |].
  - destruct (scan_a_token_match _ _ _ _ S) as (re & k & Hin & Hacc & Et & _).
    destruct (perform a (set_text txt s1) txt) as [s3 r3] eqn:P.
    assert (Hb : (bracket_count s1 =? 0) = false) by (apply Nat.eqb_neq; lia).
    assert (G : state_name s3 = Default /\ indents s3 = indents s /\
                queue s3 = queue s /\
                (r3 = Ok None \/ exists v, r3 = Ok (Some v) /\
                                           forall x, not_structural (Some v, x))).
    { rewrite St in Hin. simpl in Hin.
      repeat (destruct Hin as [Hin | Hin]; [inversion Hin; subst re a; clear Hin |]);
        try contradiction; simpl in P.
      - inversion P; subst; simpl. repeat (split; [congruence |]).
        right. eexists. split; [reflexivity |]. intros x.
        unfold not_structural. simpl. repeat split; discriminate.
      - inversion P; subst; simpl. repeat (split; [congruence |]).
        right. eexists. split; [reflexivity |]. intros x.
        unfold not_structural. simpl. repeat split; discriminate.
      - inversion P; subst; simpl. repeat (split; [congruence |]).
        right. eexists. split; [reflexivity |]. intros x.
        unfold not_structural. simpl. repeat split; discriminate.
      - inversion P; subst; simpl. repeat (split; [congruence |]).
        right. eexists. split; [reflexivity |]. intros x. apply short_not_structural.
        pose proof (accepted_text_short _ _ _ open_bracket_bound Hacc). lia.
      - unfold handle_close_bracket in P. simpl in P.
        assert (T : forall x, not_structural
                      (Some (chars_of (firstn k (pending (inp s)))), x)).
        { intros x. apply short_not_structural.
          pose proof (accepted_text_short _ _ _ close_bracket_bound Hacc). lia. }
        destruct (_ <? _); inversion P; subst; simpl; repeat (split; [congruence |]);
          right; eexists; (split; [reflexivity | exact T]).
      - unfold handle_newline in P. simpl in P. rewrite Hb in P.
        inversion P; subst; simpl. repeat (split; [congruence |]). left. reflexivity.
      - inversion P; subst; simpl. repeat (split; [congruence |]).
        right. eexists. split; [reflexivity |]. intros x. apply short_not_structural.
        apply (accepted_text_short _ _ _ punct_bound Hacc).
      - inversion P; subst; simpl. repeat (split; [congruence |]). left. reflexivity.
      - unfold handle_comment in P. simpl in P. rewrite Hb in P.
        destruct (last_char txt) eqn:L.
        + inversion P; subst; simpl. repeat (split; [congruence |]). left. reflexivity.
        + exfalso.
          apply (accepted_text_nonempty _ _ comment_least Hacc).
          rewrite <- Et. apply last_char_none. exact L. }
    destruct G as (G1 & G2 & G3 & [G4 | (v & G4 & G5)]); subst r3;
      inversion H; subst; simpl.
    + split; [exact G1 |]. split; [exact G2 |].
      split; [apply adds_same; exact G3 | left; reflexivity].
    + split; [exact G1 |]. split; [exact G2 |].
      split; [| left; reflexivity].
      exists [(Some v, VStr (text s3))]. simpl. rewrite G3.
      split; [reflexivity |]. constructor; [apply G5 | constructor].
  - unfold eof in H. simpl in H.
    assert (Hb : (bracket_count s1 =? 0) = false) by (apply Nat.eqb_neq; lia).
    rewrite Hb in H. inversion H; subst; simpl.
    split; [congruence |]. split; [congruence |]. split; [| left; reflexivity].
    exists [(None, VStr txt); (Some "EOF", VStr txt)]. simpl.
    rewrite Kq, <- app_assoc. split; [reflexivity |].
    constructor; [| constructor; [| constructor]];
      unfold not_structural; simpl; repeat split; discriminate.
  - inversion H; subst. split; [congruence |]. split; [congruence |].
    split; [apply adds_same; exact Kq |]. right. rewrite (Hr e eq_refl). reflexivity.
  - contradiction.
Qed.

Lemma read_loop_expression : forall fuel s s' r,
  state_name s = Default ->
  0 < min_bracket_count s -> min_bracket_count s <= bracket_count s ->
  Forall not_structural (queue s) ->
  read_loop fuel s = (s', r) ->
  r = NoFuel \/ (exists t, r = Ok t /\ not_structural t) \/ r = Raise UnrecognizedInput.
Proof.
  induction fuel as [| fuel IH]; intros s s' r St Hm Hf Hq H; simpl in H.
  - destruct (queue s) as [| t q] eqn:Q; inversion H; subst; [left; reflexivity |].
    inversion Hq; subst. right. left. eauto.
  - destruct (queue s) as [| t q] eqn:Q.
    + destruct (scan_step s) as [s1 r1] eqn:S.
      destruct (scan_step_expression _ _ _ St Hm Hf S) as (A & _ & (new & B & C) & D).
      destruct (scan_step_floor _ _ _ Hf S) as [F1 F2].
      destruct D as [D | D]; subst r1.
      * apply (IH s1 s' r); auto; try lia.
        rewrite B, Q. exact C.
      * inversion H; subst. right. right. reflexivity.
    + inversion H; subst. inversion Hq; subst. right. left. eauto.
Qed.

(** X4.  In expression-only mode, at every point of a scan: no NEWLINE,
    INDENT or OUTDENT token has been emitted, the indentation stack is
    still [[0]], the scanner is in the default state, and [read()] returns
    a token that is not one of these three or raises [UnrecognizedInput];
    it never raises [IndentationError]. *)
Theorem expression_only_is_flat : forall content name s out,
  scan_from (init content name true) s out ->
  Forall not_structural (out ++ queue s) /\
  indents s = [0] /\ state_name s = Default /\
  ((exists t, snd (read s) = Ok t /\ not_structural t) \/
   snd (read s) = Raise UnrecognizedInput).
Proof.
  intros content name s out H.
  assert (G : Forall not_structural (out ++ queue s) /\
              indents s = [0] /\ state_name s = Default /\
              0 < min_bracket_count s /\ min_bracket_count s <= bracket_count s).
  { induction H as [| s out s' r H (I1 & I2 & I3 & I4 & I5) Hq Hs
                    | s out t q H (I1 & I2 & I3 & I4 & I5) Hq].
    - simpl. repeat split; auto.
    - destruct (scan_step_expression _ _ _ I3 I4 I5 Hs) as (A & B & (new & C & D) & _).
      destruct (scan_step_floor _ _ _ I5 Hs) as [F1 F2].
      split; [rewrite C, app_assoc; apply Forall_app; split; assumption |].
      split; [congruence |]. split; [exact A |]. split; lia.
    - simpl. split; [| auto]. rewrite <- app_assoc. simpl. rewrite Hq in I1. exact I1. }
  destruct G as (G1 & G2 & G3 & G4 & G5).
  split; [exact G1 |]. split; [exact G2 |]. split; [exact G3 |].
  assert (Hok : stack_ok (indents s)) by (rewrite G2; apply stack_ok_init).
  pose proof (read_answers s Hok) as Hnf.
  destruct (read s) as [s' r] eqn:R. unfold read in R.
  apply Forall_app in G1 as [_ Gq].
  destruct (read_loop_expression _ _ _ _ G3 G4 G5 Gq R) as [O | O].
  - simpl in Hnf. contradiction.
  - exact O.
Qed.

Lemma expression_only_is_flat_witness :
  let s0 := init ("a" ++ NL ++ "  b")%string None true in
  let s1 := fst (scan_step s0) in
  let s2 := set_queue [] s1 in
  let s3 := fst (scan_step s2) in
  let out := [(Some "IDENT", VStr "a")] in
  (pending (inp s2) = [EOL; Ch nl; BOL; Ch " "%char; Ch " "%char; Ch "b"%char; EOL; EOF] /\
   pending (inp s3) = [BOL; Ch " "%char; Ch " "%char; Ch "b"%char; EOL; EOF] /\
   queue s3 = []) /\
  Forall not_structural (out ++ queue s3) /\
  indents s3 = [0] /\ state_name s3 = Default /\
  ((exists t, snd (read s3) = Ok t /\ not_structural t) \/
   snd (read s3) = Raise UnrecognizedInput).
Proof.
  intros s0 s1 s2 s3 out.
  split; [repeat split; vm_compute; reflexivity |].
  apply (expression_only_is_flat ("a" ++ NL ++ "  b")%string None s3 out).
  apply (scan_round _ s2 out s3 (snd (scan_step s2))).
  - apply (scan_take _ s1 [] (Some "IDENT", VStr "a") []).
    + apply (scan_round _ s0 [] s1 (snd (scan_step s0))).
      * apply scan_start.
      * reflexivity.
      * apply surjective_pairing.
    + vm_compute. reflexivity.
  - reflexivity.
  - apply surjective_pairing.
Defined.

(** ** The end of the file *)

Lemma scan_counts : forall content name expression_only s out,
  scan_from (init content name expression_only) s out ->
  stack_ok (indents s) /\
  count_type "INDENT" (out ++ queue s) + 1
  = count_type "OUTDENT" (out ++ queue s) + List.length (indents s).
Proof.
  intros content name eo s out H. induction H as [| s out s' r H [IHs IHc] Hq Hs
                                                  | s out t q H [IHs IHc] Hq].
  - split; [apply stack_ok_init | reflexivity].
  - destruct (scan_step_ok _ _ _ IHs Hs) as (A & (new & Q & _ & C) & _).
    split; [exact A |].
    rewrite Q, app_assoc, !count_type_app in *. lia.
  - split; [exact IHs |]. simpl. rewrite <- app_assoc. simpl.
    rewrite Hq in IHc. exact IHc.
Qed.

(** X5.  In file mode, when a round of [read] finds the end of the input
    with no bracket open, it queues Plex's own end token (type [None]), a
    NEWLINE, one OUTDENT for every indentation level still open, and EOF,
    in this order, and raises nothing; the stack is back to [[0]] and every
    INDENT emitted in the scan has its OUTDENT. *)
Theorem end_of_file_closes_blocks : forall content name s out s1 txt,
  scan_from (init content name false) s out ->
  scan_a_token s = (s1, Ok (txt, None)) ->
  bracket_count s = 0 ->
  exists s',
    scan_step s = (s', Ok tt) /\
    queue s' = queue s ++ [(None, VStr txt); (Some "NEWLINE", VStr NL)]
                       ++ repeat outdent_token (List.length (indents s) - 1)
                       ++ [(Some "EOF", VStr txt)] /\
    indents s' = [0] /\
    count_type "INDENT" (out ++ queue s') = count_type "OUTDENT" (out ++ queue s').
Proof.
  intros content name s out s1 txt H S Hb.
  destruct (scan_counts _ _ _ _ _ H) as [Hok Hc].
  destruct (scan_a_token_keeps _ _ _ S) as (Kq & Ki & _ & Kb & _).
  set (s2 := produce None None (set_text txt s1)).
  assert (Hok2 : stack_ok (indents s2)) by (simpl; rewrite Ki; exact Hok).
  destruct (eof_effect s2 Hok2) as (s' & E & _ & I & Q).
  assert (B2 : (bracket_count s2 =? 0) = true) by (simpl; rewrite Kb, Hb; reflexivity).
  rewrite B2 in I, Q. simpl in Q. rewrite Kq, Ki in Q.
  exists s'. unfold scan_step. rewrite S. fold s2.
  split; [exact E |].
  assert (Q' : queue s' = queue s ++ [(None, VStr txt); (Some "NEWLINE", VStr NL)]
                       ++ repeat outdent_token (List.length (indents s) - 1)
                       ++ [(Some "EOF", VStr txt)]).
  { rewrite Q. rewrite <- !app_assoc. reflexivity. }
  split; [exact Q' |]. split; [exact I |].
  rewrite Q'. rewrite !app_assoc, !count_type_app in *.
  destruct (count_outdent_repeat (List.length (indents s) - 1)) as [C1 C2].
  rewrite C1, C2. destruct Hok as [[r Er] _]. rewrite Er in *. simpl in *.
  unfold count_type in *. simpl. lia.
Qed.

Lemma end_of_file_closes_blocks_witness :
  let s0 := init "  y" None false in
  let s1 := fst (scan_step s0) in
  let s2 := fst (scan_step (set_queue [] s1)) in
  let s := set_queue [] s2 in
  let out := [(Some "INDENT", VInt 2); (Some "IDENT", VStr "y")] in
  exists s',
    scan_step s = (s', Ok tt) /\
    queue s' = queue s ++ [(None, VStr EmptyString); (Some "NEWLINE", VStr NL)]
                       ++ repeat outdent_token (List.length (indents s) - 1)
                       ++ [(Some "EOF", VStr EmptyString)] /\
    indents s' = [0] /\
    count_type "INDENT" (out ++ queue s') = count_type "OUTDENT" (out ++ queue s').
Proof.
  intros s0 s1 s2 s out.
  apply (end_of_file_closes_blocks "  y" None s out (fst (scan_a_token s)) EmptyString).
  - apply (scan_take _ s2 [(Some "INDENT", VInt 2)] (Some "IDENT", VStr "y") []).
    + apply (scan_round _ (set_queue [] s1) _ s2 (snd (scan_step (set_queue [] s1)))).
      * apply (scan_take _ s1 [] (Some "INDENT", VInt 2) []).
        -- apply (scan_round _ s0 [] s1 (snd (scan_step s0))).
           ++ apply scan_start.
           ++ reflexivity.
           ++ apply surjective_pairing.
        -- vm_compute. reflexivity.
      * reflexivity.
      * apply surjective_pairing.
    + vm_compute. reflexivity.
  - vm_compute. reflexivity.
  - vm_compute. reflexivity.
Defined.

(** ** Indenting and dedenting *)

(** X6.  Indenting and then dedenting to the level before undoes the
    push: a line indented deeper than the current level pushes its width
    and queues an INDENT carrying the difference; a following line at the
    former level pops just that level and queues one OUTDENT; both calls
    end normally, in the default state, with the stack as it was. *)
Theorem indent_then_dedent : forall s cur deeper back,
  stack_ok (indents s) ->
  top (indents s) = Some cur ->
  last_char deeper <> Some nl -> last_char back <> Some nl ->
  cur < String.length deeper -> String.length back = cur ->
  let s1 := fst (handle_indentation s deeper) in
  let s2 := fst (handle_indentation s1 back) in
  snd (handle_indentation s deeper) = Ok None /\
  snd (handle_indentation s1 back) = Ok None /\
  indents s1 = indents s ++ [String.length deeper] /\
  indents s2 = indents s /\
  queue s2 = queue s ++ [(Some "INDENT", VInt (String.length deeper - cur)); outdent_token] /\
  state_name s2 = Default.
Proof.
  intros s cur deeper back Hok Ht Hd Hb Hlt Hlen.
  assert (Blank : forall t, last_char t <> Some nl ->
            ((0 <? String.length t) && match last_char t with
                                       | Some c => Ascii.eqb c nl
                                       | None => false
                                       end) = false).
  { intros t Hn. destruct (last_char t) as [c |]; [| apply andb_false_r].
    destruct (Ascii.eqb c nl) eqn:E; [| apply andb_false_r].
    apply Ascii.eqb_eq in E. subst c. exfalso. apply Hn. reflexivity. }
  assert (E1 : handle_indentation s deeper =
               (begin Default (produce (Some "INDENT")
                                 (Some (VInt (String.length deeper - cur)))
                                 (set_indents (indents s ++ [String.length deeper]) s)),
                Ok None)).
  { unfold handle_indentation. rewrite Ht. cbv zeta. rewrite (Blank _ Hd).
    apply Nat.ltb_lt in Hlt. rewrite Hlt. reflexivity. }
  intros s1 s2. subst s2 s1. rewrite E1. cbn [fst snd].
  set (s1 := begin Default _).
  assert (O : outdent_to s1 cur =
              (set_queue (queue s1 ++ repeat outdent_token 1) (set_indents (indents s) s1),
               Ok tt)).
  { unfold outdent_to.
    rewrite (outdent_loop_spec [String.length deeper] (indents s) s1 _ cur cur).
    - cbn [indents set_queue set_indents]. rewrite Ht, Nat.eqb_refl. reflexivity.
    - reflexivity.
    - constructor; [exact Hlt | constructor].
    - exact Ht.
    - lia.
    - simpl. rewrite length_app. simpl. lia. }
  assert (E2 : handle_indentation s1 back =
               (begin Default (set_queue (queue s1 ++ repeat outdent_token 1)
                                 (set_indents (indents s) s1)), Ok None)).
  { unfold handle_indentation.
    replace (top (indents s1)) with (Some (String.length deeper))
      by (symmetry; apply top_snoc).
    cbv zeta. rewrite (Blank _ Hb), Hlen.
    assert (L1 : (String.length deeper <? cur) = false) by (apply Nat.ltb_ge; lia).
    rewrite L1. apply Nat.ltb_lt in Hlt. rewrite Hlt. rewrite O. reflexivity. }
  rewrite E2. cbn [fst snd].
  split; [reflexivity |]. split; [reflexivity |]. split; [reflexivity |].
  split; [reflexivity |]. split; [| reflexivity].
  simpl. rewrite <- app_assoc. reflexivity.
Qed.

Lemma indent_then_dedent_witness :
  let s := set_indents [0; 2] (init EmptyString None false) in
  let s1 := fst (handle_indentation s "      ") in
  let s2 := fst (handle_indentation s1 "  ") in
  snd (handle_indentation s "      ") = Ok None /\
  snd (handle_indentation s1 "  ") = Ok None /\
  indents s1 = [0; 2; 6] /\
  indents s2 = [0; 2] /\
  queue s2 = [(Some "INDENT", VInt 4); outdent_token] /\
  state_name s2 = Default.
Proof.
  intros s.
  apply (indent_then_dedent s 2 "      " "  ").
  - split; [exists [2]; reflexivity |].
    repeat constructor.
  - reflexivity.
  - discriminate.
  - discriminate.
  - simpl. lia.
  - reflexivity.
Defined.

End ModeFacts.

(* ===================================================================== *)
(** * Facts about positions, ranges and what the scanner returns           *)
(* ===================================================================== *)

Module SrcFacts.

Import Tok Look Inv Src LookFacts.

Local Open Scope nat_scope.

(** ** What [fetch] and [convert] give *)

Lemma fetch_outcome : forall raw raw' r,
  Raw.stack_ok (Raw.indents raw) ->
  Forall value_ok (Raw.queue raw) ->
  fetch raw = (raw', r) ->
  Forall value_ok (Raw.queue raw') /\
  ((exists t, r = Ok t /\ value_ok t) \/ r = Raise UnrecognizedInput \/
   r = Raise (IndentationError (Raw.position raw'))).
Proof.
  assert (One : forall raw raw' r,
            Raw.stack_ok (Raw.indents raw) -> Forall value_ok (Raw.queue raw) ->
            Raw.read raw = (raw', r) ->
            Raw.stack_ok (Raw.indents raw') /\ Forall value_ok (Raw.queue raw') /\
            ((exists t, r = Ok t /\ value_ok t) \/ r = Raise UnrecognizedInput \/
             r = Raise (IndentationError (Raw.position raw')))).
  { intros raw raw' r Hok Hq R.
    pose proof (RawFacts.read_answers raw Hok) as Hnf. rewrite R in Hnf. simpl in Hnf.
    unfold Raw.read in R.
    destruct (InvFacts.read_loop_outcome _ _ _ _ Hok Hq R) as (A & B & C & [D | D]);
      [contradiction |].
    split; [exact A |]. split; [exact B |].
    destruct D as [[t E] | [E | E]]; [left | right; left | right; right]; auto.
    exists t. split; [exact E | apply C; exact E]. }
  intros raw raw' r Hok Hq H. unfold fetch in H.
  destruct (Raw.read raw) as [raw1 r1] eqn:R1.
  destruct (One _ _ _ Hok Hq R1) as (A & B & C).
  destruct r1 as [[[ty |] v] | e |]; try (inversion H; subst; split; [exact B | exact C]).
  destruct (One _ _ _ A B H) as (_ & B' & C'). split; [exact B' | exact C'].
Qed.

Lemma convert_placed : forall raw tok,
  value_ok tok -> fst tok <> Some "ERROR" ->
  exists t, convert raw tok = Ok t /\ placed raw t /\
            type t = fst tok /\ value t = snd tok.
Proof.
  intros raw [ty v] Hv Ht. unfold convert, placed, token_length, location_at.
  destruct (Raw.position raw) as [[f l] c]. cbn [fst snd] in *.
  unfold value_ok in Hv. cbn [fst snd] in Hv.
  destruct (is_structural ty) eqn:St.
  - eexists. split; [reflexivity |]. cbn [source_range type value].
    rewrite St. split; [| split; reflexivity].
    split; [exact Ht |]. exists 0. split; [reflexivity |].
    unfold shift. cbn. f_equal. f_equal. lia.
  - assert (Ti : type_eqb ty (Some "INDENT") = false).
    { unfold is_structural in St. apply orb_false_iff in St as [St _].
      apply orb_false_iff in St as [_ St]. exact St. }
    rewrite Ti in Hv. destruct Hv as [s Es]. subst v. cbn [len].
    eexists. split; [reflexivity |]. cbn [source_range type value].
    rewrite St. split; [| split; reflexivity].
    split; [exact Ht |]. exists (String.length s). split; [reflexivity |].
    unfold shift. cbn. f_equal. f_equal. lia.
Qed.

(** ** The invariant *)

Lemma peek_settled : forall s,
  wf s -> settled s ->
  settled (fst (peek s)) /\ exists t, snd (peek s) = Ok t.
Proof.
  intros s (Hok & Hq & He & Hf) (Sv & Sp & Sl). unfold peek.
  destruct (peeked s) as [t |] eqn:P.
  { simpl. split; [| eauto]. unfold settled. rewrite P. auto. }
  destruct (force_eof s) eqn:F.
  { simpl. split; [| eauto]. unfold settled; simpl.
    split; [exact Sv |]. split; [auto |].
    intros t E. inversion E; subst. unfold placed. cbn [source_range type value].
    rewrite (Hf eq_refl). right. split; reflexivity. }
  destruct (fetch (raw_scanner s)) as [raw r] eqn:Fe.
  destruct (fetch_ok _ _ _ Hok Hq Fe) as (_ & _ & C).
  destruct (fetch_outcome _ _ _ Hok Sv Fe) as (B & [(tok & E & V) | [E | E]]); subst r.
  - assert (Ht : fst tok <> Some "ERROR").
    { apply RawFacts.raw_type_ok_not_error. apply C. reflexivity. }
    destruct (convert_placed raw tok V Ht) as (t & Cv & Pl & _). rewrite Cv. simpl.
    split; [| eauto]. unfold settled; simpl. split; [exact B |].
    split; [discriminate |]. intros t' E. inversion E; subst. exact Pl.
  - simpl. split; [| eauto]. unfold settled; simpl. split; [exact B |].
    split; [discriminate |]. intros t' E. inversion E; subst.
    unfold placed, error_token. cbn [source_range type value]. left. auto.
  - simpl. split; [| eauto]. unfold settled; simpl. split; [exact B |].
    split; [discriminate |]. intros t' E. inversion E; subst.
    unfold placed, error_token. cbn [source_range type value]. left. auto.
Qed.

Lemma read_settled : forall s,
  wf s -> settled s ->
  settled (fst (read s)) /\ exists t, snd (read s) = Ok t.
Proof.
  intros s W S. destruct (peek_settled s W S) as [(A & B & C) [t E]].
  unfold read. destruct (peek s) as [s1 r]. simpl in *. subst r. simpl.
  split; [| eauto]. unfold settled; simpl. split; [exact A |]. split; [exact B |].
  discriminate.
Qed.

Lemma reachable_settled : forall s, reachable s -> settled s.
Proof.
  induction 1 as [content name eo | s o H IH].
  - unfold settled, init; simpl. split; [constructor |]. split; discriminate.
  - pose proof (reachable_wf _ H) as W.
    destruct o; simpl; [apply peek_settled | apply read_settled]; assumption.
Qed.

Lemma peek_returns : forall s, reachable s -> exists s1 t, peek s = (s1, Ok t).
Proof.
  intros s H.
  destruct (peek_settled s (reachable_wf _ H) (reachable_settled _ H)) as [_ [t E]].
  destruct (peek s) as [s1 r]. simpl in E. subst r. eauto.
Qed.

Lemma peek_placed : forall s s1 t,
  reachable s -> peek s = (s1, Ok t) -> placed (raw_scanner s1) t.
Proof.
  intros s s1 t H P.
  destruct (peek_settled s (reachable_wf _ H) (reachable_settled _ H)) as [(_ & _ & C) _].
  rewrite P in C. simpl in C. apply C. apply (peek_peeked _ _ _ P).
Qed.

(** ** [peek] and [read] *)

(** X7.  In every reachable state [peek()] and [read()] return a token:
    the two exceptions of the lexer are turned into ERROR tokens and no
    other exception (no [TypeError] from the length of a token's value, no
    [IndexError]) comes out of the raw scanner. *)
Theorem peek_and_read_return : forall s o,
  reachable s -> exists t, snd (run_op o s) = Ok t.
Proof.
  intros s o H. pose proof (reachable_wf _ H) as W.
  pose proof (reachable_settled _ H) as S.
  destruct o; simpl; [apply peek_settled | apply read_settled]; assumption.
Qed.

Lemma peek_and_read_return_witness :
  exists t, snd (run_op Read (init "@" None false)) = Ok t.
Proof.
  apply (peek_and_read_return (init "@" None false) Read). apply reach_init.
Defined.

(** X8.  Looking ahead does not consume: in every reachable state a
    second [peek()] gives the same token and leaves the state as the first
    did, the [next_is_*] checks leave the state [peek()] leaves, and
    [read()] after a [peek()] (or after a check) is the [read()] without
    it. *)
Theorem lookahead_does_not_consume : forall s q,
  reachable s ->
  peek (fst (peek s)) = peek s /\
  read (fst (peek s)) = read s /\
  fst (next_is q s) = fst (peek s) /\
  read (fst (next_is q s)) = read s.
Proof.
  intros s q H. destruct (peek_returns s H) as (s1 & t & P).
  pose proof (peek_again _ _ _ P) as P1.
  assert (R : read s1 = read s) by (unfold read; rewrite P, P1; reflexivity).
  assert (N : fst (next_is q s) = s1).
  { destruct q; simpl; unfold next_is_punct, next_is_keyword, next_is_indent,
      next_is_outdent, next_is_newline, next_is_eof;
      erewrite on_peek_at by exact P; reflexivity. }
  rewrite N, P. simpl. rewrite P1. auto.
Qed.

Lemma lookahead_does_not_consume_witness :
  let s := init "a b" None false in
  peek (fst (peek s)) = peek s /\
  read (fst (peek s)) = read s /\
  fst (next_is (Keyword "a") s) = fst (peek s) /\
  read (fst (next_is (Keyword "a") s)) = read s.
Proof.
  intros s. apply (lookahead_does_not_consume s (Keyword "a")). apply reach_init.
Defined.

(** X9.  In every reachable state a [require_*] call either is the
    [read()] of the next token (when the check holds), or raises a
    diagnostic and consumes nothing: the state is the one [peek()] leaves.
    Nothing but a diagnostic is ever raised. *)
Theorem require_reads_or_raises_diagnostic : forall s q,
  reachable s ->
  (require_ q s = read s /\ exists t, snd (read s) = Ok t) \/
  (exists d, snd (require_ q s) = Raise (Raised (VDiag d)) /\
             fst (require_ q s) = fst (peek s)).
Proof.
  intros s q H. destruct (peek_returns s H) as (s1 & t & P).
  pose proof (reachable_wf _ (reach_op s Peek H)) as (_ & _ & We & _).
  simpl in We. rewrite P in We. simpl in We.
  specialize (We t (peek_peeked _ _ _ P)).
  assert (G : forall test w,
            (require (on_peek test) w s = read s /\ exists t, snd (read s) = Ok t) \/
            (exists d, snd (require (on_peek test) w s) = Raise (Raised (VDiag d)) /\
                       fst (require (on_peek test) w s) = fst (peek s))).
  { intros test w. rewrite (require_on_peek test w s s1 t P).
    destruct (test t).
    - left. split; [reflexivity |]. unfold read. rewrite P. simpl. eauto.
    - right. rewrite P. destruct (type_is t "ERROR") eqn:E; simpl.
      + apply type_is_true in E. destruct (We E) as (_ & loc & [L | L]);
          rewrite L; eauto.
      + eauto. }
  destruct q; simpl; apply G.
Qed.

Lemma require_reads_or_raises_diagnostic_witness :
  let s := init "a b" None false in
  (require_ (Punct "=") s = read s /\ exists t, snd (read s) = Ok t) \/
  (exists d, snd (require_ (Punct "=") s) = Raise (Raised (VDiag d)) /\
             fst (require_ (Punct "=") s) = fst (peek s)).
Proof.
  intros s. apply (require_reads_or_raises_diagnostic s (Punct "=")). apply reach_init.
Defined.

(** ** Positions *)

Lemma placed_start : forall raw t r,
  placed raw t -> source_range t = Some r ->
  Tok.start r = location_at (Raw.position raw).
Proof.
  intros raw t r H E. unfold placed in H. rewrite E in H.
  destruct H as (_ & n & _ & R). subst r. reflexivity.
Qed.

Lemma placed_error : forall raw t,
  placed raw t -> type t = Some "ERROR" ->
  value t = VDiag (InvalidCharacter (location_at (Raw.position raw))) \/
  value t = VDiag (InvalidIndentation (location_at (Raw.position raw))).
Proof.
  intros raw t H E. unfold placed in H. destruct (source_range t).
  - destruct H as [N _]. contradiction.
  - destruct H as [[_ H] | [H _]]; [exact H | congruence].
Qed.

(** What [peek] gives in a reachable state where [peeking] is set: the
    raw scanner is not touched. *)
Lemma peek_while_peeking : forall s s1 t,
  reachable s -> peeking s = true -> peek s = (s1, Ok t) ->
  raw_scanner s1 = raw_scanner s /\ placed (raw_scanner s) t.
Proof.
  intros s s1 t H Pk P.
  destruct (reachable_settled _ H) as (_ & Sp & Sl).
  destruct (reachable_wf _ H) as (_ & _ & _ & Wf).
  specialize (Sp Pk). unfold peek in P.
  destruct (peeked s) as [t' |] eqn:Pe.
  - inversion P; subst. split; [reflexivity | apply Sl; reflexivity].
  - rewrite Sp in P. inversion P; subst. simpl. split; [reflexivity |].
    unfold placed. cbn [source_range type value]. rewrite (Wf Sp).
    right. split; reflexivity.
Qed.

(** The state and the position [location] hands back. *)
Lemma location_at_peek : forall s s1 t,
  reachable s -> peek s = (s1, Ok t) ->
  exists s1', location s = (s1', Ok (location_at (Raw.position (raw_scanner s1)))) /\
              read s1' = read s.
Proof.
  intros s s1 t H P. unfold location, raw_position.
  destruct (peeking s) eqn:Pk.
  - destruct (peek_while_peeking _ _ _ H Pk P) as [E _].
    exists s. rewrite E. split; reflexivity.
  - rewrite P. exists s1. split; [reflexivity |].
    unfold read. rewrite P, (peek_again _ _ _ P). reflexivity.
Qed.

(** X10.  In every reachable state [location] raises nothing and gives the
    place of the next token: the start of the range of the token [peek()]
    returns, when that token has a range, and the location carried by the
    diagnostic when it is an ERROR token. *)
Theorem location_is_start_of_next_token : forall s,
  reachable s ->
  exists loc t,
    snd (location s) = Ok loc /\ snd (peek s) = Ok t /\
    (forall r, source_range t = Some r -> Tok.start r = loc) /\
    (type t = Some "ERROR" ->
     value t = VDiag (InvalidCharacter loc) \/ value t = VDiag (InvalidIndentation loc)).
Proof.
  intros s H. destruct (peek_returns s H) as (s1 & t & P).
  destruct (location_at_peek _ _ _ H P) as (s1' & L & _).
  pose proof (peek_placed _ _ _ H P) as Pl.
  exists (location_at (Raw.position (raw_scanner s1))), t.
  rewrite L, P. simpl. split; [reflexivity |]. split; [reflexivity |].
  split; [intros r; apply placed_start; exact Pl | apply placed_error; exact Pl].
Qed.

Lemma location_is_start_of_next_token_witness :
  let s := fst (run_op Read (init "ab cd" None false)) in
  exists loc t,
    snd (location s) = Ok loc /\ snd (peek s) = Ok t /\
    (forall r, source_range t = Some r -> Tok.start r = loc) /\
    (type t = Some "ERROR" ->
     value t = VDiag (InvalidCharacter loc) \/ value t = VDiag (InvalidIndentation loc)).
Proof.
  intros s. apply (location_is_start_of_next_token s).
  exact (reach_op (init "ab cd" None false) Read (reach_init "ab cd" None false)).
Defined.

(** X11.  The source range of a token [peek()] or [read()] returns in a
    reachable state: if it has one, the token is not an ERROR token, the
    range lies on one line of one file, starts at column 1 or later and is
    as wide as the token's text (0 for NEWLINE, INDENT and OUTDENT); if it
    has none, the token is an ERROR token or the EOF that follows one. *)
Theorem token_range_shape : forall s o t,
  reachable s -> snd (run_op o s) = Ok t ->
  match source_range t with
  | Some r =>
      type t <> Some "ERROR" /\
      filename (Tok.end_ r) = filename (Tok.start r) /\
      line (Tok.end_ r) = line (Tok.start r) /\
      1 <= column (Tok.start r) /\
      exists n, token_length t = Some n /\
                column (Tok.end_ r) = column (Tok.start r) + n
  | None => type t = Some "ERROR" \/ (type t = Some "EOF" /\ value t = VNone)
  end.
Proof.
  intros s o t H E. destruct (peek_returns s H) as (s1 & t' & P).
  assert (t' = t).
  { destruct o; simpl in E; [rewrite P in E | unfold read in E; rewrite P in E];
      simpl in E; congruence. }
  subst t'. pose proof (peek_placed _ _ _ H P) as Pl. unfold placed in Pl.
  destruct (source_range t) as [r |].
  - destruct Pl as (N & n & L & R). split; [exact N |]. subst r.
    unfold location_at, shift. destruct (Raw.position (raw_scanner s1)) as [[f l] c].
    cbn. split; [reflexivity |]. split; [reflexivity |]. split; [lia |].
    exists n. split; [exact L | reflexivity].
  - destruct Pl as [[Pl _] | Pl]; [left | right]; exact Pl.
Qed.

Lemma token_range_shape_witness :
  let s := init "ab cd" None false in
  let t := mkToken (Some "IDENT") (VStr "ab")
             (Some {| Tok.start := {| filename := None; line := 1; column := 1 |};
                      Tok.end_ := {| filename := None; line := 1; column := 3 |} |}) in
  match source_range t with
  | Some r =>
      type t <> Some "ERROR" /\
      filename (Tok.end_ r) = filename (Tok.start r) /\
      line (Tok.end_ r) = line (Tok.start r) /\
      1 <= column (Tok.start r) /\
      exists n, token_length t = Some n /\
                column (Tok.end_ r) = column (Tok.start r) + n
  | None => type t = Some "ERROR" \/ (type t = Some "EOF" /\ value t = VNone)
  end.
Proof.
  intros s t. apply (token_range_shape s Read t).
  - apply reach_init.
  - vm_compute. reflexivity.
Defined.

(** X12.  A range builder begun in a reachable state and ended after one
    [read()]: [begin_range()] raises nothing and does not change what
    [read()] returns; [end()] gives exactly the range of the token read,
    and raises [AttributeError] when that token has no range (an ERROR
    token, or the EOF after it). *)
Theorem builder_spans_the_token_read : forall s,
  reachable s ->
  exists s1 b s2 t,
    begin_range s = (s1, Ok b) /\
    read s1 = (s2, Ok t) /\ snd (read s) = Ok t /\
    Builder.end_ b s2 =
      match source_range t with
      | Some r => Fine r
      | None => Fails (AttributeError "end")
      end.
Proof.
  intros s H. destruct (peek_returns s H) as (s1 & t & P).
  destruct (location_at_peek _ _ _ H P) as (s1' & L & R).
  pose proof (peek_placed _ _ _ H P) as Pl.
  assert (Rd : read s = ({| raw_scanner := raw_scanner s1; peeked := None;
                            peeking := peeking s1; last_token := t;
                            force_eof := force_eof s1 |}, Ok t)).
  { unfold read. rewrite P. reflexivity. }
  exists s1', {| Builder.start := location_at (Raw.position (raw_scanner s1)) |}.
  eexists. exists t. unfold begin_range. rewrite L, R, Rd.
  split; [reflexivity |]. split; [reflexivity |]. split; [reflexivity |].
  unfold Builder.end_, last_token_range. cbn [last_token Builder.start].
  destruct (source_range t) as [r |] eqn:Sr; [| reflexivity].
  rewrite <- (placed_start _ _ _ Pl Sr). destruct r; reflexivity.
Qed.

Lemma builder_spans_the_token_read_witness :
  let s := init "ab cd" None false in
  exists s1 b s2 t,
    begin_range s = (s1, Ok b) /\
    read s1 = (s2, Ok t) /\ snd (read s) = Ok t /\
    Builder.end_ b s2 =
      match source_range t with
      | Some r => Fine r
      | None => Fails (AttributeError "end")
      end.
Proof.
  intros s. apply (builder_spans_the_token_read s). apply reach_init.
Defined.

(** ** Equality of locations and ranges *)

Lemma field_eq_eq : forall a b, field_eq a b = true <-> a = b.
Proof.
  intros a b. destruct a, b; simpl; split; intros H; try discriminate;
    try reflexivity.
  - apply String.eqb_eq in H. subst. reflexivity.
  - inversion H. apply String.eqb_refl.
  - apply Nat.eqb_eq in H. subst. reflexivity.
  - inversion H. apply Nat.eqb_refl.
Qed.

Lemma same_fields_eq : forall a b, same_fields (fields a) (fields b) = true <-> a = b.
Proof.
  intros [af al ac] [bf bl bc]. unfold same_fields, fields, filename_field.
  cbn [filename line column].
  rewrite !andb_true_iff, !field_eq_eq. split.
  - intros [[F L] C]. inversion L. inversion C. subst.
    destruct af, bf; inversion F; reflexivity.
  - intros E. inversion E. subst. auto.
Qed.

(** X13.  [SourceLocation.__eq__]: two locations are equal exactly when
    file name, line and column agree; comparing with the 3-tuple of a
    location is comparing with that location; a location never equals
    [None]; and a tuple of any other length raises [TypeError]. *)
Theorem location_equality : forall a b,
  (SourceLocation_eq a (OLocation b) = Fine true <-> a = b) /\
  SourceLocation_eq a (OTuple [filename_field b; FInt (line b); FInt (column b)])
  = SourceLocation_eq a (OLocation b) /\
  SourceLocation_eq a ONone = Fine false /\
  (forall items, List.length items <> 3 ->
                 SourceLocation_eq a (OTuple items) = Fails (Builtin TypeError)).
Proof.
  intros a b. split; [| split; [reflexivity | split; [reflexivity |]]].
  - simpl. split.
    + intros E. inversion E as [E']. apply same_fields_eq. exact E'.
    + intros E. f_equal. apply same_fields_eq. exact E.
  - intros items L. destruct items as [| x [| y [| z [| w r]]]]; simpl in *;
      try reflexivity. contradiction.
Qed.

Lemma location_equality_witness :
  let a := {| filename := Some "f"; line := 3; column := 7 |} in
  SourceLocation_eq a (OTuple [FStr "f"; FInt 3; FInt 7]) = Fine true /\
  SourceLocation_eq a (OTuple [FStr "f"; FInt 3]) = Fails (Builtin TypeError).
Proof.
  intros a. destruct (location_equality a a) as (E & T & _ & L). split.
  - change (OTuple [FStr "f"; FInt 3; FInt 7])
      with (OTuple [filename_field a; FInt (line a); FInt (column a)]).
    rewrite T. apply E. reflexivity.
  - apply L. simpl. lia.
Defined.

(** X14.  [SourceRange.__eq__]: comparing two ranges raises nothing, and
    they are equal exactly when both ends are equal locations; a range
    never equals [None]. *)
Theorem range_equality : forall a b,
  (exists v, SourceRange_eq a (ORange b) = Fine v) /\
  (SourceRange_eq a (ORange b) = Fine true <-> a = b) /\
  SourceRange_eq a ONone = Fine false.
Proof.
  intros [a1 a2] [b1 b2]. unfold SourceRange_eq, SourceLocation_eq.
  cbn [Tok.start Tok.end_].
  pose proof (same_fields_eq a1 b1) as S1. pose proof (same_fields_eq a2 b2) as S2.
  destruct (same_fields (fields a1) (fields b1)).
  - split; [eauto |]. split; [| reflexivity]. split.
    + intros E. inversion E as [E2]. f_equal; [apply S1 | apply S2]; auto.
    + intros E. inversion E. subst. f_equal. apply S2. reflexivity.
  - split; [eauto |]. split; [| reflexivity]. split; [discriminate |].
    intros E. inversion E. subst. destruct S1 as [_ S1]. specialize (S1 eq_refl).
    discriminate.
Qed.

Lemma range_equality_witness :
  let l := {| filename := None; line := 1; column := 1 |} in
  let r := {| Tok.start := l; Tok.end_ := shift 2 l |} in
  SourceRange_eq r (ORange r) = Fine true.
Proof.
  intros l r. apply (proj1 (proj2 (range_equality r r))). reflexivity.
Defined.

End SrcFacts.

(* ===================================================================== *)
(** * Facts about the tokens of the lexicon                                *)
(* ===================================================================== *)

Module LexFacts.

Import Plex Tok Raw Lex PlexFacts RawFacts.

Local Open Scope nat_scope.

(** ** Running rules of which one machine is alive *)

Section Munch.

Variable fam : machine -> rules action.
Variable act : action.
Hypothesis fam_accepting :
  forall m, accepting (fam m) = if accepts_empty m then Some act else None.
Hypothesis fam_advance : forall x m, advance x (fam m) = fam (der x m).
Hypothesis fam_blocked : forall m, blocked (fam m) = dead m.

Lemma fam_step : forall m x rest n bk,
  dead (der x m) = false ->
  run_machine (fam m) (x :: rest) n bk
  = run_machine (fam (der x m)) rest (S n)
      (if accepts_empty m then Some (act, n) else bk).
Proof.
  intros m x rest n bk D.
  rewrite run_machine_cons, fam_accepting, fam_advance, fam_blocked, D.
  destruct (accepts_empty m); reflexivity.
Qed.

Lemma fam_stop : forall m x rest n bk,
  accepts_empty m = true -> dead (der x m) = true ->
  run_machine (fam m) (x :: rest) n bk = (Some (act, n), n).
Proof.
  intros m x rest n bk A D.
  rewrite run_machine_cons, fam_accepting, fam_advance, fam_blocked, A, D.
  reflexivity.
Qed.

Lemma fam_block : forall m x rest n bk,
  accepts_empty m = false -> dead (der x m) = true ->
  run_machine (fam m) (x :: rest) n bk = (bk, n).
Proof.
  intros m x rest n bk A D.
  rewrite run_machine_cons, fam_accepting, fam_advance, fam_blocked, A, D.
  reflexivity.
Qed.

Lemma fam_end : forall rest n bk,
  run_machine (fam MEps) rest n bk = (Some (act, n), n).
Proof.
  intros [| x rest] n bk.
  - cbn [run_machine]. rewrite fam_accepting. reflexivity.
  - apply fam_stop; reflexivity.
Qed.

(** Reading characters of a class on which the machine loops. *)
Lemma fam_loop : forall (inner : sym -> bool) m1 m2,
  dead m2 = false ->
  (forall x, inner x = true -> der x m1 = m2 /\ der x m2 = m2) ->
  forall w rest n bk,
    forallb inner w = true ->
    exists m bk',
      (m = m1 \/ m = m2) /\
      run_machine (fam m1) (w ++ rest) n bk
      = run_machine (fam m) rest (n + List.length w) bk'.
Proof.
  intros inner m1 m2 D Hin.
  assert (L : forall w rest n bk,
            forallb inner w = true ->
            exists bk', run_machine (fam m2) (w ++ rest) n bk
                        = run_machine (fam m2) rest (n + List.length w) bk').
  { induction w as [| x w IH]; intros rest n bk Hw.
    - exists bk. simpl. rewrite Nat.add_0_r. reflexivity.
    - simpl in Hw. apply andb_true_iff in Hw as [Hx Hw].
      destruct (Hin x Hx) as [_ E2]. cbn [app List.length].
      rewrite fam_step by (rewrite E2; exact D). rewrite E2.
      destruct (IH rest (S n) (if accepts_empty m2 then Some (act, n) else bk) Hw)
        as [bk' E].
      exists bk'. rewrite E. f_equal. lia. }
  intros [| x w] rest n bk Hw.
  - exists m1, bk. split; [left; reflexivity |]. simpl. rewrite Nat.add_0_r. reflexivity.
  - simpl in Hw. apply andb_true_iff in Hw as [Hx Hw].
    destruct (Hin x Hx) as [E1 _]. cbn [app List.length].
    rewrite fam_step by (rewrite E1; exact D). rewrite E1.
    destruct (L w rest (S n) (if accepts_empty m1 then Some (act, n) else bk) Hw)
      as [bk' E].
    exists m2, bk'. split; [right; reflexivity |]. rewrite E. f_equal. lia.
Qed.

(** The longest match: the characters of the class are all taken, and the
    match ends in front of the first pseudo character that stops the
    machine. *)
Lemma fam_munch : forall (inner stop : sym -> bool) m1 m2,
  accepts_empty m1 = true -> accepts_empty m2 = true -> dead m2 = false ->
  (forall x, inner x = true -> der x m1 = m2 /\ der x m2 = m2) ->
  (forall x, stop x = true -> dead (der x m1) = true /\ dead (der x m2) = true) ->
  forall w x rest n bk,
    forallb inner w = true -> stop x = true ->
    run_machine (fam m1) (w ++ x :: rest) n bk
    = (Some (act, n + List.length w), n + List.length w).
Proof.
  intros inner stop m1 m2 A1 A2 D Hin Hstop w x rest n bk Hw Hx.
  destruct (fam_loop inner m1 m2 D Hin w (x :: rest) n bk Hw) as (m & bk' & Hm & E).
  rewrite E. destruct (Hstop x Hx) as [S1 S2].
  destruct Hm; subst m; apply fam_stop; assumption.
Qed.

End Munch.

(** The rules of the default state with one pattern alive. *)
Lemma solo_family : forall i act,
  rule_action i = Some act ->
  (forall m, accepting (solo i m) = if accepts_empty m then Some act else None) /\
  (forall x m, advance x (solo i m) = solo i (der x m)) /\
  (forall m, blocked (solo i m) = dead m).
Proof.
  intros i act H.
  do 9 (destruct i as [| i];
        [ inversion H; subst act; split;
          [ intros m; unfold accepting, solo; simpl; destruct (accepts_empty m); reflexivity
          | split; [reflexivity |];
            intros m; unfold blocked, solo; simpl; rewrite ?andb_true_r; reflexivity ]
        | ]).
  unfold rule_action in H. simpl in H. destruct i; discriminate H.
Qed.

Lemma indenting_family :
  (forall m, accepting (indenting m)
             = if accepts_empty m then Some (Call handle_indentation) else None) /\
  (forall x m, advance x (indenting m) = indenting (der x m)) /\
  (forall m, blocked (indenting m) = dead m).
Proof.
  split; [| split].
  - intros m. unfold accepting, indenting. simpl. destruct (accepts_empty m); reflexivity.
  - reflexivity.
  - intros m. unfold blocked, indenting. simpl. apply andb_true_r.
Qed.

(** ** From a match to a round of [read] *)

Lemma chars_of_chars : forall w, chars_of (chars w) = string_of_list_ascii w.
Proof. induction w as [| c w IH]; simpl; [reflexivity | rewrite IH; reflexivity]. Qed.

Lemma chars_of_pre : forall pre tok,
  pre = [] \/ pre = [BOL] -> chars_of (pre ++ tok) = chars_of tok.
Proof. intros pre tok [E | E]; subst pre; reflexivity. Qed.

(** The match the machine reports is the token [scan_a_token] returns. *)
Lemma scan_token_at : forall s tok rest a k,
  run_machine (lexicon (state_name s)) (pending (inp s)) 0 None
  = (Some (a, List.length tok), k) ->
  pending (inp s) = tok ++ rest ->
  scan_a_token s =
    (set_inp (advance_by (List.length tok) (inp s))
       (set_start (cur_pos (inp s)) (cur_line (inp s))
          (cur_pos (inp s) - cur_line_start (inp s)) s),
     Ok (chars_of tok, Some a)) /\
  pending (advance_by (List.length tok) (inp s)) = rest.
Proof.
  intros s tok rest a k R P.
  destruct (LitFacts.firstn_exact _ tok rest (List.length tok) eq_refl) as [F1 F2].
  split.
  - unfold scan_a_token. cbv zeta. rewrite R, P, F1. reflexivity.
  - rewrite pending_advance_by, P. exact F2.
Qed.

(** The start of a token of the default state, at the start of a line or
    inside it. *)
Lemma default_first : forall pre c i m rest,
  pre = [] \/ pre = [BOL] ->
  advance (Ch c) (lexicon Default) = solo i m ->
  advance (Ch c) (advance BOL (lexicon Default)) = solo i m ->
  i < 9 -> dead m = false ->
  run_machine (lexicon Default) (pre ++ Ch c :: rest) 0 None
  = run_machine (solo i m) rest (List.length pre + 1) None.
Proof.
  intros pre c i m rest Hpre A1 A2 Hi D.
  assert (B : blocked (solo i m) = false).
  { do 9 (destruct i as [| i];
          [unfold blocked, solo; simpl; rewrite ?andb_true_r; exact D |]).
    lia. }
  destruct Hpre; subst pre; cbn [app List.length].
  - rewrite run_machine_cons, default_not_nullable, A1, B. reflexivity.
  - destruct default_after_bol as [D1 D2].
    rewrite run_machine_cons, default_not_nullable, D1. cbv zeta.
    rewrite run_machine_cons, D2, A2, B. reflexivity.
Qed.

(** ** Facts about all characters, by cases *)

Ltac each_char c :=
  destruct c as [b0 b1 b2 b3 b4 b5 b6 b7];
  destruct b0, b1, b2, b3, b4, b5, b6, b7.

(** Decides a goal about a character of a class: the cases outside the
    class go by the hypothesis, the others by computation. *)
Ltac by_class H :=
  vm_compute in H;
  first [ discriminate H
        | contradiction H; reflexivity
        | clear H; repeat split; vm_compute; reflexivity ].

Ltac by_sym x H :=
  let c := fresh "c" in
  destruct x as [c | | |];
  [ each_char c; by_class H | by_class H | by_class H | by_class H ].

(** ** Identifiers *)

Lemma ident_begins : forall c,
  ident_start c = true ->
  advance (Ch c) (lexicon Default) = solo 2 ident_1 /\
  advance (Ch c) (advance BOL (lexicon Default)) = solo 2 ident_1.
Proof. intros c H. each_char c; by_class H. Qed.

Lemma ident_moves : forall x,
  of_class ident_char x = true -> der x ident_1 = ident_2 /\ der x ident_2 = ident_2.
Proof. intros x H. by_sym x H. Qed.

Lemma ident_stops : forall x,
  outside ident_char x = true ->
  dead (der x ident_1) = true /\ dead (der x ident_2) = true.
Proof. intros x H. by_sym x H. Qed.

Lemma forallb_chars : forall p w,
  forallb p w = true -> forallb (of_class p) (chars w) = true.
Proof.
  intros p. induction w as [| c w IH]; simpl; [reflexivity |].
  intros H. apply andb_true_iff in H as [A B]. rewrite A. simpl. apply IH. exact B.
Qed.

Lemma chars_length : forall w, List.length (chars w) = List.length w.
Proof. intros w. apply length_map. Qed.

(** X15.  An identifier is one token, as long as it goes: in the default
    state, in front of a letter or underscore followed by letters,
    underscores and digits and then by something else (a character outside
    this class, or the end of the line), the round of [read] produces one
    IDENT token whose text is all of these characters, and stops right
    behind them. *)
Theorem identifier_is_one_token : forall s pre c w x rest,
  state_name s = Default ->
  pre = [] \/ pre = [BOL] ->
  pending (inp s) = pre ++ chars (c :: w) ++ x :: rest ->
  ident_start c = true -> forallb ident_char w = true ->
  outside ident_char x = true ->
  exists s',
    scan_step s = (s', Ok tt) /\
    queue s' = queue s ++ [(Some "IDENT", VStr (string_of_list_ascii (c :: w)))] /\
    pending (inp s') = x :: rest /\
    state_name s' = Default /\ indents s' = indents s /\
    bracket_count s' = bracket_count s.
Proof.
  intros s pre c w x rest St Hpre P Hc Hw Hx.
  assert (O : accepts_empty ident_1 = true /\ accepts_empty ident_2 = true /\
              dead ident_1 = false /\ dead ident_2 = false)
    by (repeat split; vm_compute; reflexivity).
  destruct (ident_begins c Hc) as [A1 A2].
  destruct (solo_family 2 (Return "IDENT") eq_refl) as (F1 & F2 & F3).
  set (tok := pre ++ chars (c :: w)).
  assert (Lt : List.length tok = List.length pre + 1 + List.length (chars w)).
  { unfold tok, chars. rewrite length_app. cbn [map List.length]. lia. }
  assert (R : run_machine (lexicon (state_name s)) (pending (inp s)) 0 None
              = (Some (Return "IDENT", List.length tok), List.length tok)).
  { rewrite St, P. cbn [chars map app].
    rewrite (default_first pre c 2 ident_1 _ Hpre A1 A2 ltac:(lia) (proj1 (proj2 (proj2 O)))).
    fold (chars w).
    rewrite (fam_munch (solo 2) (Return "IDENT") F1 F2 F3
               (of_class ident_char) (outside ident_char) ident_1 ident_2
               (proj1 O) (proj1 (proj2 O)) (proj2 (proj2 (proj2 O))) ident_moves ident_stops
               (chars w) x rest _ None (forallb_chars _ _ Hw) Hx).
    rewrite Lt. reflexivity. }
  assert (P2 : pending (inp s) = tok ++ x :: rest).
  { rewrite P. unfold tok. rewrite <- app_assoc. reflexivity. }
  destruct (scan_token_at s tok (x :: rest) _ _ R P2) as [Hs Hp].
  unfold scan_step. rewrite Hs. cbn [perform].
  eexists. split; [reflexivity |].
  split; [| split; [exact Hp | split; [exact St | split; reflexivity]]].
  cbn [produce set_queue queue set_text set_inp set_start text].
  unfold tok. rewrite (chars_of_pre pre _ Hpre), chars_of_chars. reflexivity.
Qed.

Lemma identifier_is_one_token_witness :
  let s := set_queue [] (fst (scan_step (init "if_1(x)" None false))) in
  exists s',
    scan_step s = (s', Ok tt) /\
    queue s' = queue s ++ [(Some "IDENT", VStr "if_1")] /\
    pending (inp s') = Ch "("%char :: [Ch "x"%char; Ch ")"%char; EOL; EOF] /\
    state_name s' = Default /\ indents s' = indents s /\
    bracket_count s' = bracket_count s.
Proof.
  intros s.
  apply (identifier_is_one_token s [BOL] "i"%char
           ["f"%char; "_"%char; "1"%char] (Ch "("%char)
           [Ch "x"%char; Ch ")"%char; EOL; EOF]).
  - vm_compute. reflexivity.
  - right. reflexivity.
  - vm_compute. reflexivity.
  - reflexivity.
  - reflexivity.
  - reflexivity.
Defined.

(** ** Numbers *)

Lemma zero_begins :
  advance (Ch "0") (lexicon Default) = solo 0 zero_1 /\
  advance (Ch "0") (advance BOL (lexicon Default)) = solo 0 zero_1.
Proof. split; vm_compute; reflexivity. Qed.

Lemma radix_2_eq : forall r, der (Ch (radix_letter r)) zero_1 = radix_2 r.
Proof. intros r. unfold radix_2. reflexivity. Qed.

Lemma radix_open : forall r,
  accepts_empty zero_1 = true /\ dead zero_1 = false /\
  accepts_empty (radix_2 r) = false /\ dead (radix_2 r) = false /\
  accepts_empty (radix_3 r) = true /\ dead (radix_3 r) = false.
Proof. intros []; repeat split; vm_compute; reflexivity. Qed.

Lemma radix_moves : forall r x,
  of_class (radix_char r) x = true ->
  der x (radix_2 r) = radix_3 r /\ der x (radix_3 r) = radix_3 r.
Proof. intros r x H. destruct r; by_sym x H. Qed.

Lemma radix_stops : forall r x,
  outside (radix_char r) x = true -> dead (der x (radix_3 r)) = true.
Proof. intros r x H. destruct r; by_sym x H. Qed.

(** X16.  A prefixed number is one token: in the default state, [0x]
    followed by letters and digits (any letters, not only [a] to [f]), or
    [0b] followed by decimal digits (any digits, not only 0 and 1), and
    then by something outside that class, gives one NUMBER token with all
    of these characters. *)
Theorem prefixed_number_is_one_token : forall r s pre c w x rest,
  state_name s = Default ->
  pre = [] \/ pre = [BOL] ->
  pending (inp s) = pre ++ chars ("0"%char :: radix_letter r :: c :: w) ++ x :: rest ->
  forallb (radix_char r) (c :: w) = true ->
  outside (radix_char r) x = true ->
  exists s',
    scan_step s = (s', Ok tt) /\
    queue s' = queue s
               ++ [(Some "NUMBER",
                    VStr (string_of_list_ascii ("0"%char :: radix_letter r :: c :: w)))] /\
    pending (inp s') = x :: rest /\
    state_name s' = Default /\ indents s' = indents s /\
    bracket_count s' = bracket_count s.
Proof.
  intros r s pre c w x rest St Hpre P Hw Hx.
  destruct zero_begins as [A1 A2].
  destruct (radix_open r) as (O1 & O2 & O3 & O4 & O5 & O6).
  destruct (solo_family 0 (Return "NUMBER") eq_refl) as (F1 & F2 & F3).
  simpl in Hw. apply andb_true_iff in Hw as [Hc Hw].
  destruct (radix_moves r (Ch c) Hc) as [M1 _].
  set (tok := pre ++ chars ("0"%char :: radix_letter r :: c :: w)).
  assert (Lt : List.length tok = List.length pre + 1 + 1 + 1 + List.length (chars w)).
  { unfold tok, chars. rewrite length_app. cbn [map List.length]. lia. }
  assert (R : run_machine (lexicon (state_name s)) (pending (inp s)) 0 None
              = (Some (Return "NUMBER", List.length tok), List.length tok)).
  { rewrite St, P. cbn [chars map app].
    rewrite (default_first pre "0"%char 0 zero_1 _ Hpre A1 A2 (Nat.lt_0_succ 8) O2).
    rewrite (fam_step (solo 0) (Return "NUMBER") F1 F2 F3 zero_1 (Ch (radix_letter r)))
      by (rewrite radix_2_eq; exact O4).
    rewrite radix_2_eq.
    rewrite (fam_step (solo 0) (Return "NUMBER") F1 F2 F3 (radix_2 r) (Ch c))
      by (rewrite M1; exact O6).
    rewrite M1. fold (chars w).
    rewrite (fam_munch (solo 0) (Return "NUMBER") F1 F2 F3
               (of_class (radix_char r)) (outside (radix_char r))
               (radix_3 r) (radix_3 r) O5 O5 O6
               (fun y Hy => conj (proj2 (radix_moves r y Hy)) (proj2 (radix_moves r y Hy)))
               (fun y Hy => conj (radix_stops r y Hy) (radix_stops r y Hy))
               (chars w) x rest _ _ (forallb_chars _ _ Hw) Hx).
    rewrite Lt. f_equal; [f_equal; f_equal |]; lia. }
  assert (P2 : pending (inp s) = tok ++ x :: rest).
  { rewrite P. unfold tok. rewrite <- app_assoc. reflexivity. }
  destruct (scan_token_at s tok (x :: rest) _ _ R P2) as [Hs Hp].
  unfold scan_step. rewrite Hs. cbn [perform].
  eexists. split; [reflexivity |].
  split; [| split; [exact Hp | split; [exact St | split; reflexivity]]].
  cbn [produce set_queue queue set_text set_inp set_start text].
  unfold tok. rewrite (chars_of_pre pre _ Hpre), chars_of_chars. reflexivity.
Qed.

Lemma prefixed_number_is_one_token_witness :
  let s := set_queue [] (fst (scan_step (init "0xfg+0b02" None false))) in
  exists s',
    scan_step s = (s', Ok tt) /\
    queue s' = queue s ++ [(Some "NUMBER", VStr "0xfg")] /\
    pending (inp s') = Ch "+"%char :: chars (list_ascii_of_string "0b02") ++ [EOL; EOF] /\
    state_name s' = Default /\ indents s' = indents s /\
    bracket_count s' = bracket_count s.
Proof.
  intros s.
  apply (prefixed_number_is_one_token Hex s [BOL] "f"%char ["g"%char] (Ch "+"%char)
           (chars (list_ascii_of_string "0b02") ++ [EOL; EOF])).
  - vm_compute. reflexivity.
  - right. reflexivity.
  - vm_compute. reflexivity.
  - reflexivity.
  - reflexivity.
Defined.

Lemma digit_begins : forall c,
  is_digit c = true ->
  advance (Ch c) (lexicon Default)
  = solo 0 (if Ascii.eqb c "0" then zero_1 else digits_1) /\
  advance (Ch c) (advance BOL (lexicon Default))
  = solo 0 (if Ascii.eqb c "0" then zero_1 else digits_1).
Proof. intros c H. each_char c; by_class H. Qed.

Lemma digit_moves : forall x,
  of_class is_digit x = true ->
  der x zero_1 = digits_1 /\ der x digits_1 = digits_1.
Proof. intros x H. by_sym x H. Qed.

Lemma digit_stops : forall x,
  outside number_char x = true ->
  dead (der x zero_1) = true /\ dead (der x digits_1) = true.
Proof. intros x H. by_sym x H. Qed.

(** X17.  A run of decimal digits is one token: in the default state, in
    front of digits followed by something that is neither a digit nor one
    of the characters [.], [E], [x] and [b], the round of [read] produces
    one NUMBER token with all the digits (leading zeros included). *)
Theorem digits_are_one_token : forall s pre c w x rest,
  state_name s = Default ->
  pre = [] \/ pre = [BOL] ->
  pending (inp s) = pre ++ chars (c :: w) ++ x :: rest ->
  forallb is_digit (c :: w) = true ->
  outside number_char x = true ->
  exists s',
    scan_step s = (s', Ok tt) /\
    queue s' = queue s ++ [(Some "NUMBER", VStr (string_of_list_ascii (c :: w)))] /\
    pending (inp s') = x :: rest /\
    state_name s' = Default /\ indents s' = indents s /\
    bracket_count s' = bracket_count s.
Proof.
  intros s pre c w x rest St Hpre P Hw Hx.
  simpl in Hw. apply andb_true_iff in Hw as [Hc Hw].
  destruct (digit_begins c Hc) as [A1 A2].
  destruct (solo_family 0 (Return "NUMBER") eq_refl) as (F1 & F2 & F3).
  set (m1 := if Ascii.eqb c "0" then zero_1 else digits_1) in *.
  assert (Hd1 : accepts_empty digits_1 = true /\ dead digits_1 = false)
    by (split; vm_compute; reflexivity).
  assert (Hz1 : accepts_empty zero_1 = true /\ dead zero_1 = false)
    by (split; vm_compute; reflexivity).
  assert (Hm : (accepts_empty m1 = true /\ dead m1 = false) /\
               (forall y, of_class is_digit y = true ->
                          der y m1 = digits_1 /\ der y digits_1 = digits_1) /\
               (forall y, outside number_char y = true ->
                          dead (der y m1) = true /\ dead (der y digits_1) = true)).
  { unfold m1. destruct (Ascii.eqb c "0").
    - split; [exact Hz1 |]. split; [exact digit_moves | exact digit_stops].
    - split; [exact Hd1 |]. split.
      + intros y Hy. destruct (digit_moves y Hy). auto.
      + intros y Hy. destruct (digit_stops y Hy). auto. }
  destruct Hm as ((Ha & Hd) & Hmv & Hst).
  set (tok := pre ++ chars (c :: w)).
  assert (Lt : List.length tok = List.length pre + 1 + List.length (chars w)).
  { unfold tok, chars. rewrite length_app. cbn [map List.length]. lia. }
  assert (R : run_machine (lexicon (state_name s)) (pending (inp s)) 0 None
              = (Some (Return "NUMBER", List.length tok), List.length tok)).
  { rewrite St, P. cbn [chars map app].
    rewrite (default_first pre c 0 m1 _ Hpre A1 A2 (Nat.lt_0_succ 8) Hd).
    fold (chars w).
    rewrite (fam_munch (solo 0) (Return "NUMBER") F1 F2 F3
               (of_class is_digit) (outside number_char) m1 digits_1
               Ha (proj1 Hd1) (proj2 Hd1) Hmv Hst
               (chars w) x rest _ None (forallb_chars _ _ Hw) Hx).
    rewrite Lt. reflexivity. }
  assert (P2 : pending (inp s) = tok ++ x :: rest).
  { rewrite P. unfold tok. rewrite <- app_assoc. reflexivity. }
  destruct (scan_token_at s tok (x :: rest) _ _ R P2) as [Hs Hp].
  unfold scan_step. rewrite Hs. cbn [perform].
  eexists. split; [reflexivity |].
  split; [| split; [exact Hp | split; [exact St | split; reflexivity]]].
  cbn [produce set_queue queue set_text set_inp set_start text].
  unfold tok. rewrite (chars_of_pre pre _ Hpre), chars_of_chars. reflexivity.
Qed.

Lemma digits_are_one_token_witness :
  let s := set_queue [] (fst (scan_step (init "007)" None false))) in
  exists s',
    scan_step s = (s', Ok tt) /\
    queue s' = queue s ++ [(Some "NUMBER", VStr "007")] /\
    pending (inp s') = Ch ")"%char :: [EOL; EOF] /\
    state_name s' = Default /\ indents s' = indents s /\
    bracket_count s' = bracket_count s.
Proof.
  intros s.
  apply (digits_are_one_token s [BOL] "0"%char ["0"%char; "7"%char] (Ch ")"%char)
           [EOL; EOF]).
  - vm_compute. reflexivity.
  - right. reflexivity.
  - vm_compute. reflexivity.
  - reflexivity.
  - reflexivity.
Defined.

(** ** Comments *)

Lemma comment_begins :
  advance (Ch "#") (lexicon Default) = solo 8 comment_1 /\
  advance (Ch "#") (advance BOL (lexicon Default)) = solo 8 comment_1.
Proof. split; vm_compute; reflexivity. Qed.

Lemma comment_moves : forall x,
  of_class not_newline x = true ->
  der x comment_1 = comment_2 /\ der x comment_2 = comment_2.
Proof. intros x H. by_sym x H. Qed.

Lemma comment_open :
  dead comment_1 = false /\ dead comment_2 = false /\ dead comment_eol = false /\
  der EOL comment_1 = comment_eol /\ der EOL comment_2 = comment_eol /\
  der (Ch nl) comment_eol = MEps.
Proof. repeat split; vm_compute; reflexivity. Qed.

Lemma last_char_cons : forall c t, exists d, last_char (String c t) = Some d.
Proof.
  intros c t. revert c. induction t as [| e t IH]; intros c; simpl; eauto.
Qed.

(** X18.  A comment is treated like a newline: in the default state, in
    front of [#], characters other than the newline, and the newline, the
    round of [read] consumes all of it, newline included, and raises
    nothing; at bracket depth 0 it produces exactly one NEWLINE token and
    enters the 'indent' state, inside brackets it produces nothing and
    stays in the default state. *)
Theorem comment_is_a_newline : forall s pre w rest,
  state_name s = Default ->
  pre = [] \/ pre = [BOL] ->
  pending (inp s) = pre ++ Ch "#" :: chars w ++ EOL :: Ch nl :: rest ->
  forallb not_newline w = true ->
  exists s',
    scan_step s = (s', Ok tt) /\
    pending (inp s') = rest /\
    indents s' = indents s /\ bracket_count s' = bracket_count s /\
    (bracket_count s = 0 ->
     queue s' = queue s ++ [(Some "NEWLINE", VStr NL)] /\ state_name s' = Indent) /\
    (0 < bracket_count s -> queue s' = queue s /\ state_name s' = Default).
Proof.
  intros s pre w rest St Hpre P Hw.
  destruct comment_begins as [A1 A2].
  destruct comment_open as (O1 & O2 & O3 & O4 & O5 & O6).
  destruct (solo_family 8 (Call handle_comment) eq_refl) as (F1 & F2 & F3).
  set (tok := pre ++ Ch "#" :: chars w ++ [EOL; Ch nl]).
  assert (Lt : List.length tok = List.length pre + 1 + List.length (chars w) + 2).
  { unfold tok. rewrite length_app. cbn [List.length]. rewrite length_app.
    cbn [List.length]. lia. }
  assert (R : run_machine (lexicon (state_name s)) (pending (inp s)) 0 None
              = (Some (Call handle_comment, List.length tok), List.length tok)).
  { rewrite St, P.
    rewrite (default_first pre "#"%char 8 comment_1 _ Hpre A1 A2 ltac:(lia) O1).
    destruct (fam_loop (solo 8) (Call handle_comment) F1 F2 F3
                (of_class not_newline) comment_1 comment_2 O2 comment_moves
                (chars w) (EOL :: Ch nl :: rest) (List.length pre + 1) None
                (forallb_chars _ _ Hw)) as (m & bk' & Hm & E).
    rewrite E.
    assert (Em : der EOL m = comment_eol) by (destruct Hm; subst m; assumption).
    rewrite (fam_step (solo 8) (Call handle_comment) F1 F2 F3 m EOL)
      by (rewrite Em; exact O3).
    rewrite Em.
    rewrite (fam_step (solo 8) (Call handle_comment) F1 F2 F3 comment_eol (Ch nl))
      by (rewrite O6; reflexivity).
    rewrite O6.
    rewrite (fam_end (solo 8) (Call handle_comment) F1 F2 F3).
    rewrite Lt. f_equal; [f_equal; f_equal |]; lia. }
  assert (P2 : pending (inp s) = tok ++ rest).
  { rewrite P. unfold tok. rewrite <- !app_assoc. cbn [app].
    rewrite <- app_assoc. reflexivity. }
  destruct (scan_token_at s tok rest _ _ R P2) as [Hs Hp].
  assert (Tx : chars_of tok = String "#" (chars_of (chars w ++ [EOL; Ch nl]))).
  { unfold tok. rewrite (chars_of_pre pre _ Hpre). reflexivity. }
  destruct (last_char_cons "#" (chars_of (chars w ++ [EOL; Ch nl]))) as [d Hd].
  unfold scan_step. rewrite Hs. cbn [perform]. unfold handle_comment.
  rewrite Tx, Hd. cbn [bracket_count set_text set_inp set_start].
  destruct (bracket_count s =? 0) eqn:B.
  - apply Nat.eqb_eq in B. eexists. split; [reflexivity |].
    split; [exact Hp |]. split; [reflexivity |]. split; [reflexivity |].
    split; [intros _; split; reflexivity | intros L; lia].
  - apply Nat.eqb_neq in B. eexists. split; [reflexivity |].
    split; [exact Hp |]. split; [reflexivity |]. split; [reflexivity |].
    split; [intros L; lia | intros _; split; [reflexivity | exact St]].
Qed.

Lemma comment_is_a_newline_witness :
  let s := set_queue [] (fst (scan_step (init ("# a" ++ NL ++ "b")%string None false))) in
  exists s',
    scan_step s = (s', Ok tt) /\
    pending (inp s') = [BOL; Ch "b"%char; EOL; EOF] /\
    indents s' = indents s /\ bracket_count s' = bracket_count s /\
    (bracket_count s = 0 ->
     queue s' = queue s ++ [(Some "NEWLINE", VStr NL)] /\ state_name s' = Indent) /\
    (0 < bracket_count s -> queue s' = queue s /\ state_name s' = Default).
Proof.
  intros s.
  apply (comment_is_a_newline s [BOL] [" "%char; "a"%char]
           [BOL; Ch "b"%char; EOL; EOF]).
  - vm_compute. reflexivity.
  - right. reflexivity.
  - vm_compute. reflexivity.
  - reflexivity.
Defined.

(** ** The 'indent' state *)

Lemma indent_lexicon : lexicon Indent = indenting indent_0.
Proof. reflexivity. Qed.

Lemma indent_first :
  der BOL indent_0 = indent_bol /\ der (Ch " ") indent_0 = indent_1 /\
  der EOL indent_0 = indent_eol.
Proof. unfold indent_bol, indent_1, indent_eol. repeat split. Qed.

Lemma indent_open :
  accepts_empty indent_0 = true /\ accepts_empty indent_bol = false /\
  accepts_empty indent_1 = true /\
  dead indent_bol = false /\ dead indent_1 = false /\ dead indent_eol = false /\
  der (Ch " ") indent_bol = indent_1 /\ der (Ch " ") indent_1 = indent_1 /\
  der EOL indent_bol = indent_eol /\ der EOL indent_1 = indent_eol /\
  der (Ch nl) indent_eol = MEps.
Proof. repeat split; vm_compute; reflexivity. Qed.

Lemma space_moves : forall m,
  m = indent_0 \/ m = indent_bol \/ m = indent_1 ->
  forall x, of_class is_space x = true -> der x m = indent_1 /\ der x indent_1 = indent_1.
Proof.
  intros m Hm [c | | |] H; try discriminate H.
  simpl in H. apply Ascii.eqb_eq in H. subst c.
  destruct indent_first as (_ & E0 & _).
  destruct indent_open as (_ & _ & _ & _ & _ & _ & Eb & E1 & _).
  destruct Hm as [E | [E | E]]; subst m; auto.
Qed.

Lemma text_stops : forall x,
  of_class starts_text x = true ->
  dead (der x indent_0) = true /\ dead (der x indent_bol) = true /\
  dead (der x indent_1) = true.
Proof. intros x H. by_sym x H. Qed.

Lemma spaces_are_spaces : forall n, forallb (of_class is_space) (chars (spaces n)) = true.
Proof. induction n as [| n IH]; simpl; [reflexivity | exact IH]. Qed.

Lemma spaces_length : forall n,
  List.length (chars (spaces n)) = n /\
  String.length (string_of_list_ascii (spaces n)) = n.
Proof.
  induction n as [| n [IH1 IH2]]; simpl; [split; reflexivity |].
  unfold chars, spaces in *. rewrite IH1, IH2. split; reflexivity.
Qed.

Lemma spaces_last : forall n,
  last_char (string_of_list_ascii (spaces n)) <> Some nl.
Proof.
  induction n as [| n IH]; simpl; [discriminate |].
  destruct n as [| n]; [simpl; discriminate | exact IH].
Qed.

Lemma length_append : forall a b : string,
  String.length (a ++ b)%string = String.length a + String.length b.
Proof. induction a as [| c a IH]; intros b; simpl; [reflexivity | rewrite IH; reflexivity]. Qed.

Lemma last_char_newline : forall a : string, last_char (a ++ NL)%string = Some nl.
Proof.
  induction a as [| c a IH]; [reflexivity |].
  simpl. rewrite IH. destruct (a ++ NL)%string eqn:E; [| reflexivity].
  destruct a; discriminate E.
Qed.

(** X19.  A line of nothing but spaces (or an empty line) changes neither
    the indentation stack nor the state: in the 'indent' state, in front
    of any number of spaces and the newline, the round of [read] consumes
    the line, produces one NEWLINE token and no INDENT or OUTDENT, and
    stays in the 'indent' state. *)
Theorem blank_line_keeps_indentation : forall s pre n rest cur,
  state_name s = Indent ->
  pre = [] \/ pre = [BOL] ->
  pending (inp s) = pre ++ chars (spaces n) ++ EOL :: Ch nl :: rest ->
  top (indents s) = Some cur ->
  exists s',
    scan_step s = (s', Ok tt) /\
    queue s' = queue s ++ [(Some "NEWLINE", VStr NL)] /\
    state_name s' = Indent /\ indents s' = indents s /\
    bracket_count s' = bracket_count s /\
    pending (inp s') = rest.
Proof.
  intros s pre n rest cur St Hpre P Ht.
  destruct indenting_family as (F1 & F2 & F3).
  destruct indent_first as (Ib & _ & Ie).
  destruct indent_open as (A0 & Ab & A1 & Db & D1 & De & _ & _ & Eb & E1 & En).
  set (act := Call handle_indentation).
  set (tok := pre ++ chars (spaces n) ++ [EOL; Ch nl]).
  assert (Lt : List.length tok = List.length pre + n + 2).
  { unfold tok. rewrite !length_app, (proj1 (spaces_length n)). simpl. lia. }
  assert (Tail : forall m k bk,
            m = indent_0 \/ m = indent_bol \/ m = indent_1 ->
            run_machine (indenting m) (chars (spaces n) ++ EOL :: Ch nl :: rest) k bk
            = (Some (act, k + n + 2), k + n + 2)).
  { intros m k bk Hm.
    destruct (fam_loop indenting act F1 F2 F3 (of_class is_space) m indent_1 D1
                (space_moves m Hm) (chars (spaces n)) (EOL :: Ch nl :: rest) k bk
                (spaces_are_spaces n)) as (m' & bk' & Hm' & E).
    rewrite E, (proj1 (spaces_length n)).
    assert (Em : der EOL m' = indent_eol).
    { destruct Hm' as [X | X]; subst m'; [| exact E1].
      destruct Hm as [X | [X | X]]; subst m; assumption. }
    rewrite (fam_step indenting act F1 F2 F3 m' EOL) by (rewrite Em; exact De).
    rewrite Em.
    rewrite (fam_step indenting act F1 F2 F3 indent_eol (Ch nl))
      by (rewrite En; reflexivity).
    rewrite En, (fam_end indenting act F1 F2 F3).
    f_equal; [f_equal; f_equal |]; lia. }
  assert (R : run_machine (lexicon (state_name s)) (pending (inp s)) 0 None
              = (Some (act, List.length tok), List.length tok)).
  { rewrite St, P, indent_lexicon, Lt.
    destruct Hpre; subst pre; cbn [app List.length].
    - apply Tail. auto.
    - rewrite (fam_step indenting act F1 F2 F3 indent_0 BOL) by (rewrite Ib; exact Db).
      rewrite Ib, Tail by auto. reflexivity. }
  assert (P2 : pending (inp s) = tok ++ rest).
  { rewrite P. unfold tok. rewrite <- !app_assoc. reflexivity. }
  destruct (scan_token_at s tok rest _ _ R P2) as [Hs Hp].
  assert (Tx : chars_of tok = (string_of_list_ascii (spaces n) ++ NL)%string).
  { unfold tok. rewrite (chars_of_pre pre _ Hpre), LitFacts.chars_of_app, chars_of_chars.
    reflexivity. }
  unfold scan_step. rewrite Hs. unfold act. cbn [perform]. unfold handle_indentation.
  cbn [indents set_text set_inp set_start]. rewrite Ht, Tx.
  rewrite last_char_newline, length_append, Ascii.eqb_refl.
  replace (0 <? String.length (string_of_list_ascii (spaces n)) + String.length NL)
    with true by (symmetry; apply Nat.ltb_lt; simpl; lia).
  cbn [andb]. eexists. split; [reflexivity |]. split; [reflexivity |].
  split; [exact St |]. split; [reflexivity |]. split; [reflexivity | exact Hp].
Qed.

Lemma blank_line_keeps_indentation_witness :
  let s := init ("   " ++ NL ++ "a")%string None false in
  exists s',
    scan_step s = (s', Ok tt) /\
    queue s' = queue s ++ [(Some "NEWLINE", VStr NL)] /\
    state_name s' = Indent /\ indents s' = indents s /\
    bracket_count s' = bracket_count s /\
    pending (inp s') = [BOL; Ch "a"%char; EOL; EOF].
Proof.
  intros s.
  apply (blank_line_keeps_indentation s [BOL] 3 [BOL; Ch "a"%char; EOL; EOF] 0).
  - reflexivity.
  - right. reflexivity.
  - reflexivity.
  - reflexivity.
Defined.

(** X20.  Indentation is counted in spaces, with no fixed unit: in the
    'indent' state, in front of [n] spaces followed by a character that
    is neither a space nor the newline, on a stack whose top [cur] is at
    most [n], the round of [read] ends normally in the default state; when
    [n] is above [cur] it pushes [n] and produces one INDENT token carrying
    [n - cur], and when [n] is [cur] it changes nothing.  The spaces are
    consumed, the character is not. *)
Theorem indentation_is_counted_in_spaces : forall s pre n c rest cur,
  state_name s = Indent ->
  pre = [] \/ pre = [BOL] ->
  pending (inp s) = pre ++ chars (spaces n) ++ Ch c :: rest ->
  starts_text c = true ->
  top (indents s) = Some cur -> cur <= n ->
  exists s',
    scan_step s = (s', Ok tt) /\
    state_name s' = Default /\
    indents s' = (if cur <? n then indents s ++ [n] else indents s) /\
    queue s' = queue s ++ (if cur <? n then [(Some "INDENT", VInt (n - cur))] else []) /\
    pending (inp s') = (if n =? 0 then pre else []) ++ Ch c :: rest.
Proof.
  intros s pre n c rest cur St Hpre P Hc Ht Hle.
  destruct indenting_family as (F1 & F2 & F3).
  destruct indent_first as (Ib & _ & _).
  destruct indent_open as (A0 & Ab & A1 & Db & D1 & _ & Sb & _).
  destruct (text_stops (Ch c) Hc) as (S0 & Sbl & S1).
  set (act := Call handle_indentation).
  set (tok := if n =? 0 then [] else pre ++ chars (spaces n)).
  set (after := (if n =? 0 then pre else []) ++ Ch c :: rest).
  assert (Lt : List.length tok = if n =? 0 then 0 else List.length pre + n).
  { unfold tok. destruct (n =? 0); [reflexivity |].
    rewrite length_app, (proj1 (spaces_length n)). reflexivity. }
  assert (P2 : pending (inp s) = tok ++ after).
  { rewrite P. unfold tok, after. destruct n as [| n]; [reflexivity |].
    cbn [Nat.eqb]. rewrite <- !app_assoc. reflexivity. }
  assert (R : exists k,
            run_machine (lexicon (state_name s)) (pending (inp s)) 0 None
            = (Some (act, List.length tok), k)).
  { rewrite St, P, indent_lexicon, Lt.
    destruct Hpre; subst pre; cbn [app List.length].
    - exists n.
      rewrite (fam_munch indenting act F1 F2 F3 (of_class is_space) (of_class starts_text)
                 indent_0 indent_1 A0 A1 D1 (space_moves indent_0 (or_introl eq_refl))
                 (fun y Hy => let (a, b) := text_stops y Hy in conj a (proj2 b))
                 (chars (spaces n)) (Ch c) rest 0 None (spaces_are_spaces n) Hc).
      rewrite (proj1 (spaces_length n)). destruct n; reflexivity.
    - rewrite (fam_step indenting act F1 F2 F3 indent_0 BOL) by (rewrite Ib; exact Db).
      rewrite Ib, A0. destruct n as [| n].
      + exists 1. cbn [spaces repeat chars map app Nat.eqb].
        apply (fam_block indenting act F1 F2 F3); assumption.
      + exists (S (S n)). cbn [spaces repeat chars map app Nat.eqb].
        rewrite (fam_step indenting act F1 F2 F3 indent_bol (Ch " "))
          by (rewrite Sb; exact D1).
        rewrite Sb, Ab.
        fold (spaces n). fold (chars (spaces n)).
        rewrite (fam_munch indenting act F1 F2 F3 (of_class is_space) (of_class starts_text)
                   indent_1 indent_1 A1 A1 D1 (space_moves indent_1 (or_intror (or_intror eq_refl)))
                   (fun y Hy => let (a, b) := text_stops y Hy in conj (proj2 b) (proj2 b))
                   (chars (spaces n)) (Ch c) rest 2 _ (spaces_are_spaces n) Hc).
        rewrite (proj1 (spaces_length n)). reflexivity. }
  destruct R as [k R].
  destruct (scan_token_at s tok after _ _ R P2) as [Hs Hp].
  assert (Tx : chars_of tok = string_of_list_ascii (spaces n)).
  { unfold tok. destruct n as [| n]; [reflexivity |]. cbn [Nat.eqb].
    rewrite (chars_of_pre pre _ Hpre). apply chars_of_chars. }
  unfold scan_step. rewrite Hs. unfold act. cbn [perform]. unfold handle_indentation.
  cbn [indents set_text set_inp set_start]. rewrite Ht, Tx, (proj2 (spaces_length n)).
  assert (Bl : ((0 <? n) && match last_char (string_of_list_ascii (spaces n)) with
                            | Some c0 => Ascii.eqb c0 nl
                            | None => false
                            end) = false).
  { pose proof (spaces_last n) as L.
    destruct (last_char (string_of_list_ascii (spaces n))) as [d |];
      [| apply andb_false_r].
    destruct (Ascii.eqb d nl) eqn:E; [| apply andb_false_r].
    apply Ascii.eqb_eq in E. subst d. contradiction L. reflexivity. }
  rewrite Bl. destruct (cur <? n) eqn:L1.
  - eexists. split; [reflexivity |]. split; [reflexivity |].
    split; [reflexivity |]. split; [reflexivity | exact Hp].
  - assert (L2 : (n <? cur) = false).
    { apply Nat.ltb_ge. lia. }
    rewrite L2. eexists. split; [reflexivity |]. split; [reflexivity |].
    split; [reflexivity |]. split; [symmetry; apply app_nil_r | exact Hp].
Qed.

Lemma indentation_is_counted_in_spaces_witness :
  let s := init "   a" None false in
  exists s',
    scan_step s = (s', Ok tt) /\
    state_name s' = Default /\
    indents s' = [0; 3] /\
    queue s' = [(Some "INDENT", VInt 3)] /\
    pending (inp s') = [Ch "a"%char; EOL; EOF].
Proof.
  intros s.
  apply (indentation_is_counted_in_spaces s [BOL] 3 "a"%char [EOL; EOF] 0).
  - reflexivity.
  - right. reflexivity.
  - reflexivity.
  - reflexivity.
  - reflexivity.
  - lia.
Defined.

(** ** Characters that begin no token *)

Lemma unknown_blocks : forall c,
  begins_token c = false -> not_newline c = true ->
  blocked (advance (Ch c) (lexicon Default)) = true /\
  blocked (advance (Ch c) (advance BOL (lexicon Default))) = true.
Proof.
  intros c H1 H2. each_char c; vm_compute in H1; try discriminate H1;
    vm_compute in H2; try discriminate H2; split; vm_compute; reflexivity.
Qed.

(** The class is exact: every other character takes the machine on. *)
Lemma known_moves_on : forall c,
  begins_token c = true ->
  blocked (advance (Ch c) (lexicon Default)) = false /\
  blocked (advance (Ch c) (advance BOL (lexicon Default))) = false.
Proof.
  intros c H. each_char c; vm_compute in H; try discriminate H;
    split; vm_compute; reflexivity.
Qed.

Lemma unknown_scan : forall s pre c rest,
  state_name s = Default ->
  pre = [] \/ pre = [BOL] ->
  pending (inp s) = pre ++ Ch c :: rest ->
  begins_token c = false -> not_newline c = true ->
  exists s',
    scan_step s = (s', Raise UnrecognizedInput) /\
    queue s' = queue s /\ indents s' = indents s /\
    position s' = (name s, cur_line (inp s), cur_pos (inp s) - cur_line_start (inp s)) /\
    pending (inp s') = Ch c :: rest.
Proof.
  intros s pre c rest St Hpre P Hc Hn.
  destruct (unknown_blocks c Hc Hn) as [B1 B2].
  destruct default_after_bol as [D1 D2].
  assert (R : run_machine (lexicon (state_name s)) (pending (inp s)) 0 None
              = (None, List.length pre)).
  { rewrite St, P. destruct Hpre; subst pre; cbn [app List.length].
    - rewrite run_machine_cons, default_not_nullable, B1. reflexivity.
    - rewrite run_machine_cons, default_not_nullable, D1. cbv zeta.
      rewrite run_machine_cons, D2, B2. reflexivity. }
  unfold scan_step, scan_a_token. cbv zeta. rewrite R.
  destruct (inp s) as [p cp cl cls] eqn:I. cbn [pending] in P. subst p.
  destruct Hpre; subst pre; cbn [app List.length advance_by next_char pending cur_pos
                                   cur_char hd_error];
    rewrite Nat.eqb_refl; cbn [cur_char pending hd_error];
    (eexists; split; [reflexivity |]);
    cbn [queue indents position name start_line start_col set_inp set_start inp pending
           cur_line cur_pos cur_line_start];
    repeat split; reflexivity.
Qed.

(** X21.  A character that begins no token is reported where it stands:
    when the raw scanner is in the default state in front of a character
    that is not a letter, digit, underscore, quote, bracket, space, [#],
    [!] or punctuation character (a tab, [@], [;], [?], ...), [peek()]
    returns an ERROR token whose diagnostic is [InvalidCharacter] at the
    line and (1-based) column of that character, and sets [force_eof]. *)
Theorem invalid_character_is_located : forall self pre c rest,
  Look.peeked self = None -> Look.force_eof self = false ->
  queue (Look.raw_scanner self) = [] ->
  state_name (Look.raw_scanner self) = Default ->
  pre = [] \/ pre = [BOL] ->
  pending (inp (Look.raw_scanner self)) = pre ++ Ch c :: rest ->
  begins_token c = false -> not_newline c = true ->
  exists self',
    Look.peek self
    = (self',
       Ok (Look.error_token
             (InvalidCharacter
                {| filename := name (Look.raw_scanner self);
                   line := cur_line (inp (Look.raw_scanner self));
                   column := cur_pos (inp (Look.raw_scanner self))
                             - cur_line_start (inp (Look.raw_scanner self)) + 1 |}))) /\
    Look.force_eof self' = true /\
    snd (scan_step (Look.raw_scanner self)) = Raise UnrecognizedInput.
Proof.
  intros self pre c rest Hp Hf Hq St Hpre P Hc Hn.
  destruct (unknown_scan _ pre c rest St Hpre P Hc Hn) as (raw' & S & _ & _ & Pos & _).
  assert (Rd : read (Look.raw_scanner self) = (raw', Raise UnrecognizedInput)).
  { unfold read, rounds. rewrite Nat.add_comm. cbn [Nat.add read_loop].
    rewrite Hq, S. reflexivity. }
  assert (Pk : Look.peek self
               = ({| Look.raw_scanner := raw';
                     Look.peeked := Some (Look.error_token
                                            (InvalidCharacter (Look.location_at (position raw'))));
                     Look.peeking := false;
                     Look.last_token := Look.last_token self;
                     Look.force_eof := true |},
                  Ok (Look.error_token
                        (InvalidCharacter (Look.location_at (position raw')))))).
  { unfold Look.peek, Look.fetch. rewrite Hp, Hf, Rd. reflexivity. }
  eexists. split; [| split].
  - rewrite Pk, Pos. reflexivity.
  - reflexivity.
  - rewrite S. reflexivity.
Qed.

Lemma invalid_character_is_located_witness :
  let self := Look.init "@" None true in
  exists self',
    Look.peek self
    = (self',
       Ok (Look.error_token
             (InvalidCharacter {| filename := None; line := 1; column := 1 |}))) /\
    Look.force_eof self' = true /\
    snd (scan_step (Look.raw_scanner self)) = Raise UnrecognizedInput.
Proof.
  intros self.
  apply (invalid_character_is_located self [BOL] "@"%char [EOL; EOF]).
  - reflexivity.
  - reflexivity.
  - reflexivity.
  - reflexivity.
  - right. reflexivity.
  - reflexivity.
  - reflexivity.
  - reflexivity.
Defined.

End LexFacts.

(* ===================================================================== *)
(** * Facts about the position of a dedent error                           *)
(* ===================================================================== *)

Module DedentFacts.

Import Plex Tok Raw Inv Lex PlexFacts RawFacts LexFacts.

Local Open Scope nat_scope.

(** ** The position in the stream *)

Lemma expand_bols : forall cs, bols_ok false (expand cs).
Proof.
  induction cs as [| c cs IH]; simpl; [exact I |].
  destruct (Ascii.eqb c nl) eqn:E; simpl.
  - rewrite ?Ascii.eqb_refl. split; [reflexivity | exact IH].
  - rewrite E. exact IH.
Qed.

Lemma open_in_step : forall content, in_step (open_input content).
Proof.
  intros content. exists true. simpl. split; [| reflexivity].
  split; [reflexivity | apply expand_bols].
Qed.

Lemma next_char_in_step : forall i, in_step i -> in_step (next_char i).
Proof.
  intros i (b & B & P). unfold next_char.
  destruct (pending i) as [| x r] eqn:E; [exists b; rewrite E; auto |].
  destruct x as [c | | |]; simpl in B.
  - destruct (Ascii.eqb c nl) eqn:N.
    + exists true. simpl. split; [exact B | reflexivity].
    + exists false. simpl. split; [exact B | discriminate].
  - exists false. simpl. split; [apply B | discriminate].
  - exists false. simpl. split; [exact B | discriminate].
  - exists false. simpl. split; [exact B | discriminate].
Qed.

Lemma advance_by_in_step : forall k i, in_step i -> in_step (advance_by k i).
Proof.
  induction k as [| k IH]; intros i H; simpl; [exact H |].
  apply IH. apply next_char_in_step. exact H.
Qed.

(** At a BOL the scanner is at the start of a line. *)
Lemma bol_is_line_start : forall i r,
  in_step i -> pending i = BOL :: r -> cur_pos i = cur_line_start i.
Proof.
  intros i r (b & B & P) E. rewrite E in B. simpl in B. apply P. apply B.
Qed.

Lemma scan_a_token_in_step : forall s s1 r,
  in_step (inp s) -> scan_a_token s = (s1, r) -> in_step (inp s1).
Proof.
  intros s s1 r H S. unfold scan_a_token in S. cbv zeta in S.
  destruct (run_machine _ _ _ _) as [[[a k] |] j].
  - inversion S; subst. simpl. apply advance_by_in_step. exact H.
  - pose proof (advance_by_in_step j _ H) as H1.
    pose proof (next_char_in_step _ H1) as H2.
    dmatch S; inversion S; subst; simpl; assumption.
Qed.

Lemma scan_step_in_step : forall s s' r,
  stack_ok (indents s) -> in_step (inp s) -> scan_step s = (s', r) -> in_step (inp s').
Proof.
  intros s s' r Hok H S. unfold scan_step in S.
  destruct (scan_a_token s) as [s1 r1] eqn:A.
  pose proof (scan_a_token_in_step _ _ _ H A) as H1.
  destruct (scan_a_token_keeps _ _ _ A) as (_ & Ki & _).
  destruct r1 as [[txt [a |]] | e |].
  - destruct (scan_a_token_match _ _ _ _ A) as (re & k & Hin & Hacc & Et & _).
    destruct (perform a (set_text txt s1) txt) as [s3 r3] eqn:P.
    assert (Hok2 : stack_ok (indents (set_text txt s1))) by (simpl; rewrite Ki; exact Hok).
    rewrite Et in P at 2.
    destruct (perform_ok _ _ _ _ _ _ _ Hin Hacc Hok2 P) as (_ & _ & _ & I & _).
    simpl in I.
    destruct r3 as [[v |] | e |]; inversion S; subst; simpl; rewrite I; exact H1.
  - destruct (eof _) as [s3 r3] eqn:Eo.
    apply eof_ok in Eo; [| simpl; rewrite Ki; exact Hok].
    destruct Eo as (_ & _ & _ & I & _). simpl in I.
    inversion S; subst. rewrite I. exact H1.
  - inversion S; subst. exact H1.
  - inversion S; subst. exact H1.
Qed.

(** At every point of a scan: the stack is well formed, the name is the
    one given at the start, and the position is in step with the
    stream. *)
Lemma scan_in_step : forall content name expression_only s out,
  scan_from (init content name expression_only) s out ->
  stack_ok (indents s) /\ Raw.name s = name /\ in_step (inp s).
Proof.
  intros content name eo s out H.
  induction H as [| s out s' r H (I1 & I2 & I3) Hq Hs | s out t q H IH Hq].
  - split; [apply stack_ok_init |]. split; [reflexivity | apply open_in_step].
  - destruct (scan_step_ok _ _ _ I1 Hs) as (A & _ & _ & N & _).
    split; [exact A |]. split; [congruence |].
    apply (scan_step_in_step _ _ _ I1 I3 Hs).
  - exact IH.
Qed.

(** [read] moves along the scan. *)
Lemma read_loop_scan : forall s0 fuel s out s' t,
  scan_from s0 s out -> read_loop fuel s = (s', Ok t) ->
  scan_from s0 s' (out ++ [t]).
Proof.
  intros s0. induction fuel as [| fuel IH]; intros s out s' t H R; simpl in R.
  - destruct (queue s) as [| x q] eqn:Q; inversion R; subst.
    apply scan_take; assumption.
  - destruct (queue s) as [| x q] eqn:Q.
    + destruct (scan_step s) as [s1 r1] eqn:S.
      destruct r1 as [[] | e |]; try discriminate R.
      apply (IH s1 out s' t); [| exact R].
      apply (scan_round s0 s out s1 (Ok tt)); assumption.
    + inversion R; subst. apply scan_take; assumption.
Qed.

Lemma read_scan : forall s0 s out t,
  scan_from s0 s out -> snd (read s) = Ok t ->
  scan_from s0 (fst (read s)) (out ++ [t]).
Proof.
  intros s0 s out t H R. destruct (read s) as [s' r] eqn:E. simpl in *. subst r.
  apply (read_loop_scan s0 _ s out s' t H E).
Qed.

(** ** The round that scans the indentation of a line *)

Lemma indentation_scan : forall s n c rest,
  state_name s = Indent ->
  pending (inp s) = BOL :: chars (spaces n) ++ Ch c :: rest ->
  starts_text c = true ->
  scan_a_token s =
    (set_inp (advance_by (if n =? 0 then 0 else S n) (inp s))
       (set_start (cur_pos (inp s)) (cur_line (inp s))
          (cur_pos (inp s) - cur_line_start (inp s)) s),
     Ok (string_of_list_ascii (spaces n), Some (Call handle_indentation))) /\
  pending (advance_by (if n =? 0 then 0 else S n) (inp s))
  = (if n =? 0 then [BOL] else []) ++ Ch c :: rest.
Proof.
  intros s n c rest St P Hc.
  destruct indenting_family as (F1 & F2 & F3).
  destruct indent_first as (Ib & _ & _).
  destruct indent_open as (A0 & Ab & A1 & Db & D1 & _ & Sb & _).
  destruct (text_stops (Ch c) Hc) as (S0 & Sbl & S1).
  set (act := Call handle_indentation).
  set (tok := if n =? 0 then [] else BOL :: chars (spaces n)).
  set (after := (if n =? 0 then [BOL] else []) ++ Ch c :: rest).
  assert (Lt : List.length tok = if n =? 0 then 0 else S n).
  { unfold tok. destruct (n =? 0); [reflexivity |].
    cbn [List.length]. rewrite (proj1 (spaces_length n)). reflexivity. }
  assert (P2 : pending (inp s) = tok ++ after).
  { rewrite P. unfold tok, after. destruct n as [| n]; reflexivity. }
  assert (R : exists k,
            run_machine (lexicon (state_name s)) (pending (inp s)) 0 None
            = (Some (act, List.length tok), k)).
  { rewrite St, P, indent_lexicon, Lt.
    rewrite (fam_step indenting act F1 F2 F3 indent_0 BOL) by (rewrite Ib; exact Db).
    rewrite Ib, A0. destruct n as [| n].
    - exists 1. cbn [spaces repeat chars map app Nat.eqb].
      apply (fam_block indenting act F1 F2 F3); assumption.
    - exists (S (S n)). cbn [spaces repeat chars map app Nat.eqb].
      rewrite (fam_step indenting act F1 F2 F3 indent_bol (Ch " "))
        by (rewrite Sb; exact D1).
      rewrite Sb, Ab.
      fold (spaces n). fold (chars (spaces n)).
      rewrite (fam_munch indenting act F1 F2 F3 (of_class is_space) (of_class starts_text)
                 indent_1 indent_1 A1 A1 D1
                 (space_moves indent_1 (or_intror (or_intror eq_refl)))
                 (fun y Hy => let (a, b) := text_stops y Hy in conj (proj2 b) (proj2 b))
                 (chars (spaces n)) (Ch c) rest 2 _ (spaces_are_spaces n) Hc).
      rewrite (proj1 (spaces_length n)). reflexivity. }
  destruct R as [k R].
  destruct (scan_token_at s tok after _ _ R P2) as [Hs Hp].
  assert (Tx : chars_of tok = string_of_list_ascii (spaces n)).
  { unfold tok. destruct n as [| n]; [reflexivity |]. cbn [Nat.eqb].
    change (chars_of (BOL :: chars (spaces (S n))))
      with (chars_of (chars (spaces (S n)))).
    apply chars_of_chars. }
  rewrite Lt, Tx in Hs. rewrite Lt in Hp. split; assumption.
Qed.

(** ** Dedenting *)

(** C5 (as amended).  In file mode, at every point of a scan where a line
    begins (the scanner is in the 'indent' state at a BOL) whose [n]
    leading spaces are followed by a character that is neither a space nor
    a newline, with [n] less than the top of the stack: the round of [read]
    pops the levels above [n] (what stays ends in a level [t] that does not
    exceed [n]) and queues one OUTDENT for each popped level; when [t]
    differs from [n] it raises [IndentationError] carrying the scanner's
    [position()], which is the start of that line (its line number and
    column 0), not the column behind the indentation; when [t] is [n] it
    raises nothing and scanning resumes in the default state. *)
Theorem dedent_pops_and_checks : forall content name s out n c rest cur,
  scan_from (init content name false) s out ->
  state_name s = Indent ->
  pending (inp s) = BOL :: chars (spaces n) ++ Ch c :: rest ->
  starts_text c = true ->
  top (indents s) = Some cur -> n < cur ->
  exists kept popped t,
    indents s = kept ++ popped /\
    Forall (fun x => n < x) popped /\
    top kept = Some t /\ t <= n /\
    indents (fst (scan_step s)) = kept /\
    queue (fst (scan_step s)) = queue s ++ repeat outdent_token (List.length popped) /\
    snd (scan_step s)
    = (if t =? n then Ok tt
       else Raise (IndentationError (name, cur_line (inp s), 0))) /\
    (t = n -> state_name (fst (scan_step s)) = Default) /\
    pending (inp (fst (scan_step s))) = (if n =? 0 then [BOL] else []) ++ Ch c :: rest.
Proof.
  intros content name s out n c rest cur H St P Hc Ht Hlt.
  destruct (scan_in_step _ _ _ _ _ H) as (Hok & Hn & Hi).
  pose proof (bol_is_line_start _ _ Hi P) as Hcol.
  destruct (indentation_scan s n c rest St P Hc) as [Hs Hp].
  set (txt := string_of_list_ascii (spaces n)) in *.
  set (s1 := set_text txt
               (set_inp (advance_by (if n =? 0 then 0 else S n) (inp s))
                  (set_start (cur_pos (inp s)) (cur_line (inp s))
                     (cur_pos (inp s) - cur_line_start (inp s)) s))).
  assert (Len : String.length txt = n) by (apply (proj2 (spaces_length n))).
  assert (Hpos : position s1 = (name, cur_line (inp s), 0)).
  { unfold position, s1. cbn [Raw.name start_line start_col set_text set_inp set_start].
    rewrite Hn, Hcol, Nat.sub_diag. reflexivity. }
  destruct (dedent_handler s1 txt cur) as (kept & popped & t & E & Fp & Tk & Le & I & Q & R & D).
  - exact Hok.
  - exact Ht.
  - apply spaces_last.
  - rewrite Len. exact Hlt.
  - rewrite Len in *. rewrite Hpos in R.
    exists kept, popped, t.
    split; [exact E |]. split; [exact Fp |]. split; [exact Tk |]. split; [exact Le |].
    unfold scan_step. rewrite Hs. cbn [perform]. fold s1.
    assert (Inp : inp (fst (handle_indentation s1 txt)) = inp s1).
    { destruct (handle_indentation s1 txt) as [s3 r3] eqn:Hh.
      destruct (handle_indentation_ok s1 txt s3 r3 Hok Hh) as (_ & _ & _ & X & _).
      exact X. }
    destruct (handle_indentation s1 txt) as [s3 r3] eqn:Hh.
    cbn [fst snd] in I, Q, R, D, Inp. subst r3.
    destruct (t =? n) eqn:Etn; cbn [fst snd].
    + split; [exact I |]. split; [exact Q |]. split; [reflexivity |].
      split; [exact D |]. rewrite Inp. exact Hp.
    + split; [exact I |]. split; [exact Q |]. split; [reflexivity |].
      split; [intros X; apply Nat.eqb_neq in Etn; contradiction |].
      rewrite Inp. exact Hp.
Qed.

Lemma dedent_pops_and_checks_witness :
  let content := ("x:" ++ NL ++ "    y" ++ NL ++ "   z")%string in
  let s0 := init content None false in
  let r1 := fst (read s0) in
  let r2 := fst (read r1) in
  let r3 := fst (read r2) in
  let r4 := fst (read r3) in
  let r5 := fst (read r4) in
  let s := fst (read r5) in
  indents s = [0; 4] /\
  exists kept popped t,
    indents s = kept ++ popped /\
    Forall (fun x => 3 < x) popped /\
    top kept = Some t /\ t <= 3 /\
    indents (fst (scan_step s)) = kept /\
    queue (fst (scan_step s)) = queue s ++ repeat outdent_token (List.length popped) /\
    snd (scan_step s)
    = (if t =? 3 then Ok tt
       else Raise (IndentationError (None, cur_line (inp s), 0))) /\
    (t = 3 -> state_name (fst (scan_step s)) = Default) /\
    pending (inp (fst (scan_step s))) = [] ++ Ch "z"%char :: [EOL; EOF].
Proof.
  intros content s0 r1 r2 r3 r4 r5 s. split; [vm_compute; reflexivity |].
  set (t1 := (Some "IDENT", VStr "x") : raw_token).
  set (t2 := (Some ":", VStr ":") : raw_token).
  set (t3 := (Some "NEWLINE", VStr NL) : raw_token).
  set (t4 := (Some "INDENT", VInt 4) : raw_token).
  set (t5 := (Some "IDENT", VStr "y") : raw_token).
  assert (H1 : scan_from s0 r1 ([] ++ [t1]))
    by (apply (read_scan s0 s0 [] t1); [apply scan_start | vm_compute; reflexivity]).
  assert (H2 : scan_from s0 r2 ([t1] ++ [t2]))
    by (apply (read_scan s0 r1 [t1] t2 H1); vm_compute; reflexivity).
  assert (H3 : scan_from s0 r3 ([t1; t2] ++ [t3]))
    by (apply (read_scan s0 r2 [t1; t2] t3 H2); vm_compute; reflexivity).
  assert (H4 : scan_from s0 r4 ([t1; t2; t3] ++ [t4]))
    by (apply (read_scan s0 r3 [t1; t2; t3] t4 H3); vm_compute; reflexivity).
  assert (H5 : scan_from s0 r5 ([t1; t2; t3; t4] ++ [t5]))
    by (apply (read_scan s0 r4 [t1; t2; t3; t4] t5 H4); vm_compute; reflexivity).
  assert (H6 : scan_from s0 s ([t1; t2; t3; t4; t5] ++ [t3]))
    by (apply (read_scan s0 r5 [t1; t2; t3; t4; t5] t3 H5); vm_compute; reflexivity).
  apply (dedent_pops_and_checks content None s _ 3 "z"%char [EOL; EOF] 4 H6).
  - vm_compute. reflexivity.
  - vm_compute. reflexivity.
  - reflexivity.
  - vm_compute. reflexivity.
  - lia.
Defined.

(** C5 as stated fails on the position: on the input below the third
    line is indented by 3 spaces under the levels 0 and 4; the mismatch is
    found once these 3 spaces are read, but the [IndentationError] carries
    column 0 of line 3, the start of the line, not column 3 behind the
    indentation. *)
Lemma dedent_error_is_at_line_start :
  let content := ("x:" ++ NL ++ "    y" ++ NL ++ "   z")%string in
  let s0 := init content None false in
  let s := fst (read (fst (read (fst (read (fst (read (fst (read (fst (read s0))))))))))) in
  pending (inp s) = BOL :: chars (spaces 3) ++ [Ch "z"%char; EOL; EOF] /\
  indents s = [0; 4] /\
  snd (scan_step s) = Raise (IndentationError (None, 3, 0)) /\
  snd (scan_step s) <> Raise (IndentationError (None, 3, 3)).
Proof.
  intros content s0 s.
  assert (E : snd (scan_step s) = Raise (IndentationError (None, 3, 0)))
    by (vm_compute; reflexivity).
  split; [vm_compute; reflexivity |]. split; [vm_compute; reflexivity |].
  split; [exact E |]. rewrite E. discriminate.
Qed.

End DedentFacts.
